(** * optimize-public-images: the path resolver, scanner, selection engine
      and batch loop of [bin/optimize.js]

    The program is a single Node.js script.  It is embedded here with the
    library calls it makes:
    - [Path]: Node's [path] module (POSIX flavour), translated loop by loop;
    - [Glob]: the fragment of [glob]/[minimatch] that the scan pattern uses;
    - [Fs]:   the files and directories the script reads and writes;
    - [Cli]:  [optimizeImage], [main] and the top-level [main().catch(...)].

    JavaScript strings are lists of characters, JavaScript numbers that
    serve as indices are [Z] (with the sentinel [-1] the source uses) or
    [nat] loop counters.  The [--help] branch of lines 13-25 prints the
    usage and exits before [main] is called; it is not part of a run. *)

From stdpp Require Import base option list strings gmap sorting.
From Stdlib Require Import Ascii ZArith Lia.

Local Open Scope Z_scope.
Set Warnings "-clear-no-such-hyp".

(** ** JavaScript strings *)

Abbreviation jsstring := (list ascii).

(** A string literal. *)
Definition lit (s : string) : jsstring := String.list_ascii_of_string s.

Definition CHAR_FORWARD_SLASH : ascii := "/"%char.
Definition CHAR_DOT : ascii := "."%char.

(** [codeIs s i c] is [s.charCodeAt(i) === c]; out of range the code is
    [NaN], which equals nothing. *)
Definition codeIs (s : jsstring) (i : nat) (c : ascii) : bool :=
  bool_decide (s !! i = Some c).

(** [slice s a b] is [s.slice(a, b)] for [0 <= a] and [0 <= b]; the source
    never calls it with a negative index. *)
Definition slice (s : jsstring) (a b : Z) : jsstring :=
  take (Z.to_nat b - Z.to_nat a)%nat (drop (Z.to_nat a) s).

(** [lastIndexOf s c] is [s.lastIndexOf(c)] for a one-character [c]:
    the greatest index holding [c], or [-1]. *)
Fixpoint lastIndexOf_from (s : jsstring) (i : nat) (c : ascii) : Z :=
  match s with
  | [] => -1
  | x :: s' =>
      let r := lastIndexOf_from s' (S i) c in
      if (r =? -1) then (if bool_decide (x = c) then Z.of_nat i else -1) else r
  end.

Definition lastIndexOf (s : jsstring) (c : ascii) : Z := lastIndexOf_from s 0 c.

Definition len (s : jsstring) : Z := Z.of_nat (length s).

(** ** Node's [path] module, POSIX flavour *)

Module Path.

(** *** [normalizeString(path, allowAboveRoot, '/', isPosixPathSeparator)]

    The loop runs over [i = 0 .. path.length], the last round standing for
    a closing separator.  Its variables are [res], [lastSegmentLength],
    [dots] and [lastSlash]; the source uses [lastSlash] only to test
    [lastSlash === i - 1] and to take [path.slice(lastSlash + 1, i)], so
    the state below carries that slice, [seg], in its place. *)
Record nstate := NState {
  res : jsstring;
  lastSegmentLength : Z;
  seg : jsstring;        (* path.slice(lastSlash + 1, i) *)
  dots : Z
}.

Definition nstate0 : nstate := NState [] 0 [] 0.

(** The body of [if (isPathSeparator(code)) { ... }]. *)
Definition on_separator (allowAboveRoot : bool) (st : nstate) : nstate :=
  let r := res st in
  if bool_decide (seg st = []) || (dots st =? 1) then
    (* NOOP *)
    NState r (lastSegmentLength st) [] 0
  else if dots st =? 2 then
    if (len r <? 2) || negb (lastSegmentLength st =? 2)
       || negb (codeIs r (length r - 1) CHAR_DOT)
       || negb (codeIs r (length r - 2) CHAR_DOT)
    then
      if len r >? 2 then
        let lastSlashIndex := lastIndexOf r CHAR_FORWARD_SLASH in
        if lastSlashIndex =? -1 then NState [] 0 [] 0
        else
          let r' := slice r 0 lastSlashIndex in
          NState r' (len r' - 1 - lastIndexOf r' CHAR_FORWARD_SLASH) [] 0
      else if negb (len r =? 0) then NState [] 0 [] 0
      else if allowAboveRoot then
        NState (if len r >? 0 then r ++ lit "/.." else lit "..") 2 [] 0
      else NState r (lastSegmentLength st) [] 0
    else if allowAboveRoot then
      NState (if len r >? 0 then r ++ lit "/.." else lit "..") 2 [] 0
    else NState r (lastSegmentLength st) [] 0
  else
    NState (if len r >? 0 then r ++ CHAR_FORWARD_SLASH :: seg st else seg st)
           (len (seg st)) [] 0.

(** One round of the loop for [i < path.length]. *)
Definition nstep (allowAboveRoot : bool) (st : nstate) (code : ascii) : nstate :=
  if bool_decide (code = CHAR_FORWARD_SLASH) then on_separator allowAboveRoot st
  else if bool_decide (code = CHAR_DOT) && negb (dots st =? -1) then
    NState (res st) (lastSegmentLength st) (seg st ++ [code]) (dots st + 1)
  else
    NState (res st) (lastSegmentLength st) (seg st ++ [code]) (-1).

Fixpoint nloop (allowAboveRoot : bool) (st : nstate) (path : jsstring)
    (last_is_sep : bool) : nstate :=
  match path with
  | [] =>
      (* i === path.length: break after a separator, else close the
         segment as if one followed *)
      if last_is_sep then st else on_separator allowAboveRoot st
  | code :: rest =>
      nloop allowAboveRoot (nstep allowAboveRoot st code) rest
            (bool_decide (code = CHAR_FORWARD_SLASH))
  end.

Definition normalizeString (path : jsstring) (allowAboveRoot : bool) : jsstring :=
  res (nloop allowAboveRoot nstate0 path false).

(** *** [normalize(path)] *)
Definition normalize (path : jsstring) : jsstring :=
  if bool_decide (path = []) then lit "."
  else
    let isAbsolute := codeIs path 0 CHAR_FORWARD_SLASH in
    let trailingSeparator := codeIs path (length path - 1) CHAR_FORWARD_SLASH in
    let path' := normalizeString path (negb isAbsolute) in
    if bool_decide (path' = []) then
      if isAbsolute then lit "/"
      else if trailingSeparator then lit "./" else lit "."
    else
      let path'' := if trailingSeparator then path' ++ lit "/" else path' in
      if isAbsolute then CHAR_FORWARD_SLASH :: path'' else path''.

(** *** [join(...args)] *)
Fixpoint join_args (joined : option jsstring) (args : list jsstring)
    : option jsstring :=
  match args with
  | [] => joined
  | arg :: rest =>
      if bool_decide (arg = []) then join_args joined rest
      else
        match joined with
        | None => join_args (Some arg) rest
        | Some j => join_args (Some (j ++ CHAR_FORWARD_SLASH :: arg)) rest
        end
  end.

Definition join (args : list jsstring) : jsstring :=
  match join_args None args with
  | None => lit "."
  | Some joined => normalize joined
  end.

(** *** [dirname(path)]

    [dirname_loop path i matchedSlash] runs the rounds [i, i-1, .., 1] and
    returns [end]. *)
Fixpoint dirname_loop (path : jsstring) (i : nat) (matchedSlash : bool) : Z :=
  match i with
  | O => -1
  | S i' =>
      if codeIs path i CHAR_FORWARD_SLASH then
        if negb matchedSlash then Z.of_nat i
        else dirname_loop path i' matchedSlash
      else dirname_loop path i' false
  end.

Definition dirname (path : jsstring) : jsstring :=
  if bool_decide (path = []) then lit "."
  else
    let hasRoot := codeIs path 0 CHAR_FORWARD_SLASH in
    let end_ := dirname_loop path (length path - 1) true in
    if end_ =? -1 then (if hasRoot then lit "/" else lit ".")
    else if hasRoot && (end_ =? 1) then lit "//"
    else slice path 0 end_.

(** *** [extname(path)] *)
Record estate := EState {
  startDot : Z;
  e_end : Z;
  e_matchedSlash : bool;
  preDotState : Z
}.

(** [extname_loop path n st] runs the rounds [i = n-1, .., 0] and returns
    [startPart] with the final state. *)
Fixpoint extname_loop (path : jsstring) (n : nat) (st : estate) : Z * estate :=
  match n with
  | O => (0, st)
  | S i =>
      if codeIs path i CHAR_FORWARD_SLASH then
        if negb (e_matchedSlash st) then (Z.of_nat i + 1, st)
        else extname_loop path i st
      else
        let st1 :=
          if e_end st =? -1
          then EState (startDot st) (Z.of_nat i + 1) false (preDotState st)
          else st in
        let st2 :=
          if codeIs path i CHAR_DOT then
            if startDot st1 =? -1
            then EState (Z.of_nat i) (e_end st1) (e_matchedSlash st1) (preDotState st1)
            else if negb (preDotState st1 =? 1)
            then EState (startDot st1) (e_end st1) (e_matchedSlash st1) 1
            else st1
          else if negb (startDot st1 =? -1)
          then EState (startDot st1) (e_end st1) (e_matchedSlash st1) (-1)
          else st1 in
        extname_loop path i st2
  end.

Definition extname (path : jsstring) : jsstring :=
  let '(startPart, st) := extname_loop path (length path) (EState (-1) (-1) true 0) in
  if (startDot st =? -1) || (e_end st =? -1) || (preDotState st =? 0)
     || ((preDotState st =? 1) && (startDot st =? e_end st - 1)
         && (startDot st =? startPart + 1))
  then []
  else slice path (startDot st) (e_end st).

(** *** [basename(path, suffix)] *)
Record bstate := BState {
  b_end : Z;
  b_matchedSlash : bool;
  extIdx : Z;
  firstNonSlashEnd : Z
}.

(** The loop of the branch taken when a non-empty suffix no longer than
    the path is given; returns [start] with the final state. *)
Fixpoint basename_suffix_loop (path suffix : jsstring) (n : nat) (st : bstate)
    : Z * bstate :=
  match n with
  | O => (0, st)
  | S i =>
      if codeIs path i CHAR_FORWARD_SLASH then
        if negb (b_matchedSlash st) then (Z.of_nat i + 1, st)
        else basename_suffix_loop path suffix i st
      else
        let st1 :=
          if firstNonSlashEnd st =? -1
          then BState (b_end st) false (extIdx st) (Z.of_nat i + 1)
          else st in
        let st2 :=
          if extIdx st1 >=? 0 then
            if bool_decide (path !! i = suffix !! Z.to_nat (extIdx st1)) then
              let x := extIdx st1 - 1 in
              if x =? -1
              then BState (Z.of_nat i) (b_matchedSlash st1) x (firstNonSlashEnd st1)
              else BState (b_end st1) (b_matchedSlash st1) x (firstNonSlashEnd st1)
            else
              BState (firstNonSlashEnd st1) (b_matchedSlash st1) (-1)
                     (firstNonSlashEnd st1)
          else st1 in
        basename_suffix_loop path suffix i st2
  end.

(** The loop of the other branch; returns [(start, end)]. *)
Fixpoint basename_loop (path : jsstring) (n : nat) (end_ : Z)
    (matchedSlash : bool) : Z * Z :=
  match n with
  | O => (0, end_)
  | S i =>
      if codeIs path i CHAR_FORWARD_SLASH then
        if negb matchedSlash then (Z.of_nat i + 1, end_)
        else basename_loop path i end_ matchedSlash
      else if end_ =? -1 then basename_loop path i (Z.of_nat i + 1) false
      else basename_loop path i end_ matchedSlash
  end.

(** The script always passes a suffix (the result of [extname]); an absent
    suffix takes the same branch as an empty one. *)
Definition basename (path suffix : jsstring) : jsstring :=
  if (0 <? len suffix) && (len suffix <=? len path) then
    if bool_decide (suffix = path) then []
    else
      let '(start, st) :=
        basename_suffix_loop path suffix (length path)
          (BState (-1) true (len suffix - 1) (-1)) in
      let end_ :=
        if start =? b_end st then firstNonSlashEnd st
        else if b_end st =? -1 then len path
        else b_end st in
      slice path start end_
  else
    let '(start, end_) := basename_loop path (length path) (-1) true in
    if end_ =? -1 then [] else slice path start end_.

End Path.

(** ** The scan pattern: [glob] and [minimatch]

    [glob.sync(pattern, { cwd, nodir: true })] lists the regular files below
    [cwd] as '/'-separated relative paths and keeps those that [minimatch]
    accepts, with its default options ([dot] and [nocase] off).  The
    fragment below covers what the script's pattern uses: one level of
    braces, ['/']-separated parts, the part [**], and parts made of [*] and
    literal characters. *)

(** [s.split('/')]. *)
Fixpoint split_from (cur : jsstring) (s : jsstring) : list jsstring :=
  match s with
  | [] => [cur]
  | c :: s' =>
      if bool_decide (c = CHAR_FORWARD_SLASH) then cur :: split_from [] s'
      else split_from (cur ++ [c]) s'
  end.

Definition split (s : jsstring) : list jsstring := split_from [] s.

Definition startsWithDot (s : jsstring) : bool := codeIs s 0 CHAR_DOT.

Module Glob.

Inductive tok := Star | Char (c : ascii).
Inductive part := GlobStar | Seg (ts : list tok).

(** Brace expansion, one level: [a{b,c}d] gives [abd] and [acd]. *)
Inductive brace := Outside | Inside (alts : list jsstring) (cur : jsstring).

Fixpoint expand_from (heads : list jsstring) (b : brace) (s : jsstring)
    : list jsstring :=
  match s with
  | [] => heads
  | c :: s' =>
      match b with
      | Outside =>
          if bool_decide (c = "{"%char) then expand_from heads (Inside [] []) s'
          else expand_from (map (λ h, h ++ [c]) heads) Outside s'
      | Inside alts cur =>
          if bool_decide (c = ","%char)
          then expand_from heads (Inside (alts ++ [cur]) []) s'
          else if bool_decide (c = "}"%char)
          then expand_from
                 (h ← heads; (λ a, h ++ a) <$> (alts ++ [cur])) Outside s'
          else expand_from heads (Inside alts (cur ++ [c])) s'
      end
  end.

Definition braceExpand (pattern : jsstring) : list jsstring :=
  expand_from [[]] Outside pattern.

Definition parse_part (p : jsstring) : part :=
  if bool_decide (p = lit "**") then GlobStar
  else Seg ((λ c, if bool_decide (c = "*"%char) then Star else Char c) <$> p).

Definition parse (pattern : jsstring) : list part := parse_part <$> split pattern.

(** [*] stands for any run of characters other than ['/']. *)
Fixpoint wild_match (ts : list tok) (name : jsstring) : bool :=
  match ts with
  | [] => bool_decide (name = [])
  | Char c :: ts' =>
      match name with
      | x :: name' => bool_decide (x = c) && wild_match ts' name'
      | [] => false
      end
  | Star :: ts' =>
      (fix star (name : jsstring) : bool :=
         wild_match ts' name
         || match name with
            | x :: name' => negb (bool_decide (x = CHAR_FORWARD_SLASH)) && star name'
            | [] => false
            end) name
  end.

(** With [dot] off a name that starts with a dot is matched only by a part
    that starts with a literal dot, and a part that starts with [*] matches
    no empty name. *)
Definition seg_match (ts : list tok) (name : jsstring) : bool :=
  match ts with
  | Char c :: _ => wild_match ts name
  | _ => negb (startsWithDot name) && negb (bool_decide (name = []))
         && wild_match ts name
  end.

(** [**] swallows any number of leading path parts, none starting with a
    dot. *)
Fixpoint matchOne (ps : list part) (file : list jsstring) : bool :=
  match ps with
  | [] => bool_decide (file = [])
  | Seg ts :: ps' =>
      match file with
      | f :: file' => seg_match ts f && matchOne ps' file'
      | [] => false
      end
  | GlobStar :: ps' =>
      (fix swallow (file : list jsstring) : bool :=
         matchOne ps' file
         || match file with
            | f :: file' => negb (startsWithDot f) && swallow file'
            | [] => false
            end) file
  end.

Definition minimatch (file pattern : jsstring) : bool :=
  existsb (λ p, matchOne (parse p) (split file)) (braceExpand pattern).

End Glob.

(** ** The file system *)

Module Fs.

(** Regular files by absolute path, the directories that exist, and the
    order in which a walk of the tree meets the paths: the order of
    [readdir], which the file system decides and no code of the script
    changes.  A path of smaller [rank] is met first. *)
Record state := State {
  files : gmap jsstring (list Byte.byte);
  dirs : gset jsstring;
  rank : jsstring → nat
}.

(** [fs.existsSync(p)]. *)
Definition existsSync (p : jsstring) (σ : state) : bool :=
  bool_decide (p ∈ dirs σ) || bool_decide (is_Some (files σ !! p)).

(** [stripPrefix pre s] is [Some r] when [s = pre ++ r]. *)
Fixpoint stripPrefix (pre s : jsstring) : option jsstring :=
  match pre, s with
  | [], _ => Some s
  | c :: pre', x :: s' => if bool_decide (c = x) then stripPrefix pre' s' else None
  | _ :: _, [] => None
  end.

(** [p] is met no later than [q]. *)
Definition earlier (σ : state) (p q : jsstring) : Prop :=
  (rank σ p ≤ rank σ q)%nat.

#[global] Instance earlier_dec σ p q : Decision (earlier σ p q) :=
  decide (rank σ p ≤ rank σ q)%nat.

(** The regular files below [dir], relative to it, in the order of the
    walk. *)
Definition filesBelow (dir : jsstring) (σ : state) : list jsstring :=
  omap (stripPrefix (dir ++ [CHAR_FORWARD_SLASH]))
       (merge_sort (earlier σ) (map_to_list (files σ)).*1).

(** [p] and the directories above it: the prefixes of [p] that end where a
    separator follows, and [p] itself. *)
Fixpoint ancestors_from (cur : jsstring) (s : jsstring) : list jsstring :=
  match s with
  | [] => [cur]
  | c :: s' =>
      (if bool_decide (c = CHAR_FORWARD_SLASH) && negb (bool_decide (cur = []))
       then [cur] else [])
      ++ ancestors_from (cur ++ [c]) s'
  end.

Definition ancestors (p : jsstring) : list jsstring := ancestors_from [] p.

End Fs.

(** ** [bin/optimize.js] *)

Module Cli.

(** The values ['all'], ['folder'], ['file'] and ['new_folder'],
    ['overwrite'] of the two list prompts. *)
Inductive selectionMode := sel_all | sel_folder | sel_file.
Inductive strategy := new_folder | overwrite.

(** What the user answers at the prompts.  A checkbox prompt returns the
    ticked choices in the order they are listed; [a_customSuffix] is what
    the input prompt returns, its default ['_optimized'] when nothing is
    typed. *)
Record answers := Answers {
  a_selectionMode : selectionMode;
  a_selectedDirs : list jsstring;     (* folders ticked *)
  a_files : list jsstring;            (* files ticked *)
  a_strategy : strategy;
  a_customSuffix : jsstring;
  a_confirm : bool
}.

(** What the script is run with: the working directory, the user, the
    codec behind [sharp(...).webp({ quality })] ([None]: the input cannot
    be encoded) and the paths the operating system refuses to create or
    write. *)
Record env := Env {
  cwd : jsstring;
  user : answers;
  webp : Z → list Byte.byte → option (list Byte.byte);
  denied : jsstring → bool
}.

Inductive promptName :=
  | p_selectionMode | p_selectedDirs | p_files | p_strategy | p_customSuffix
  | p_confirm.

Inductive message :=
  | msg_banner
  | msg_public_not_found
  | msg_found_public (dir : jsstring)
  | msg_no_images
  | msg_found (n : nat)
  | msg_selected (n : nat)
  | msg_cancelled
  | msg_error (text : jsstring)
  | msg_complete
  | msg_processed (n : Z)
  | msg_failed (n : Z)
  | msg_overwrite_note
  | msg_fatal (err : jsstring).

Inductive event :=
  | Print (m : message)
  | Prompt (name : promptName)
  | EnsureDir (dir : jsstring)
  | OptimizeImage (inputPath outputPath : jsstring) (quality : Z).

(** The mutable world: the file system and what has happened so far. *)
Record world := World {
  fs : Fs.state;
  trace : list event
}.

(** How an asynchronous computation ends: with a value, with a thrown
    error (a rejected promise), with [process.exit(code)], or never, at a
    prompt whose [validate] refuses the only answer the user gives. *)
Inductive result (A : Type) :=
  | Ok (a : A)
  | Throw (err : jsstring)
  | Exit (code : Z)
  | Waiting.
Arguments Ok {A} a.
Arguments Throw {A} err.
Arguments Exit {A} code.
Arguments Waiting {A}.

Definition M (A : Type) : Type := world → result A * world.

#[global] Instance M_ret : MRet M := λ A a w, (Ok a, w).
#[global] Instance M_bind : MBind M := λ A B f m w,
  match m w with
  | (Ok a, w') => f a w'
  | (Throw e, w') => (Throw e, w')
  | (Exit c, w') => (Exit c, w')
  | (Waiting, w') => (Waiting, w')
  end.

Definition throw {A} (err : jsstring) : M A := λ w, (Throw err, w).
Definition process_exit {A} (code : Z) : M A := λ w, (Exit code, w).
Definition wait {A} : M A := λ w, (Waiting, w).
Definition emit (e : event) : M unit :=
  λ w, (Ok tt, World (fs w) (trace w ++ [e])).
Definition console_log (m : message) : M unit := emit (Print m).
Definition get_fs : M Fs.state := λ w, (Ok (fs w), w).
Definition put_fs (σ : Fs.state) : M unit := λ w, (Ok tt, World σ (trace w)).

(** [try { body } catch (err) { handler(err) }]. *)
Definition try_catch {A} (body : M A) (handler : jsstring → M A) : M A :=
  λ w, match body w with
       | (Throw e, w') => handler e w'
       | r => r
       end.

Section Script.
Context (E : env).

(** [const publicDir = path.join(process.cwd(), 'public')]. *)
Definition publicDir : jsstring := Path.join [cwd E; lit "public"].

Definition existsSync (p : jsstring) : M bool :=
  σ ← get_fs; mret (Fs.existsSync p σ).

(** [glob.sync(pattern, { cwd: dir, nodir: true })]. *)
Definition glob_sync (pattern dir : jsstring) : M (list jsstring) :=
  σ ← get_fs;
  mret (filter (λ f, Glob.minimatch f pattern = true) (Fs.filesBelow dir σ)).

(** The message of the error of a [mkdir] that is refused: a regular file
    stands where a directory above [dir] should be, or where [dir] itself
    should be, or else the system denies the call. *)
Definition mkdirError (σ : Fs.state) (dir : jsstring) : jsstring :=
  (if existsb (λ d, negb (bool_decide (d = dir))
                    && bool_decide (is_Some (Fs.files σ !! d)))
              (Fs.ancestors dir)
   then lit "ENOTDIR: not a directory"
   else if bool_decide (is_Some (Fs.files σ !! dir))
   then lit "EEXIST: file already exists"
   else lit "EACCES: permission denied")
  ++ lit ", mkdir '" ++ dir ++ lit "'".

(** A [mkdir] of [dir] and of the directories above it fails where a
    regular file is in the way or the system denies it. *)
Definition mkdirFails (σ : Fs.state) (dir : jsstring) : bool :=
  existsb (λ d, bool_decide (is_Some (Fs.files σ !! d)) || denied E d)
          (Fs.ancestors dir).

(** [fs.ensureDir(dir)]: creates [dir] and the directories above it. *)
Definition ensureDir (dir : jsstring) : M unit :=
  emit (EnsureDir dir);;
  σ ← get_fs;
  if mkdirFails σ dir
  then throw (mkdirError σ dir)
  else put_fs (Fs.State (Fs.files σ) (list_to_set (Fs.ancestors dir) ∪ Fs.dirs σ)
                        (Fs.rank σ)).

(** [sharp(inputPath).webp({ quality }).toFile(outputPath)]. *)
Definition sharp_webp_toFile (inputPath outputPath : jsstring) (quality : Z)
    : M unit :=
  σ ← get_fs;
  match Fs.files σ !! inputPath with
  | None => throw (lit "Input file is missing")
  | Some bytes =>
      match webp E quality bytes with
      | None => throw (lit "Input file contains unsupported image format")
      | Some out =>
          if denied E outputPath
          then throw (lit "unable to open for write")
          else put_fs (Fs.State (<[outputPath := out]> (Fs.files σ)) (Fs.dirs σ)
                                (Fs.rank σ))
      end
  end.

(** [async function optimizeImage(inputPath, outputPath, quality = 80)]. *)
Definition optimizeImage (inputPath outputPath : jsstring) (quality : Z)
    : M bool :=
  emit (OptimizeImage inputPath outputPath quality);;
  try_catch
    (sharp_webp_toFile inputPath outputPath quality;; mret true)
    (λ err, throw (lit "Failed to optimize " ++ Path.basename inputPath []
                   ++ lit ": " ++ err)).

(** The prompts.  [checkbox] returns the ticked choices in listing order
    and, by its [validate], accepts nothing shorter than one. *)
Definition prompt {A} (name : promptName) (answer : A) : M A :=
  emit (Prompt name);; mret answer.

Definition checkbox (name : promptName) (choices ticked : list jsstring)
    : M (list jsstring) :=
  emit (Prompt name);;
  let answer := filter (λ c, c ∈ ticked) choices in
  if (length answer <? 1)%nat then wait else mret answer.

(** [[...new Set(xs)]]: the first occurrences, in order. *)
Fixpoint unique_from (seen : list jsstring) (xs : list jsstring) : list jsstring :=
  match xs with
  | [] => []
  | x :: xs' =>
      if bool_decide (x ∈ seen) then unique_from seen xs'
      else x :: unique_from (x :: seen) xs'
  end.

Definition unique (xs : list jsstring) : list jsstring := unique_from [] xs.

(** Lines 160-207: the output path of one file; for [new_folder] the
    directory that [fs.ensureDir] is called on comes first. *)
Definition outputDirPath (suffix file : jsstring) : jsstring :=
  let dir := Path.dirname file in
  let outputDirName := if bool_decide (dir = lit ".") then suffix else dir ++ suffix in
  Path.join [publicDir; outputDirName].

Definition outputPath (s : strategy) (suffix file : jsstring) : jsstring :=
  let dir := Path.dirname file in
  let ext := Path.extname file in
  let baseName := Path.basename file ext in
  match s with
  | overwrite => Path.join [publicDir; dir; baseName ++ lit ".webp"]
  | new_folder => Path.join [outputDirPath suffix file; baseName ++ lit ".webp"]
  end.

(** Lines 160-228: the loop, with its two counters.  [optimizeImage] is
    called with two arguments, so [quality] is its default, 80. *)
Fixpoint batch (s : strategy) (suffix : jsstring) (selectedFiles : list jsstring)
    (successCount failCount : Z) : M (Z * Z) :=
  match selectedFiles with
  | [] => mret (successCount, failCount)
  | file :: rest =>
      let inputPath := Path.join [publicDir; file] in
      (match s with
       | overwrite => mret tt
       | new_folder => ensureDir (outputDirPath suffix file)
       end);;
      counts ← try_catch
        (optimizeImage inputPath (outputPath s suffix file) 80;;
         mret (successCount + 1, failCount))
        (λ err, console_log (msg_error err);;
                mret (successCount, failCount + 1));
      batch s suffix rest counts.1 counts.2
  end.

(** Line 53: the scan. *)
Definition scanPattern : jsstring := lit "**/*.{jpg,jpeg,png,gif,svg}".

(** Lines 83 and 95: the folders offered, and the files of the folders
    chosen. *)
Definition folderChoices (imageFiles : list jsstring) : list jsstring :=
  unique (Path.dirname <$> imageFiles).

Definition selectByFolder (imageFiles selectedDirs : list jsstring)
    : list jsstring :=
  filter (λ f, Path.dirname f ∈ selectedDirs) imageFiles.

(** Lines 64-109: step 1, the selection. *)
Definition select (imageFiles : list jsstring) : M (list jsstring) :=
  selectionMode ← prompt p_selectionMode (a_selectionMode (user E));
  match selectionMode with
  | sel_all => mret imageFiles
  | sel_folder =>
      selectedDirs ← checkbox p_selectedDirs (folderChoices imageFiles)
                              (a_selectedDirs (user E));
      mret (selectByFolder imageFiles selectedDirs)
  | sel_file => checkbox p_files imageFiles (a_files (user E))
  end.

(** Lines 114-137: step 2, the strategy and the suffix. *)
Definition chooseStrategy : M (strategy * jsstring) :=
  strategy ← prompt p_strategy (a_strategy (user E));
  match strategy with
  | new_folder =>
      customSuffix ← prompt p_customSuffix (a_customSuffix (user E));
      mret (strategy, customSuffix)
  | overwrite => mret (strategy, lit "_optimized")
  end.

(** Lines 230-238: the summary. *)
Definition report (s : strategy) (successCount failCount : Z) : M unit :=
  console_log msg_complete;;
  console_log (msg_processed successCount);;
  (if failCount >? 0 then console_log (msg_failed failCount) else mret tt);;
  match s with
  | overwrite => console_log msg_overwrite_note
  | new_folder => mret tt
  end.

(** Lines 155-238: step 4, the execution. *)
Definition execute (s : strategy) (suffix : jsstring)
    (selectedFiles : list jsstring) : M unit :=
  counts ← batch s suffix selectedFiles 0 0;
  report s counts.1 counts.2.

(** [async function main()]. *)
Definition main : M unit :=
  console_log msg_banner;;
  found ← existsSync publicDir;
  if negb found then
    console_log msg_public_not_found;; process_exit 1
  else
    console_log (msg_found_public publicDir);;
    imageFiles ← glob_sync scanPattern publicDir;
    if bool_decide (length imageFiles = 0%nat) then
      console_log msg_no_images
    else
      console_log (msg_found (length imageFiles));;
      selectedFiles ← select imageFiles;
      console_log (msg_selected (length selectedFiles));;
      choice ← chooseStrategy;
      confirm ← prompt p_confirm (a_confirm (user E));
      if negb confirm then
        console_log msg_cancelled;; process_exit 0
      else
        execute choice.1 choice.2 selectedFiles.

(** [main().catch(err => { console.error(...); process.exit(1); })]:
    the exit status, if the process ends, and the world it leaves. *)
Definition run (w : world) : option Z * world :=
  match main w with
  | (Ok _, w') => (Some 0, w')
  | (Throw err, w') => (Some 1, World (fs w') (trace w' ++ [Print (msg_fatal err)]))
  | (Exit code, w') => (Some code, w')
  | (Waiting, w') => (None, w')
  end.

End Script.

End Cli.

(** ** Paths as stacks of segments *)

(** A path segment: non-empty and free of separators. *)
Definition segment (s : jsstring) : Prop := s ≠ [] ∧ CHAR_FORWARD_SLASH ∉ s.

(** The value of [dots] once the characters of [s] have been read. *)
Definition dotsOf (s : jsstring) : Z :=
  fold_left (λ d c, if bool_decide (c = CHAR_DOT) && negb (d =? -1) then d + 1 else -1) s 0.

(** What closing the segment [s] does to the segments kept so far, the
    last one first. *)
Definition resolve_step (allowAboveRoot : bool) (stack : list jsstring)
    (s : jsstring) : list jsstring :=
  if bool_decide (s = []) || bool_decide (s = lit ".") then stack
  else if bool_decide (s = lit "..") then
    match stack with
    | top :: rest =>
        if bool_decide (top = lit "..")
        then (if allowAboveRoot then s :: stack else stack)
        else rest
    | [] => if allowAboveRoot then [s] else []
    end
  else s :: stack.

Definition resolve (allowAboveRoot : bool) (stack : list jsstring)
    (segs : list jsstring) : list jsstring :=
  fold_left (resolve_step allowAboveRoot) segs stack.

(** The segments, last one first, written out with separators. *)
Fixpoint render (stack : list jsstring) : jsstring :=
  match stack with
  | [] => []
  | [s] => s
  | s :: rest => render rest ++ CHAR_FORWARD_SLASH :: s
  end.

(** A stack that [resolve] leaves: no segment is ["."], and [".."] stands
    only where nothing could be removed, and only if going above the
    root is allowed. *)
Fixpoint canon (allowAboveRoot : bool) (stack : list jsstring) : Prop :=
  match stack with
  | [] => True
  | s :: rest =>
      segment s ∧ s ≠ lit "." ∧ canon allowAboveRoot rest
      ∧ (s = lit ".." → allowAboveRoot = true ∧ (rest = [] ∨ head rest = Some (lit "..")))
  end.

(** What [normalize] returns for a path that is absolute or not, ends in
    a separator or not, and resolves to [stack]. *)
Definition finish (isAbsolute trailingSeparator : bool) (stack : list jsstring)
    : jsstring :=
  if bool_decide (stack = []) then
    if isAbsolute then lit "/"
    else if trailingSeparator then lit "./" else lit "."
  else
    (if isAbsolute then [CHAR_FORWARD_SLASH] else [])
    ++ render stack
    ++ (if trailingSeparator then [CHAR_FORWARD_SLASH] else []).

Definition isAbsolute (path : jsstring) : bool := codeIs path 0 CHAR_FORWARD_SLASH.
Definition trailingSeparator (path : jsstring) : bool :=
  codeIs path (length path - 1) CHAR_FORWARD_SLASH.

(** A path written out from its segments, first one first. *)
Definition unsplit (segs : list jsstring) : jsstring := render (rev segs).

(** A plain name: a segment other than ["."] and [".."]. *)
Definition plain (s : jsstring) : Prop :=
  segment s ∧ s ≠ lit "." ∧ s ≠ lit "..".

(** [p] is a normalised path without trailing separator: its segments,
    last one first, are [stack]. *)
Definition normal_form (p : jsstring) (abs : bool) (stack : list jsstring) : Prop :=
  p = (if abs then [CHAR_FORWARD_SLASH] else []) ++ render stack
  ∧ stack ≠ [] ∧ canon (negb abs) stack.

(** The extensions of the scan pattern. *)
Definition extensions : list jsstring :=
  [lit "jpg"; lit "jpeg"; lit "png"; lit "gif"; lit "svg"].

(** A name that the scan does not hide. *)
Definition visible (s : jsstring) : Prop := s ≠ [] ∧ startsWithDot s = false.

(** The paths the scan pattern accepts: directories, then a file name
    made of a stem, a dot and one of the extensions, nothing hidden. *)
Definition imagePath (f : jsstring) : Prop :=
  ∃ ds stem e,
    split f = ds ++ [stem ++ CHAR_DOT :: e]
    ∧ Forall (λ d, startsWithDot d = false) ds
    ∧ visible stem ∧ e ∈ extensions.


(** The invariant of the loop of [normalizeString]: [res] is the stack
    written out and [lastSegmentLength] the length of its last segment. *)
Record ninv (st : Path.nstate) (stack : list jsstring) : Prop := NInv {
  ninv_res : Path.res st = render stack;
  ninv_len : Path.lastSegmentLength st = len (default [] (head stack));
  ninv_segs : Forall segment stack
}.

(** An [extname] state with another [preDotState]. *)
Definition esame (st : Path.estate) (p : Z) : Path.estate :=
  Path.EState (Path.startDot st) (Path.e_end st) (Path.e_matchedSlash st) p.

(** The start of a path component: the path begins there, or a separator
    stands before it. *)
Definition boundary (pre : jsstring) : Prop :=
  pre = [] ∨ ∃ pre', pre = pre' ++ [CHAR_FORWARD_SLASH].

(** ** The vocabulary of the properties *)

(** An absolute path as a file system has it: a separator before every
    name, and no name empty. *)
Definition pathOk (p : jsstring) : bool :=
  match split p with
  | [] :: name :: names =>
      forallb (λ s, negb (bool_decide (s = []))) (name :: names)
  | _ => false
  end.

(** A file system whose files all have such paths. *)
Definition wf (σ : Fs.state) : Prop :=
  map_Forall (λ p _, pathOk p = true) (Fs.files σ).

(** What the scan of line 53 returns on the file system [σ]. *)
Definition imageFilesOf (E : Cli.env) (σ : Fs.state) : list jsstring :=
  filter (λ f, Glob.minimatch f Cli.scanPattern = true)
         (Fs.filesBelow (Cli.publicDir E) σ).

(** Line 161: [const inputPath = path.join(publicDir, file)]. *)
Definition inputPath (E : Cli.env) (file : jsstring) : jsstring :=
  Path.join [Cli.publicDir E; file].

(** What the codec writes for [file] as it is on [σ], if anything: the
    bytes must be there, must be encodable, and the output must be
    allowed. *)
Definition encoded (E : Cli.env) (σ : Fs.state) (input output : jsstring)
    : option (list Byte.byte) :=
  bytes ← Fs.files σ !! input;
  out ← Cli.webp E 80 bytes;
  if Cli.denied E output then None else Some out.

Definition converts (E : Cli.env) (σ : Fs.state) (s : Cli.strategy)
    (suffix file : jsstring) : bool :=
  bool_decide (is_Some (encoded E σ (inputPath E file)
                                (Cli.outputPath E s suffix file))).

(** The calls of the conversion worker, the lines printed and the prompts
    shown, in order. *)
Definition optimized (t : list Cli.event) : list (jsstring * jsstring) :=
  omap (λ e, match e with
             | Cli.OptimizeImage i o _ => Some (i, o)
             | _ => None
             end) t.

Definition printed (t : list Cli.event) : list Cli.message :=
  omap (λ e, match e with Cli.Print m => Some m | _ => None end) t.

Definition prompted (t : list Cli.event) : list Cli.promptName :=
  omap (λ e, match e with Cli.Prompt n => Some n | _ => None end) t.

(** [s.toLowerCase()] on ASCII letters. *)
Definition toLowerCase (s : jsstring) : jsstring :=
  (λ c, let n := nat_of_ascii c in
        if (65 <=? n)%nat && (n <=? 90)%nat then ascii_of_nat (n + 32) else c) <$> s.

(** The extensions with their dot, as [extname] returns them. *)
Definition recognized : list jsstring := (λ e, CHAR_DOT :: e) <$> extensions.

(** A path the scan can return from a well-formed file system. *)
Definition scanned (f : jsstring) : Prop :=
  imagePath f ∧ Forall (λ s, s ≠ []) (split f).

(** The prompts read off the answers: what the selection, the strategy and
    the suffix come to. *)
Definition ticked (choices picks : list jsstring) : list jsstring :=
  filter (λ c, c ∈ picks) choices.

Definition selectedFilesOf (E : Cli.env) (imageFiles : list jsstring)
    : option (list jsstring) :=
  match Cli.a_selectionMode (Cli.user E) with
  | Cli.sel_all => Some imageFiles
  | Cli.sel_folder =>
      let dirs := ticked (Cli.folderChoices imageFiles)
                         (Cli.a_selectedDirs (Cli.user E)) in
      if (length dirs <? 1)%nat then None
      else Some (Cli.selectByFolder imageFiles dirs)
  | Cli.sel_file =>
      let files := ticked imageFiles (Cli.a_files (Cli.user E)) in
      if (length files <? 1)%nat then None else Some files
  end.

Definition selectPrompts (E : Cli.env) : list Cli.event :=
  Cli.Prompt Cli.p_selectionMode
  :: match Cli.a_selectionMode (Cli.user E) with
     | Cli.sel_all => []
     | Cli.sel_folder => [Cli.Prompt Cli.p_selectedDirs]
     | Cli.sel_file => [Cli.Prompt Cli.p_files]
     end.

Definition suffixOf (E : Cli.env) : jsstring :=
  match Cli.a_strategy (Cli.user E) with
  | Cli.new_folder => Cli.a_customSuffix (Cli.user E)
  | Cli.overwrite => lit "_optimized"
  end.

Definition strategyPrompts (E : Cli.env) : list Cli.event :=
  Cli.Prompt Cli.p_strategy
  :: match Cli.a_strategy (Cli.user E) with
     | Cli.new_folder => [Cli.Prompt Cli.p_customSuffix]
     | Cli.overwrite => []
     end.

(** What is printed before the scan. *)
Definition preamble (E : Cli.env) : list Cli.event :=
  [Cli.Print Cli.msg_banner; Cli.Print (Cli.msg_found_public (Cli.publicDir E))].

(** ** Example runs

    The project lives in [/app]; the user takes every image and confirms;
    the codec encodes every file that is not empty; the system refuses
    nothing. *)
Module Example.

Definition bytes (s : string) : list Byte.byte := String.list_byte_of_string s.

Definition codec (quality : Z) (input : list Byte.byte)
    : option (list Byte.byte) :=
  match input with
  | [] => None
  | _ => Some (bytes "RIFF" ++ input)
  end.

Definition E (s : Cli.strategy) (suffix : string) : Cli.env :=
  Cli.Env (lit "/app")
          (Cli.Answers Cli.sel_all [] [] s (lit suffix) true)
          codec (λ _, false).

(** Where [p] stands in [l]. *)
Fixpoint position (p : jsstring) (l : list jsstring) : nat :=
  match l with
  | [] => 0
  | x :: l' => if bool_decide (x = p) then 0%nat else S (position p l')
  end.

(** A disk with the given files, which a walk meets in the order in which
    they are listed here. *)
Definition disk (files : list (string * string)) : Fs.state :=
  Fs.State (list_to_map ((λ kv, (lit kv.1, bytes kv.2)) <$> files))
           (list_to_set [lit "/app"; lit "/app/public"; lit "/app/public/images"])
           (λ p, position p ((λ kv, lit kv.1) <$> files)).

Definition start (files : list (string * string)) : Cli.world :=
  Cli.World (disk files) [].

(** A vector image alone. *)
Definition icon : Cli.world := start [("/app/public/icon.svg", "<svg/>")].

(** Two images, and a regular file where the output directory of the
    root would go. *)
Definition blocked : Cli.world :=
  start [("/app/public/logo.png", "PNG");
         ("/app/public/images/hero.jpg", "JPEG");
         ("/app/public/_optimized", "notes")].

(** The two images of the README. *)
Definition readme : Cli.world :=
  start [("/app/public/logo.png", "PNG");
         ("/app/public/images/hero.jpg", "JPEG")].

(** Three images, the second one empty. *)
Definition corrupt : Cli.world :=
  start [("/app/public/a.png", "PNG");
         ("/app/public/b.png", "");
         ("/app/public/images/c.gif", "GIF")].

(** Two images that differ in their extension only. *)
Definition twins : Cli.world :=
  start [("/app/public/a.jpg", "JPEG"); ("/app/public/a.png", "PNG")].

(** An image with an upper-case extension, and a hidden one. *)
Definition shouting : Cli.world :=
  start [("/app/public/PHOTO.JPG", "JPEG"); ("/app/public/.cache/x.png", "PNG")].

(** No folder [public/]: a regular file has the name. *)
Definition nofolder : Cli.world :=
  Cli.World (Fs.State (list_to_map [(lit "/app/public", bytes "notes")])
                      (list_to_set [lit "/app"]) (λ _, 0%nat)) [].

End Example.

(** ** The vocabulary of the loop *)

(** The calls the script makes on the file system and on the codec, and
    the directories it asks for. *)
Definition calls (t : list Cli.event) : list Cli.event :=
  omap (λ e, match e with
             | Cli.EnsureDir _ | Cli.OptimizeImage _ _ _ => Some e
             | _ => None
             end) t.

Definition ensured (t : list Cli.event) : list jsstring :=
  omap (λ e, match e with Cli.EnsureDir d => Some d | _ => None end) t.

(** Lines 205 and 212: the calls made for one file. *)
Definition callsFor (E : Cli.env) (s : Cli.strategy) (suffix file : jsstring)
    : list Cli.event :=
  match s with
  | Cli.new_folder => [Cli.EnsureDir (Cli.outputDirPath E suffix file)]
  | Cli.overwrite => []
  end
  ++ [Cli.OptimizeImage (inputPath E file) (Cli.outputPath E s suffix file) 80].

(** What the loop may leave in the log: a call of the worker with
    quality 80, the error of a failed conversion, and under the
    new-folder strategy a directory asked for. *)
Definition loopEvent (s : Cli.strategy) (e : Cli.event) : Prop :=
  match e with
  | Cli.Print (Cli.msg_error _) => True
  | Cli.Print _ => False
  | Cli.Prompt _ => False
  | Cli.EnsureDir _ => s = Cli.new_folder
  | Cli.OptimizeImage _ _ quality => quality = 80
  end.

(** Nothing stands where [dir] or a directory above it would be made: no
    regular file of [σ], no refusal of the system, and none of the paths
    [outs]. *)
Definition free (E : Cli.env) (σ : Fs.state) (outs : list jsstring)
    (dir : jsstring) : bool :=
  forallb (λ d, negb (bool_decide (is_Some (Fs.files σ !! d)))
                && negb (Cli.denied E d)
                && negb (bool_decide (d ∈ outs)))
          (Fs.ancestors dir).

(** The output directories of [files] can all be made on [σ], also once
    outputs of [files] are written.  The overwrite strategy makes no
    directory. *)
Definition creatable (E : Cli.env) (σ : Fs.state) (s : Cli.strategy)
    (suffix : jsstring) (files : list jsstring) : bool :=
  match s with
  | Cli.overwrite => true
  | Cli.new_folder =>
      forallb (λ g, free E σ (Cli.outputPath E s suffix <$> files)
                         (Cli.outputDirPath E suffix g)) files
  end.

(** The files of [files] that cannot be converted, in order. *)
Definition failing (E : Cli.env) (σ : Fs.state) (s : Cli.strategy)
    (suffix : jsstring) (files : list jsstring) : list jsstring :=
  filter (λ f, converts E σ s suffix f = false) files.

(** The error of a conversion of [file] that failed. *)
Definition failureOf (E : Cli.env) (file err : jsstring) : Prop :=
  ∃ cause, err = lit "Failed to optimize "
                 ++ Path.basename (inputPath E file) [] ++ lit ": " ++ cause.

(** * Properties *)

Import Cli.

#[local] Arguments lit : simpl never.
#[local] Arguments render : simpl never.
#[local] Arguments len : simpl never.
#[local] Arguments slice : simpl never.
#[local] Arguments lastIndexOf : simpl never.

Section strings.
Implicit Types (s a b : jsstring) (c x : ascii).

Lemma len_app a b : len (a ++ b) = len a + len b.
Proof. unfold len. rewrite length_app. lia. Qed.

Lemma len_cons c s : len (c :: s) = 1 + len s.
Proof. unfold len. simpl length. lia. Qed.

Lemma len_nil : len [] = 0.
Proof. done. Qed.

Lemma len_nonneg s : 0 <= len s.
Proof. unfold len. lia. Qed.

Lemma len_zero s : len s = 0 ↔ s = [].
Proof. unfold len. destruct s; simpl; split; intros; try done; lia. Qed.

Lemma codeIs_true s i c : codeIs s i c = true ↔ s !! i = Some c.
Proof. unfold codeIs. by rewrite bool_decide_eq_true. Qed.

Lemma slice_prefix a b : slice (a ++ b) 0 (len a) = a.
Proof.
  unfold slice, len. rewrite Nat2Z.id. change (Z.to_nat 0) with 0%nat.
  rewrite Nat.sub_0_r, drop_0. apply take_app_length.
Qed.

Lemma slice_drop_all s n : slice s (Z.of_nat n) (len s) = drop n s.
Proof.
  unfold slice, len. rewrite !Nat2Z.id.
  apply take_ge. rewrite length_drop. lia.
Qed.

Lemma slice_middle a b d : slice (a ++ b ++ d) (len a) (len a + len b) = b.
Proof.
  unfold slice, len. rewrite <- Nat2Z.inj_add, !Nat2Z.id.
  rewrite drop_app_length.
  replace (length a + length b - length a)%nat with (length b) by lia.
  by rewrite take_app_length.
Qed.

Lemma lastIndexOf_from_notin s i c : c ∉ s → lastIndexOf_from s i c = -1.
Proof.
  revert i. induction s as [|x s IH]; intros i Hc; simpl; [done|].
  apply not_elem_of_cons in Hc as [Hx Hs].
  rewrite IH by done. simpl. rewrite bool_decide_false; congruence.
Qed.

Lemma lastIndexOf_from_app a b i c :
  c ∉ b → lastIndexOf_from (a ++ c :: b) i c = Z.of_nat (i + length a).
Proof.
  intros Hb. revert i. induction a as [|x a IH]; intros i; simpl.
  - rewrite lastIndexOf_from_notin by done. simpl.
    rewrite bool_decide_true by done. f_equal; lia.
  - rewrite IH. destruct (Z.eqb_spec (Z.of_nat (S i + length a)) (-1)); [lia|].
    f_equal; lia.
Qed.

Lemma lastIndexOf_notin s c : c ∉ s → lastIndexOf s c = -1.
Proof. apply lastIndexOf_from_notin. Qed.

Lemma lastIndexOf_app a b c : c ∉ b → lastIndexOf (a ++ c :: b) c = len a.
Proof. intros. unfold lastIndexOf. by rewrite lastIndexOf_from_app. Qed.

End strings.

(** [dots] counts the characters of a segment made of dots only. *)
Lemma dotsOf_snoc s c :
  dotsOf (s ++ [c]) =
  if bool_decide (c = CHAR_DOT) && negb (dotsOf s =? -1) then dotsOf s + 1 else -1.
Proof. unfold dotsOf. by rewrite fold_left_app. Qed.

Lemma dotsOf_spec s :
  dotsOf s = if forallb (λ c, bool_decide (c = CHAR_DOT)) s then len s else -1.
Proof.
  induction s as [|c s IH] using rev_ind; [done|].
  rewrite dotsOf_snoc, forallb_app, IH. simpl. rewrite len_app.
  destruct (forallb _ s); simpl.
  - pose proof (len_nonneg s).
    destruct (Z.eqb_spec (len s) (-1)); [lia|]. simpl.
    rewrite andb_true_r. by destruct (bool_decide _).
  - by rewrite andb_false_r.
Qed.

Lemma dotsOf_1 s : dotsOf s = 1 ↔ s = lit ".".
Proof.
  rewrite dotsOf_spec. split.
  - destruct s as [|c [|c' s]]; simpl; try done.
    + unfold len; simpl. case_bool_decide; simpl; [by subst|done].
    + destruct (_ && _); unfold len; simpl; lia.
  - by intros ->.
Qed.

Lemma dotsOf_2 s : dotsOf s = 2 ↔ s = lit "..".
Proof.
  rewrite dotsOf_spec. split.
  - destruct s as [|c [|c' [|c'' s]]]; simpl; try done.
    + unfold len; simpl. destruct (bool_decide _); simpl; lia.
    + unfold len; simpl. repeat case_bool_decide; simpl; intros; subst; done.
    + destruct (_ && _); unfold len; simpl; lia.
  - by intros ->.
Qed.

(** ** [render] *)
Lemma render_cons s rest :
  rest ≠ [] → render (s :: rest) = render rest ++ CHAR_FORWARD_SLASH :: s.
Proof. by destruct rest. Qed.

Lemma render_nonempty stack :
  Forall segment stack → stack ≠ [] → render stack ≠ [].
Proof.
  destruct stack as [|s rest]; [done|]. intros Hs _.
  apply Forall_cons in Hs as [[Hne _] _].
  destruct rest as [|s' rest]; [done|]. rewrite render_cons by done.
  by intros [_ ?]%app_eq_nil.
Qed.

Lemma render_len_pos stack :
  Forall segment stack → stack ≠ [] → 0 < len (render stack).
Proof.
  intros H1 H2. pose proof (render_nonempty _ H1 H2) as H.
  pose proof (len_nonneg (render stack)). rewrite <- len_zero in H. lia.
Qed.

Lemma render_empty_iff stack :
  Forall segment stack → (len (render stack) >? 0) = negb (bool_decide (stack = [])).
Proof.
  intros Hs. destruct stack as [|s rest]; [done|].
  rewrite bool_decide_false by done. simpl negb.
  pose proof (render_len_pos (s :: rest) Hs ltac:(done)). by apply Z.gtb_lt.
Qed.

Lemma render_top_len rest :
  Forall segment rest →
  len (render rest) - 1 - lastIndexOf (render rest) CHAR_FORWARD_SLASH
  = len (default [] (head rest)).
Proof.
  intros Hs. destruct rest as [|x [|y rest]]; [done|..].
  - apply Forall_cons in Hs as [[_ Hx] _]. change (render [x]) with x.
    rewrite lastIndexOf_notin by done. simpl. lia.
  - apply Forall_cons in Hs as [[_ Hx] _].
    rewrite render_cons by done. rewrite lastIndexOf_app by done.
    rewrite len_app, len_cons. simpl head. simpl default. lia.
Qed.

Lemma render_short top rest :
  Forall segment (top :: rest) → len (render (top :: rest)) <= 2 → rest = [].
Proof.
  intros Hs Hlen. destruct rest as [|x rest]; [done|]. exfalso.
  rewrite render_cons in Hlen by done.
  apply Forall_cons in Hs as [[Htop _] Hs].
  pose proof (render_len_pos (x :: rest) Hs ltac:(done)).
  rewrite len_app, len_cons in Hlen.
  destruct top; [done|]. rewrite len_cons in Hlen. pose proof (len_nonneg top). lia.
Qed.

(** The test that guards the removal of the last segment is [top !== '..']. *)
Lemma dotdot_guard top rest :
  let r := render (top :: rest) in
  (len r <? 2) || negb (len top =? 2)
  || negb (codeIs r (length r - 1) CHAR_DOT)
  || negb (codeIs r (length r - 2) CHAR_DOT)
  = negb (bool_decide (top = lit "..")).
Proof.
  intros r.
  assert (∃ pre, r = pre ++ top) as [pre Hr].
  { unfold r. destruct rest as [|x rest]; [by exists []|].
    rewrite render_cons by done. eexists (_ ++ [_]). by rewrite <- app_assoc. }
  destruct (Z.eqb_spec (len top) 2) as [Hl|Hl]; simpl.
  - destruct top as [|a [|b [|c top]]]; try (unfold len in Hl; simpl in Hl; lia).
    rewrite Hr. unfold len, codeIs. rewrite length_app. simpl length.
    replace (length pre + 2 - 1)%nat with (length pre + 1)%nat by lia.
    replace (length pre + 2 - 2)%nat with (length pre + 0)%nat by lia.
    rewrite !lookup_app_r by lia.
    replace (length pre + 1 - length pre)%nat with 1%nat by lia.
    replace (length pre + 0 - length pre)%nat with 0%nat by lia.
    simpl. destruct (Z.ltb_spec (Z.of_nat (length pre + 2)) 2); [lia|]. simpl.
    unfold CHAR_DOT.
    cbv [lit String.list_ascii_of_string].
    repeat case_bool_decide; simpl; try done; simplify_eq.
  - rewrite orb_true_r. simpl. rewrite bool_decide_false; [done|].
    intros ->. by apply Hl.
Qed.

Lemma on_separator_spec allow st stack :
  ninv st stack →
  Path.dots st = dotsOf (Path.seg st) →
  CHAR_FORWARD_SLASH ∉ Path.seg st →
  ninv (Path.on_separator allow st) (resolve_step allow stack (Path.seg st))
  ∧ Path.seg (Path.on_separator allow st) = []
  ∧ Path.dots (Path.on_separator allow st) = 0.
Proof.
  intros [Hres Hlen Hsegs] Hdots Hslash.
  unfold Path.on_separator, resolve_step.
  case_bool_decide as Hnil; simpl.
  { by split; [split|]. }
  destruct (Z.eqb_spec (Path.dots st) 1) as [H1|H1]; simpl.
  { rewrite Hdots in H1. apply dotsOf_1 in H1. rewrite bool_decide_true by done.
    by split; [split|]. }
  rewrite bool_decide_false by (by rewrite <- dotsOf_1, <- Hdots).
  destruct (Z.eqb_spec (Path.dots st) 2) as [H2|H2].
  - rewrite Hdots in H2. apply dotsOf_2 in H2. rewrite bool_decide_true by done.
    rewrite Hres, Hlen.
    destruct stack as [|top rest].
    + simpl. destruct allow; simpl.
      * split; [split|done]; simpl; try done.
        -- by rewrite H2.
        -- rewrite H2. repeat constructor; try done.
           unfold CHAR_FORWARD_SLASH. set_solver.
      * by split; [split|].
    + simpl head. simpl default.
      rewrite (dotdot_guard top rest).
      case_bool_decide as Htop; simpl negb; cbv iota.
      * destruct allow.
        -- rewrite render_empty_iff by done. rewrite bool_decide_false by done.
           simpl negb. cbv iota.
           split; [split|done]; simpl Path.res; simpl Path.lastSegmentLength.
           ++ rewrite H2. by rewrite (render_cons (lit "..") (top :: rest)).
           ++ by rewrite H2.
           ++ constructor; [|done]. rewrite H2. split; [done|].
              unfold CHAR_FORWARD_SLASH. set_solver.
        -- by split; [split|].
      * apply Forall_cons in Hsegs as Hs2. destruct Hs2 as [[Hne Htopslash] Hrest].
        destruct (Z.gtb_spec (len (render (top :: rest))) 2) as [Hgt|Hle].
        -- destruct rest as [|x rest].
           ++ simpl render. rewrite lastIndexOf_notin by done. simpl.
              by split; [split|].
           ++ rewrite render_cons by done. rewrite lastIndexOf_app by done.
              pose proof (len_nonneg (render (x :: rest))).
              destruct (Z.eqb_spec (len (render (x :: rest))) (-1)); [lia|].
              rewrite slice_prefix.
              split; [split|done]; simpl Path.res; simpl Path.lastSegmentLength; try done.
              by rewrite render_top_len.
        -- assert (rest = []) as -> by (by eapply render_short).
           pose proof (render_len_pos [top] Hsegs ltac:(done)).
           destruct (Z.eqb_spec (len (render [top])) 0); [lia|]. simpl.
           by split; [split|].
  - rewrite bool_decide_false by (by rewrite <- dotsOf_2, <- Hdots).
    rewrite Hres. rewrite render_empty_iff by done.
    split; [split|done]; simpl Path.res; simpl Path.lastSegmentLength.
    + destruct stack as [|top rest]; [done|].
      rewrite bool_decide_false by done. simpl negb. cbv iota.
      by rewrite (render_cons (Path.seg st) (top :: rest)).
    + done.
    + by constructor.
Qed.

(** ** [split] *)
Lemma split_from_app cur a b :
  split_from cur (a ++ CHAR_FORWARD_SLASH :: b) = split_from cur a ++ split b.
Proof.
  revert cur. induction a as [|c a IH]; intros cur; simpl.
  - rewrite ?bool_decide_true by done. done.
  - case_bool_decide; simpl; by rewrite IH.
Qed.

Lemma split_app a b : split (a ++ CHAR_FORWARD_SLASH :: b) = split a ++ split b.
Proof. apply split_from_app. Qed.

Lemma split_from_plain cur s :
  CHAR_FORWARD_SLASH ∉ s → split_from cur s = [cur ++ s].
Proof.
  revert cur. induction s as [|c s IH]; intros cur Hs; simpl.
  - by rewrite app_nil_r.
  - apply not_elem_of_cons in Hs as [Hc Hs].
    rewrite bool_decide_false by done. rewrite IH by done.
    by rewrite <- app_assoc.
Qed.

Lemma split_plain s : CHAR_FORWARD_SLASH ∉ s → split s = [s].
Proof. apply split_from_plain. Qed.

Lemma split_from_slashfree cur s :
  CHAR_FORWARD_SLASH ∉ cur →
  Forall (λ x, CHAR_FORWARD_SLASH ∉ x) (split_from cur s).
Proof.
  revert cur. induction s as [|c s IH]; intros cur Hcur; simpl.
  - by constructor.
  - case_bool_decide.
    + constructor; [done|]. apply IH. set_solver.
    + apply IH. set_solver.
Qed.

Lemma split_slashfree s : Forall (λ x, CHAR_FORWARD_SLASH ∉ x) (split s).
Proof. apply split_from_slashfree. set_solver. Qed.

Lemma split_from_nonnil cur s : split_from cur s ≠ [].
Proof. revert cur. induction s; intros; simpl; [done|]. by case_bool_decide. Qed.

(** ** The loop of [normalizeString] closes one segment after the other *)
Lemma nloop_spec allow path : ∀ st stack b,
  ninv st stack →
  Path.dots st = dotsOf (Path.seg st) →
  CHAR_FORWARD_SLASH ∉ Path.seg st →
  (b = true → Path.seg st = []) →
  ninv (Path.nloop allow st path b)
       (resolve allow stack (split_from (Path.seg st) path)).
Proof.
  induction path as [|c path IH]; intros st stack b Hinv Hdots Hslash Hb.
  - simpl. destruct b.
    + rewrite Hb by done. unfold resolve_step. by rewrite bool_decide_true.
    + by apply on_separator_spec.
  - simpl. unfold Path.nstep. case_bool_decide as Hc.
    + destruct (on_separator_spec allow st stack) as (Hinv' & Hseg' & Hdots'); try done.
      specialize (IH (Path.on_separator allow st) _ true Hinv').
      rewrite Hseg' in IH. apply IH; [by rewrite Hdots'|set_solver|done].
    + set (st' := if _ && _ then _ else _).
      assert (Path.seg st' = Path.seg st ++ [c]
              ∧ Path.res st' = Path.res st
              ∧ Path.lastSegmentLength st' = Path.lastSegmentLength st
              ∧ Path.dots st' = dotsOf (Path.seg st ++ [c])) as (Hs & Hr & Hl & Hd).
      { rewrite dotsOf_snoc, <- Hdots. unfold st'. by destruct (_ && _). }
      specialize (IH st' stack false). rewrite Hs in IH. apply IH.
      * destruct Hinv. split; congruence.
      * by rewrite Hd.
      * set_solver.
      * done.
Qed.

Lemma normalizeString_spec path allow :
  Path.normalizeString path allow = render (resolve allow [] (split path)).
Proof.
  unfold Path.normalizeString.
  assert (ninv Path.nstate0 []) as Hinv by (by split).
  destruct (nloop_spec allow path Path.nstate0 [] false Hinv) as [-> _ _];
    [done|apply not_elem_of_nil|done|done].
Qed.

Lemma resolve_app allow stack a b :
  resolve allow stack (a ++ b) = resolve allow (resolve allow stack a) b.
Proof. apply fold_left_app. Qed.

Lemma resolve_cons allow stack s segs :
  resolve allow stack (s :: segs) = resolve allow (resolve_step allow stack s) segs.
Proof. done. Qed.

Lemma segment_dotdot : segment (lit "..").
Proof. split; [done|]. cbv [lit String.list_ascii_of_string CHAR_FORWARD_SLASH]. set_solver. Qed.

Lemma resolve_step_canon allow stack s :
  CHAR_FORWARD_SLASH ∉ s → canon allow stack → canon allow (resolve_step allow stack s).
Proof.
  intros Hs Hc. unfold resolve_step.
  case_bool_decide as H0; [done|]. case_bool_decide as H1; [done|]. simpl.
  case_bool_decide as H2.
  - destruct stack as [|top rest].
    + destruct allow; [|done]. subst s. simpl.
      (split; [apply segment_dotdot|]); (split; [done|]); (split; [done|]); auto.
    + case_bool_decide as Ht.
      * destruct allow; [|done]. subst s top. simpl in *.
        (split; [apply segment_dotdot|]); (split; [done|]); (split; [done|]); auto.
      * by destruct Hc as (_ & _ & Hc & _).
  - simpl. (split; [done|]); (split; [done|]); (split; [done|]); done.
Qed.

Lemma resolve_canon allow stack segs :
  Forall (λ x, CHAR_FORWARD_SLASH ∉ x) segs → canon allow stack →
  canon allow (resolve allow stack segs).
Proof.
  intros Hs. revert stack. induction Hs as [|s segs Hs _ IH]; intros stack Hc; [done|].
  rewrite resolve_cons. apply IH. by apply resolve_step_canon.
Qed.

Lemma canon_segments allow stack : canon allow stack → Forall segment stack.
Proof.
  induction stack as [|s rest IH]; [constructor|].
  intros (H1 & _ & H2 & _). constructor; auto.
Qed.

(** Resolving what has been resolved changes nothing. *)
Lemma resolve_rev_canon allow stack :
  canon allow stack → resolve allow [] (rev stack) = stack.
Proof.
  induction stack as [|s rest IH]; [done|].
  intros ([Hne Hsl] & Hdot & Hrest & Hdd). simpl rev.
  rewrite resolve_app, IH by done. simpl. unfold resolve_step.
  rewrite !bool_decide_false by done. simpl.
  case_bool_decide as H2; [|done].
  destruct (Hdd H2) as [-> [->|Hh]]; [done|].
  destruct rest as [|top rest]; [done|]. simpl in Hh. simplify_eq.
  by rewrite bool_decide_true.
Qed.

Lemma split_render stack :
  Forall segment stack → stack ≠ [] → split (render stack) = rev stack.
Proof.
  induction stack as [|s rest IH]; [done|]. intros Hs _.
  apply Forall_cons in Hs as [[_ Hs] Hrest].
  destruct rest as [|x rest].
  - change (render [s]) with s. by rewrite split_plain.
  - rewrite render_cons by done. rewrite split_app, IH by done.
    by rewrite split_plain.
Qed.

Lemma render_nil_iff stack :
  Forall segment stack → bool_decide (render stack = []) = bool_decide (stack = []).
Proof.
  intros Hs. destruct stack as [|s rest]; [done|].
  rewrite !bool_decide_false; [done|done|]. by apply render_nonempty.
Qed.

(** [normalize], read on segments. *)
Lemma normalize_spec path :
  path ≠ [] →
  Path.normalize path =
  finish (isAbsolute path) (trailingSeparator path)
         (resolve (negb (isAbsolute path)) [] (split path)).
Proof.
  intros Hne. unfold Path.normalize, finish. rewrite bool_decide_false by done.
  fold (isAbsolute path) (trailingSeparator path).
  rewrite normalizeString_spec.
  set (S := resolve _ _ _).
  assert (Forall segment S) as HS.
  { eapply canon_segments, resolve_canon; [apply split_slashfree|done]. }
  rewrite render_nil_iff by done.
  case_bool_decide; [done|].
  destruct (isAbsolute path), (trailingSeparator path); simpl;
    by rewrite ?app_nil_r.
Qed.

Lemma isAbsolute_app a b : a ≠ [] → isAbsolute (a ++ b) = isAbsolute a.
Proof. by destruct a. Qed.

Lemma trailingSeparator_app a c y :
  trailingSeparator (a ++ c :: y) = trailingSeparator (c :: y).
Proof.
  unfold trailingSeparator, codeIs. rewrite length_app. simpl length.
  rewrite lookup_app_r by lia.
  by replace (length a + S (length y) - 1 - length a)%nat
    with (S (length y) - 1)%nat by lia.
Qed.

Lemma render_head stack z :
  Forall segment stack → stack ≠ [] →
  ∃ c r, c ≠ CHAR_FORWARD_SLASH ∧ render stack ++ z = c :: r.
Proof.
  induction stack as [|s rest IH] in z |- *; [done|]. intros Hs _.
  apply Forall_cons in Hs as [[Hne Hsl] Hrest].
  destruct rest as [|x rest].
  - change (render [s]) with s. destruct s as [|c s]; [done|].
    exists c, (s ++ z). split; [|done]. set_solver.
  - rewrite render_cons by done. rewrite <- app_assoc. by apply IH.
Qed.

Lemma finish_head abs tr stack :
  Forall segment stack →
  finish abs tr stack ≠ [] ∧ isAbsolute (finish abs tr stack) = abs.
Proof.
  intros Hs. unfold finish. case_bool_decide as H.
  - by destruct abs, tr.
  - destruct abs; [done|].
    destruct (render_head stack (if tr then [CHAR_FORWARD_SLASH] else []) Hs H)
      as (c & r & Hc & Hr).
    simpl. rewrite Hr. split; [done|].
    unfold isAbsolute, codeIs. simpl. rewrite bool_decide_false; congruence.
Qed.

Lemma split_nil : split [] = [[]].
Proof. done. Qed.

Lemma resolve_skip_empty allow stack segs :
  resolve allow stack ([] :: segs) = resolve allow stack segs.
Proof. done. Qed.

Lemma resolve_skip_dot allow stack segs :
  resolve allow stack (lit "." :: segs) = resolve allow stack segs.
Proof. done. Qed.

(** Splitting and resolving the result of [normalize] gives back the stack. *)
Lemma resolve_finish allow abs tr stack :
  canon allow stack →
  resolve allow [] (split (finish abs tr stack)) = stack.
Proof.
  intros Hc. pose proof (canon_segments _ _ Hc) as Hs.
  unfold finish. case_bool_decide as H.
  - subst. by destruct abs, tr.
  - assert (split (render stack ++ (if tr then [CHAR_FORWARD_SLASH] else []))
            = rev stack ++ (if tr then [[]] else [])) as Htail.
    { destruct tr.
      - by rewrite split_app, split_render.
      - by rewrite !app_nil_r, split_render. }
    assert (resolve allow [] (rev stack ++ (if tr then [[]] else [])) = stack) as Hres.
    { rewrite resolve_app, resolve_rev_canon by done. by destruct tr. }
    destruct abs.
    + change ([CHAR_FORWARD_SLASH] ++ ?x) with ([] ++ CHAR_FORWARD_SLASH :: x).
      rewrite split_app, Htail. by rewrite split_nil.
    + simpl. by rewrite Htail.
Qed.

(** The segments of a joined path are resolved from left to right:
    normalising the left part first changes nothing. *)
Lemma normalize_join x y :
  x ≠ [] →
  Path.normalize (Path.normalize x ++ CHAR_FORWARD_SLASH :: y)
  = Path.normalize (x ++ CHAR_FORWARD_SLASH :: y).
Proof.
  intros Hx.
  assert (canon (negb (isAbsolute x)) (resolve (negb (isAbsolute x)) [] (split x))) as Hc.
  { apply resolve_canon; [apply split_slashfree|done]. }
  pose proof (finish_head (isAbsolute x) (trailingSeparator x) _ (canon_segments _ _ Hc))
    as [Hne Habs].
  rewrite (normalize_spec x) by done.
  rewrite !normalize_spec by (by intros [? _]%app_eq_nil).
  rewrite !isAbsolute_app, Habs by done.
  rewrite !trailingSeparator_app.
  rewrite !split_app, !resolve_app.
  by rewrite resolve_finish.
Qed.

Lemma codeIs_middle l c r x :
  codeIs (l ++ c :: r) (length l) x = bool_decide (c = x).
Proof.
  unfold codeIs. rewrite list_lookup_middle by done.
  apply bool_decide_ext. split; congruence.
Qed.

Lemma codeIs_false s i c : s !! i ≠ Some c → codeIs s i c = false.
Proof. intros. unfold codeIs. by rewrite bool_decide_false. Qed.

Lemma codeIs_notin s i c : c ∉ s → codeIs s i c = false.
Proof. intros Hs. apply codeIs_false. by intros H%list_elem_of_lookup_2. Qed.

(** ** [dirname] *)

(** The loop walks back over the characters that are no separator. *)
Lemma dirname_loop_skip path lo k ms :
  (∀ j, (lo < j ≤ lo + k)%nat → path !! j ≠ Some CHAR_FORWARD_SLASH) →
  Path.dirname_loop path (lo + k) ms
  = Path.dirname_loop path lo (if decide (k = 0%nat) then ms else false).
Proof.
  revert ms. induction k as [|k IH]; intros ms Hj.
  - by rewrite Nat.add_0_r.
  - replace (lo + S k)%nat with (S (lo + k)) by lia. simpl.
    rewrite codeIs_false by (apply Hj; lia).
    rewrite IH by (intros; apply Hj; lia). by destruct (decide (k = 0%nat)).
Qed.

Lemma dirname_plain f : CHAR_FORWARD_SLASH ∉ f → Path.dirname f = lit ".".
Proof.
  intros Hf. unfold Path.dirname. case_bool_decide; [done|].
  pose proof (dirname_loop_skip f 0 (length f - 1) true) as Hskip.
  rewrite Nat.add_0_l in Hskip. rewrite Hskip.
  - simpl. by rewrite codeIs_notin.
  - intros j _ Hl%list_elem_of_lookup_2. done.
Qed.

Lemma dirname_split d name :
  d ≠ [] → d ≠ lit "/" → name ≠ [] → CHAR_FORWARD_SLASH ∉ name →
  Path.dirname (d ++ CHAR_FORWARD_SLASH :: name) = d.
Proof.
  intros Hd Hroot Hn Hname. unfold Path.dirname.
  rewrite bool_decide_false by (by destruct d).
  assert (Path.dirname_loop (d ++ CHAR_FORWARD_SLASH :: name)
            (length (d ++ CHAR_FORWARD_SLASH :: name) - 1) true = len d) as ->.
  { rewrite length_app. simpl length.
    replace (length d + S (length name) - 1)%nat
      with (length d + length name)%nat by lia.
    rewrite dirname_loop_skip.
    - destruct (decide (length name = 0%nat)) as [H0|_];
        [by destruct name|].
      destruct (length d) as [|n] eqn:Hl; [by destruct d|].
      simpl. rewrite <- Hl, codeIs_middle, bool_decide_true by done.
      unfold len. by rewrite Hl.
    - intros j Hj. rewrite lookup_app_r by lia.
      destruct (j - length d)%nat as [|m] eqn:Hm; [lia|]. simpl.
      intros Hl%list_elem_of_lookup_2. done. }
  pose proof (len_nonneg d).
  destruct (Z.eqb_spec (len d) (-1)); [lia|].
  destruct (Z.eqb_spec (len d) 1) as [H1|H1].
  - destruct d as [|c [|c' d]]; [done| |rewrite !len_cons in H1; pose proof (len_nonneg d); lia].
    unfold codeIs. simpl. case_bool_decide as Hc; simpl.
    + by simplify_eq.
    + apply (slice_prefix [c]).
  - rewrite andb_false_r. apply slice_prefix.
Qed.

(** ** [extname] *)


(** Over characters that are neither separator nor dot, before any dot
    was seen, nothing changes once [end] is set. *)
Lemma extname_loop_tail path lo k st :
  (∀ j, (lo ≤ j < lo + k)%nat →
        path !! j ≠ Some CHAR_FORWARD_SLASH ∧ path !! j ≠ Some CHAR_DOT) →
  Path.startDot st = -1 → Path.e_end st ≠ -1 →
  Path.extname_loop path (lo + k) st = Path.extname_loop path lo st.
Proof.
  intros Hj Hsd Hend. induction k as [|k IH].
  - by rewrite Nat.add_0_r.
  - replace (lo + S k)%nat with (S (lo + k)) by lia. simpl.
    destruct (Hj (lo + k)%nat) as [H1 H2]; [lia|].
    rewrite !codeIs_false by done.
    destruct (Z.eqb_spec (Path.e_end st) (-1)); [done|].
    rewrite Hsd. simpl. apply IH. intros; apply Hj; lia.
Qed.

Lemma extname_loop_ext path lo k ms p :
  (∀ j, (lo ≤ j < lo + k)%nat →
        path !! j ≠ Some CHAR_FORWARD_SLASH ∧ path !! j ≠ Some CHAR_DOT) →
  k ≠ 0%nat →
  Path.extname_loop path (lo + k) (Path.EState (-1) (-1) ms p)
  = Path.extname_loop path lo (Path.EState (-1) (Z.of_nat (lo + k)) false p).
Proof.
  intros Hj Hk. destruct k as [|k]; [done|].
  replace (lo + S k)%nat with (S (lo + k)) by lia. simpl.
  destruct (Hj (lo + k)%nat) as [H1 H2]; [lia|].
  rewrite !codeIs_false by done. simpl.
  replace (Z.of_nat (lo + k) + 1) with (Z.of_nat (S (lo + k))) by lia.
  apply extname_loop_tail; [intros; apply Hj; lia|done|simpl; lia].
Qed.

(** Over the characters before the dot, up to the separator, only
    [preDotState] moves, and it leaves [0]. *)
Lemma extname_loop_stem path lo k st :
  (∀ j, (lo ≤ j < lo + k)%nat → path !! j ≠ Some CHAR_FORWARD_SLASH) →
  Path.startDot st ≠ -1 → Path.e_end st ≠ -1 →
  ∃ p, Path.extname_loop path (lo + k) st = Path.extname_loop path lo (esame st p)
       ∧ (k ≠ 0%nat ∨ Path.preDotState st ≠ 0 → p ≠ 0).
Proof.
  revert st. induction k as [|k IH]; intros st Hj Hsd Hend.
  - exists (Path.preDotState st). rewrite Nat.add_0_r. destruct st. split; [done|].
    intros [|]; done.
  - replace (lo + S k)%nat with (S (lo + k)) by lia. simpl.
    rewrite codeIs_false by (apply Hj; lia).
    destruct (Z.eqb_spec (Path.e_end st) (-1)); [done|].
    destruct (Z.eqb_spec (Path.startDot st) (-1)); [done|]. simpl.
    set (st' := if codeIs _ _ _ then _ else _).
    assert (∃ p', st' = esame st p' ∧ p' ≠ 0) as (p' & -> & Hp').
    { unfold st'. destruct (codeIs _ _ _).
      - destruct (Z.eqb_spec (Path.preDotState st) 1) as [E|E]; simpl.
        + exists 1. split; [|done]. destruct st; simpl in *. by rewrite E.
        + by exists 1.
      - by exists (-1). }
    destruct (IH (esame st p')) as (p & Hp & Hp0); [intros; apply Hj; lia|done..|].
    exists p. split; [done|]. intros _. apply Hp0. by right.
Qed.

Lemma lookup_notin (s : jsstring) i c : c ∉ s → s !! i ≠ Some c.
Proof. by intros Hs H%list_elem_of_lookup_2. Qed.


Lemma extname_split pre stem e :
  boundary pre → stem ≠ [] → CHAR_FORWARD_SLASH ∉ stem →
  e ≠ [] → CHAR_FORWARD_SLASH ∉ e → CHAR_DOT ∉ e →
  Path.extname (pre ++ stem ++ CHAR_DOT :: e) = CHAR_DOT :: e.
Proof.
  intros Hpre Hstem Hs He Hes Hed.
  set (path := pre ++ stem ++ CHAR_DOT :: e).
  set (lo := (length pre + length stem)%nat).
  assert (length path = (S lo + length e)%nat) as Hlen.
  { unfold path, lo. rewrite !length_app. simpl. lia. }
  assert (path !! lo = Some CHAR_DOT) as Hdot.
  { unfold path, lo. rewrite app_assoc. apply list_lookup_middle.
    by rewrite length_app. }
  unfold Path.extname. rewrite Hlen.
  rewrite extname_loop_ext; cycle 1.
  { intros j Hj. unfold path. rewrite app_assoc.
    rewrite lookup_app_r by (rewrite length_app; unfold lo in Hj; lia).
    rewrite length_app. fold lo.
    destruct (j - lo)%nat as [|m] eqn:Hm; [lia|]. simpl.
    split; by apply lookup_notin. }
  { by destruct e. }
  change (S lo + length e)%nat with (S (lo + length e)).
  set (n0 := Z.of_nat (S (lo + length e))).
  assert (n0 = len path) as Hn0 by (unfold n0, len; lia).
  assert (n0 ≠ -1 ∧ Z.of_nat lo ≠ n0 - 1) as [Hn1 Hn2].
  { unfold n0. destruct e; [done|]. simpl length. lia. }
  clearbody n0.
  simpl Path.extname_loop. rewrite codeIs_false by (rewrite Hdot; done).
  simpl. unfold codeIs at 1. rewrite bool_decide_true by done.
  destruct (Z.eqb_spec n0 (-1)); [done|]. simpl.
  destruct (extname_loop_stem path (length pre) (length stem)
              (Path.EState (Z.of_nat lo) n0 false 0))
    as (p & Hp & Hp0).
  { intros j Hj. unfold path. rewrite lookup_app_r by lia.
    rewrite lookup_app_l by lia. by apply lookup_notin. }
  { simpl. lia. }
  { done. }
  fold lo in Hp. rewrite Hp. unfold esame. simpl.
  assert (p ≠ 0) as Hpne by (apply Hp0; left; by destruct stem).
  assert (∃ sp, Path.extname_loop path (length pre)
             (Path.EState (Z.of_nat lo) n0 false p)
           = (sp, Path.EState (Z.of_nat lo) n0 false p))
    as [sp ->].
  { destruct Hpre as [->|[pre' ->]]; [by eexists|].
    rewrite length_app. simpl length.
    replace (length pre' + 1)%nat with (S (length pre')) by lia. simpl.
    unfold path. rewrite <- app_assoc. simpl app.
    rewrite codeIs_middle, bool_decide_true by done. by eexists. }
  simpl.
  destruct (Z.eqb_spec (Z.of_nat lo) (-1)); [lia|].
  destruct (Z.eqb_spec n0 (-1)); [done|].
  destruct (Z.eqb_spec p 0); [done|].
  destruct (Z.eqb_spec (Z.of_nat lo) (n0 - 1)) as [E|E]; [done|].
  rewrite andb_false_r. simpl. rewrite Hn0.
  rewrite slice_drop_all. unfold path, lo.
  rewrite app_assoc, <- length_app. by rewrite drop_app_length.
Qed.

(** ** [basename] *)

(** Walking back over the suffix, character by character, until it is
    matched in full: [end] is then where it starts. *)
Lemma basename_loop_suffix path suffix lo k ms fnse :
  (∀ j, (j < k)%nat →
        path !! (lo + j)%nat ≠ Some CHAR_FORWARD_SLASH
        ∧ path !! (lo + j)%nat = suffix !! j) →
  k ≠ 0%nat →
  Path.basename_suffix_loop path suffix (lo + k)
    (Path.BState (-1) ms (Z.of_nat k - 1) fnse)
  = Path.basename_suffix_loop path suffix lo
      (Path.BState (Z.of_nat lo) (if fnse =? -1 then false else ms) (-1)
                   (if fnse =? -1 then Z.of_nat (lo + k) else fnse)).
Proof.
  revert ms fnse. induction k as [|k IH]; intros ms fnse Hj Hk; [done|].
  replace (lo + S k)%nat with (S (lo + k)) by lia. simpl Path.basename_suffix_loop.
  destruct (Hj k) as [Hs Hm]; [lia|].
  rewrite codeIs_false by done.
  set (st1 := if fnse =? -1 then _ else _).
  assert (st1 = Path.BState (-1) (if fnse =? -1 then false else ms)
                  (Z.of_nat (S k) - 1)
                  (if fnse =? -1 then Z.of_nat (S (lo + k)) else fnse)) as ->.
  { unfold st1. simpl. destruct (fnse =? -1); [|done]. do 2 f_equal; lia. }
  simpl Path.extIdx. simpl Path.b_end. simpl Path.b_matchedSlash.
  simpl Path.firstNonSlashEnd.
  destruct (Z.geb_spec (Z.of_nat (S k) - 1) 0) as [_|?]; [|lia].
  replace (Z.to_nat (Z.of_nat (S k) - 1)) with k by lia.
  rewrite bool_decide_true by done.
  destruct (Z.eqb_spec (Z.of_nat (S k) - 1 - 1) (-1)) as [E|E].
  - assert (k = 0%nat) as -> by lia. by rewrite Nat.add_0_r.
  - replace (Z.of_nat (S k) - 1 - 1) with (Z.of_nat k - 1) by lia.
    rewrite IH; [|intros; apply Hj; lia|lia].
    destruct (Z.eqb_spec fnse (-1)) as [->|Hf].
    + destruct (Z.eqb_spec (Z.of_nat (S (lo + k))) (-1)); [lia|]. done.
    + destruct (Z.eqb_spec fnse (-1)); done.
Qed.

(** Over the characters before the suffix nothing changes. *)
Lemma basename_loop_stem path suffix lo k st :
  (∀ j, (lo ≤ j < lo + k)%nat → path !! j ≠ Some CHAR_FORWARD_SLASH) →
  Path.extIdx st = -1 → Path.firstNonSlashEnd st ≠ -1 →
  Path.basename_suffix_loop path suffix (lo + k) st
  = Path.basename_suffix_loop path suffix lo st.
Proof.
  intros Hj Hx Hf. induction k as [|k IH].
  - by rewrite Nat.add_0_r.
  - replace (lo + S k)%nat with (S (lo + k)) by lia. simpl.
    rewrite codeIs_false by (apply Hj; lia).
    destruct (Z.eqb_spec (Path.firstNonSlashEnd st) (-1)); [done|].
    rewrite Hx. simpl. apply IH. intros; apply Hj; lia.
Qed.

Lemma basename_split pre stem ext :
  boundary pre → stem ≠ [] → CHAR_FORWARD_SLASH ∉ stem →
  ext ≠ [] → CHAR_FORWARD_SLASH ∉ ext →
  Path.basename (pre ++ stem ++ ext) ext = stem.
Proof.
  intros Hpre Hstem Hs Hext Hes.
  set (path := pre ++ stem ++ ext).
  set (lo := (length pre + length stem)%nat).
  assert (length path = (lo + length ext)%nat) as Hlen.
  { unfold path, lo. rewrite !length_app. lia. }
  assert (length stem ≠ 0%nat) as Hstem' by (by destruct stem).
  assert (length ext ≠ 0%nat) as Hext' by (by destruct ext).
  unfold Path.basename.
  assert ((0 <? len ext) && (len ext <=? len path) = true) as ->.
  { apply andb_true_iff. split; [apply Z.ltb_lt|apply Z.leb_le]; unfold len; lia. }
  rewrite bool_decide_false; cycle 1.
  { intros H. apply (f_equal length) in H. lia. }
  rewrite Hlen.
  replace (len ext - 1) with (Z.of_nat (length ext) - 1) by done.
  rewrite basename_loop_suffix; [|
    intros j Hj; unfold path; rewrite app_assoc;
    rewrite lookup_app_r by (rewrite length_app; fold lo; lia);
    rewrite length_app; fold lo;
    replace (lo + j - lo)%nat with j by lia;
    split; [by apply lookup_notin|done] | done].
  simpl. unfold lo at 1.
  rewrite basename_loop_stem; cycle 1.
  { intros j Hj. unfold path. rewrite lookup_app_r by lia.
    rewrite lookup_app_l by lia. by apply lookup_notin. }
  { done. }
  { simpl. lia. }
  set (st := Path.BState _ _ _ _).
  assert (Path.basename_suffix_loop path ext (length pre) st
          = (Z.of_nat (length pre), st)) as ->.
  { destruct Hpre as [->|[pre' ->]]; [done|].
    rewrite length_app. simpl length.
    replace (length pre' + 1)%nat with (S (length pre')) by lia. simpl.
    unfold path. rewrite <- app_assoc. simpl app.
    rewrite codeIs_middle, bool_decide_true by done. simpl.
    do 2 f_equal. lia. }
  unfold st. simpl.
  destruct (Z.eqb_spec (Z.of_nat (length pre)) (Z.of_nat lo)); [lia|].
  destruct (Z.eqb_spec (Z.of_nat lo) (-1)); [lia|].
  unfold path, lo. rewrite Nat2Z.inj_add. apply slice_middle.
Qed.

(** ** The scan pattern *)

Lemma wild_match_chars cs name :
  Glob.wild_match (Glob.Char <$> cs) name = true ↔ name = cs.
Proof.
  revert name. induction cs as [|c cs IH]; intros name; simpl.
  - by rewrite bool_decide_eq_true.
  - destruct name as [|x name]; [done|].
    rewrite andb_true_iff, bool_decide_eq_true, IH. naive_solver.
Qed.

Lemma wild_match_star ts name :
  Glob.wild_match (Glob.Star :: ts) name =
  Glob.wild_match ts name
  || match name with
     | x :: name' =>
         negb (bool_decide (x = CHAR_FORWARD_SLASH))
         && Glob.wild_match (Glob.Star :: ts) name'
     | [] => false
     end.
Proof. by destruct name. Qed.

Lemma wild_match_star_chars cs name :
  Glob.wild_match (Glob.Star :: (Glob.Char <$> cs)) name = true
  ↔ ∃ stem, name = stem ++ cs ∧ CHAR_FORWARD_SLASH ∉ stem.
Proof.
  induction name as [|x name IH]; rewrite wild_match_star.
  - rewrite orb_false_r, wild_match_chars. split.
    + intros <-. exists []. split; [done|]. apply not_elem_of_nil.
    + intros (stem & H & _). symmetry in H. by apply app_eq_nil in H as [_ ?].
  - rewrite orb_true_iff, andb_true_iff, negb_true_iff, bool_decide_eq_false.
    rewrite wild_match_chars, IH. split.
    + intros [<-|(Hx & stem & -> & Hs)].
      * exists []. split; [done|]. apply not_elem_of_nil.
      * exists (x :: stem). split; [done|]. set_solver.
    + intros (stem & H & Hs). destruct stem as [|y stem]; [by left|].
      right. simpl in H. simplify_eq.
      apply not_elem_of_cons in Hs as [? ?]. split; [done|]. by exists stem.
Qed.

Lemma matchOne_globstar ps file :
  Glob.matchOne (Glob.GlobStar :: ps) file =
  Glob.matchOne ps file
  || match file with
     | f :: file' => negb (startsWithDot f) && Glob.matchOne (Glob.GlobStar :: ps) file'
     | [] => false
     end.
Proof. by destruct file. Qed.

Lemma matchOne_seg ts file :
  Glob.matchOne [Glob.Seg ts] file = true
  ↔ ∃ name, file = [name] ∧ Glob.seg_match ts name = true.
Proof.
  simpl. destruct file as [|f [|g file]]; simpl.
  - naive_solver.
  - rewrite andb_true_r. naive_solver.
  - rewrite andb_false_r. naive_solver.
Qed.

Lemma matchOne_globstar_seg ts file :
  Glob.matchOne [Glob.GlobStar; Glob.Seg ts] file = true
  ↔ ∃ ds name, file = ds ++ [name]
      ∧ Forall (λ d, startsWithDot d = false) ds
      ∧ Glob.seg_match ts name = true.
Proof.
  induction file as [|f file IH]; rewrite matchOne_globstar.
  - rewrite orb_false_r, matchOne_seg. split; [naive_solver|].
    intros (ds & name & H & _). by destruct ds.
  - rewrite orb_true_iff, andb_true_iff, negb_true_iff, matchOne_seg, IH. split.
    + intros [(name & Hf & Hm)|(Hf & ds & name & -> & Hds & Hm)].
      * simplify_eq. exists [], name. by split; [|split].
      * exists (f :: ds), name. split; [done|]. split; [by constructor|done].
    + intros (ds & name & H & Hds & Hm). destruct ds as [|d ds].
      * left. exists name. simpl in H. by simplify_eq.
      * right. simpl in H. simplify_eq.
        apply Forall_cons in Hds as [? ?]. split; [done|]. by exists ds, name.
Qed.

Lemma seg_match_star_chars cs name :
  Glob.seg_match (Glob.Star :: (Glob.Char <$> cs)) name = true
  ↔ startsWithDot name = false ∧ name ≠ []
    ∧ ∃ stem, name = stem ++ cs ∧ CHAR_FORWARD_SLASH ∉ stem.
Proof.
  unfold Glob.seg_match.
  rewrite !andb_true_iff, !negb_true_iff, bool_decide_eq_false.
  rewrite wild_match_star_chars. naive_solver.
Qed.

Lemma braceExpand_scanPattern :
  Glob.braceExpand Cli.scanPattern =
  (λ e, lit "**/*." ++ e) <$> extensions.
Proof. reflexivity. Qed.

Lemma parse_scan e :
  e ∈ extensions →
  Glob.parse (lit "**/*." ++ e)
  = [Glob.GlobStar; Glob.Seg (Glob.Star :: (Glob.Char <$> (CHAR_DOT :: e)))].
Proof.
  unfold extensions. intros He.
  repeat (apply elem_of_cons in He as [->|He]; [reflexivity|]).
  by apply elem_of_nil in He.
Qed.

Lemma minimatch_scan f :
  Glob.minimatch f Cli.scanPattern = true ↔ imagePath f.
Proof.
  unfold Glob.minimatch. rewrite braceExpand_scanPattern.
  rewrite existsb_exists. setoid_rewrite <- list_elem_of_In.
  setoid_rewrite list_elem_of_fmap. split.
  - intros (p & (e & -> & He) & Hm). rewrite parse_scan in Hm by done.
    apply matchOne_globstar_seg in Hm as (ds & name & Hf & Hds & Hm).
    apply seg_match_star_chars in Hm as (Hdot & Hne & stem & -> & Hs).
    exists ds, stem, e. split; [done|]. split; [done|]. split; [|done].
    destruct stem; [done|]. by split.
  - intros (ds & stem & e & Hf & Hds & [Hne Hdot] & He).
    exists (lit "**/*." ++ e). split; [by exists e|].
    rewrite parse_scan by done. apply matchOne_globstar_seg.
    exists ds, (stem ++ CHAR_DOT :: e). split; [done|]. split; [done|].
    apply seg_match_star_chars. destruct stem as [|c stem]; [done|].
    split; [done|]. split; [done|]. exists (c :: stem). split; [done|].
    pose proof (split_slashfree f) as Hsf. rewrite Hf in Hsf.
    rewrite Forall_app, Forall_singleton in Hsf. destruct Hsf as [_ Hsf].
    intros Hin. apply Hsf, elem_of_app. by left.
Qed.

(** ** Paths written out from segments *)

Lemma render_app top bottom :
  top ≠ [] → bottom ≠ [] →
  render (top ++ bottom) = render bottom ++ CHAR_FORWARD_SLASH :: render top.
Proof.
  intros Ht Hb. induction top as [|t top IH]; [done|].
  destruct top as [|t' top].
  - simpl app. by rewrite render_cons.
  - rewrite <- app_comm_cons. rewrite render_cons by done.
    rewrite IH by done. rewrite (render_cons t (t' :: top)) by done.
    by rewrite <- app_assoc.
Qed.

Lemma unsplit_singleton name : unsplit [name] = name.
Proof. done. Qed.

Lemma unsplit_snoc ds name :
  ds ≠ [] → unsplit (ds ++ [name]) = unsplit ds ++ CHAR_FORWARD_SLASH :: name.
Proof.
  intros Hds. unfold unsplit. rewrite rev_app_distr. simpl app.
  apply render_cons. intros H. apply (f_equal (@rev _)) in H.
  by rewrite rev_involutive in H.
Qed.

Lemma unsplit_cons d ds :
  ds ≠ [] → unsplit (d :: ds) = d ++ CHAR_FORWARD_SLASH :: unsplit ds.
Proof.
  intros Hds. unfold unsplit. simpl rev.
  rewrite render_app; [done| |done].
  intros H. apply (f_equal (@rev _)) in H. by rewrite rev_involutive in H.
Qed.

Lemma unsplit_split_from cur s : unsplit (split_from cur s) = cur ++ s.
Proof.
  revert cur. induction s as [|c s IH]; intros cur; simpl.
  - by rewrite app_nil_r.
  - case_bool_decide as Hc.
    + rewrite unsplit_cons by apply split_from_nonnil. by rewrite IH, Hc.
    + by rewrite IH, <- app_assoc.
Qed.

Lemma unsplit_split s : unsplit (split s) = s.
Proof. apply unsplit_split_from. Qed.

Lemma split_unsplit segs :
  Forall segment segs → segs ≠ [] → split (unsplit segs) = segs.
Proof.
  intros Hs Hne. unfold unsplit. rewrite split_render.
  - apply rev_involutive.
  - by apply Forall_rev.
  - intros H. apply (f_equal (@rev _)) in H. by rewrite rev_involutive in H.
Qed.

Lemma split_inj a b : split a = split b → a = b.
Proof. intros H. by rewrite <- (unsplit_split a), <- (unsplit_split b), H. Qed.

(** ** Plain names are pushed *)
Lemma resolve_step_plain allow stack s :
  plain s → resolve_step allow stack s = s :: stack.
Proof.
  intros [[Hne _] [Hd Hdd]]. unfold resolve_step.
  by rewrite !bool_decide_false.
Qed.

Lemma resolve_plain allow stack names :
  Forall plain names → resolve allow stack names = rev names ++ stack.
Proof.
  intros Hn. revert stack. induction Hn as [|s names Hs _ IH]; intros stack; [done|].
  rewrite resolve_cons, resolve_step_plain, IH by done.
  simpl. by rewrite <- app_assoc.
Qed.

Lemma plain_segment s : plain s → segment s.
Proof. by intros [? _]. Qed.

Lemma trailingSeparator_plain a s :
  segment s → trailingSeparator (a ++ s) = false.
Proof.
  intros [Hne Hs]. destruct s as [|c s] using rev_ind; [done|]. clear IHs.
  unfold trailingSeparator. rewrite app_assoc, length_app. simpl length.
  replace (length (a ++ s) + 1 - 1)%nat with (length (a ++ s)) by lia.
  rewrite codeIs_middle. rewrite bool_decide_false; [done|].
  intros ->. apply Hs, elem_of_app. right. by left.
Qed.

Lemma trailingSeparator_plain_cons a c s :
  segment s → trailingSeparator (a ++ c :: s) = false.
Proof.
  intros Hs. replace (a ++ c :: s) with ((a ++ [c]) ++ s)
    by (by rewrite <- app_assoc).
  by apply trailingSeparator_plain.
Qed.

(** ** Normal forms *)
Lemma normal_form_facts p abs stack :
  normal_form p abs stack →
  p ≠ [] ∧ isAbsolute p = abs ∧ resolve (negb abs) [] (split p) = stack.
Proof.
  intros (-> & Hne & Hc). pose proof (canon_segments _ _ Hc) as Hs.
  destruct (render_head stack [] Hs Hne) as (c & r & Hc' & Hr).
  rewrite app_nil_r in Hr. split; [|split].
  - rewrite Hr. by destruct abs.
  - destruct abs; [done|]. simpl. rewrite Hr.
    unfold isAbsolute, codeIs. simpl. rewrite bool_decide_false; congruence.
  - destruct abs.
    + change ([CHAR_FORWARD_SLASH] ++ ?x) with ([] ++ CHAR_FORWARD_SLASH :: x).
      rewrite split_app, split_nil, split_render by done.
      simpl app. rewrite resolve_skip_empty. by apply resolve_rev_canon.
    + simpl app. rewrite split_render by done. by apply resolve_rev_canon.
Qed.

(** Going on from a normal form. *)
Lemma normalize_under p abs stack y :
  normal_form p abs stack →
  Path.normalize (p ++ CHAR_FORWARD_SLASH :: y)
  = finish abs (trailingSeparator (CHAR_FORWARD_SLASH :: y))
           (resolve (negb abs) stack (split y)).
Proof.
  intros Hnf. destruct (normal_form_facts _ _ _ Hnf) as (Hne & Habs & Hres).
  rewrite normalize_spec by (by intros [? _]%app_eq_nil).
  rewrite isAbsolute_app, Habs by done.
  by rewrite trailingSeparator_app, split_app, resolve_app, Hres.
Qed.

Lemma normal_form_extend p abs stack names :
  normal_form p abs stack → Forall plain names → names ≠ [] →
  Path.normalize (p ++ CHAR_FORWARD_SLASH :: unsplit names)
  = p ++ CHAR_FORWARD_SLASH :: unsplit names
  ∧ normal_form (p ++ CHAR_FORWARD_SLASH :: unsplit names) abs (rev names ++ stack).
Proof.
  intros Hnf Hn Hne.
  assert (Forall segment names) as Hseg
    by (eapply Forall_impl; [done|apply plain_segment]).
  assert (rev names ≠ []) as Hrev.
  { intros H. apply (f_equal (@rev _)) in H. by rewrite rev_involutive in H. }
  assert (canon (negb abs) (rev names ++ stack)) as Hcanon.
  { rewrite <- (resolve_plain (negb abs)) by done.
    apply resolve_canon; [|by destruct Hnf as (_ & _ & ?)].
    eapply Forall_impl; [apply Hseg|]. by intros ? [_ ?]. }
  assert (p ++ CHAR_FORWARD_SLASH :: unsplit names
          = (if abs then [CHAR_FORWARD_SLASH] else []) ++ render (rev names ++ stack))
    as Heq.
  { destruct Hnf as (-> & Hs & _). rewrite render_app by done.
    by rewrite <- app_assoc. }
  split; [|split; [done|split; [|done]]].
  - rewrite (normalize_under p abs stack) by done.
    rewrite split_unsplit, resolve_plain by done.
    assert (trailingSeparator (CHAR_FORWARD_SLASH :: unsplit names) = false) as ->.
    { destruct names as [|n names] using rev_ind; [done|]. clear IHnames.
      rewrite Forall_app, Forall_singleton in Hseg. destruct Hseg as [_ Hn'].
      destruct names as [|n' names].
      - simpl app. rewrite unsplit_singleton.
        by apply (trailingSeparator_plain [CHAR_FORWARD_SLASH]).
      - rewrite unsplit_snoc by done.
        by apply (trailingSeparator_plain_cons (CHAR_FORWARD_SLASH :: _)). }
    unfold finish. rewrite bool_decide_false by (by destruct (rev names)).
    by rewrite app_nil_r, Heq.
  - by destruct (rev names).
Qed.

(** The last name of a joined path is the last name of the result. *)
Lemma normalize_last x b :
  x ≠ [] → plain b →
  ∃ pre, boundary pre ∧ Path.normalize (x ++ CHAR_FORWARD_SLASH :: b) = pre ++ b.
Proof.
  intros Hx Hb. pose proof (plain_segment _ Hb) as [Hne Hsl].
  rewrite normalize_spec by (by intros [? _]%app_eq_nil).
  rewrite isAbsolute_app by done.
  rewrite trailingSeparator_plain_cons by done.
  rewrite split_app, (split_plain b), resolve_app by done.
  simpl. rewrite resolve_step_plain by done.
  set (stack := resolve _ _ _).
  unfold finish. rewrite bool_decide_false by done. rewrite app_nil_r.
  destruct stack as [|s stack].
  - change (render [b]) with b. destruct (isAbsolute x).
    + exists [CHAR_FORWARD_SLASH]. split; [right; by exists []|done].
    + exists []. split; [by left|done].
  - rewrite render_cons by done.
    exists ((if isAbsolute x then [CHAR_FORWARD_SLASH] else [])
            ++ render (s :: stack) ++ [CHAR_FORWARD_SLASH]).
    split.
    + right. eexists. by rewrite app_assoc.
    + by rewrite <- !app_assoc.
Qed.

(** ** The files below a directory *)

Lemma stripPrefix_spec pre s r : Fs.stripPrefix pre s = Some r ↔ s = pre ++ r.
Proof.
  revert s. induction pre as [|c pre IH]; intros s; simpl.
  - naive_solver.
  - destruct s as [|x s]; [naive_solver|].
    case_bool_decide; [rewrite IH|]; naive_solver.
Qed.

Lemma filesBelow_spec dir σ f :
  f ∈ Fs.filesBelow dir σ
  ↔ is_Some (Fs.files σ !! (dir ++ CHAR_FORWARD_SLASH :: f)).
Proof.
  unfold Fs.filesBelow. rewrite list_elem_of_omap.
  setoid_rewrite merge_sort_Permutation.
  setoid_rewrite list_elem_of_fmap. split.
  - intros (k & ([k' v] & -> & Hkv) & Hs). apply elem_of_map_to_list in Hkv.
    apply stripPrefix_spec in Hs. simpl in Hs. simpl in Hkv. subst k'.
    rewrite <- app_assoc in Hkv. by exists v.
  - intros [v Hv]. exists (dir ++ CHAR_FORWARD_SLASH :: f). split.
    + exists (dir ++ CHAR_FORWARD_SLASH :: f, v). split; [done|].
      by apply elem_of_map_to_list.
    + apply stripPrefix_spec. by rewrite <- app_assoc.
Qed.

Lemma imageFilesOf_spec E σ f :
  f ∈ imageFilesOf E σ
  ↔ is_Some (Fs.files σ !! (Cli.publicDir E ++ CHAR_FORWARD_SLASH :: f))
    ∧ imagePath f.
Proof.
  unfold imageFilesOf. rewrite list_elem_of_filter, filesBelow_spec.
  rewrite minimatch_scan. naive_solver.
Qed.

(** ** [publicDir] is a normal form *)

Lemma plain_public : plain (lit "public").
Proof.
  split; [split; [done|]|done].
  cbv [lit String.list_ascii_of_string CHAR_FORWARD_SLASH]. set_solver.
Qed.

Lemma publicDir_normal E : ∃ abs stack, normal_form (Cli.publicDir E) abs stack.
Proof.
  unfold Cli.publicDir, Path.join. simpl.
  assert (∃ x pre, (if bool_decide (Cli.cwd E = [])
                    then Some (lit "public")
                    else Some (Cli.cwd E ++ CHAR_FORWARD_SLASH :: lit "public"))
                   = Some x
                   ∧ x ≠ [] ∧ split x = pre ++ [lit "public"]
                   ∧ trailingSeparator x = false) as (x & pre & -> & Hx & Hsp & Htr).
  { case_bool_decide.
    - exists (lit "public"), []. by split_and!.
    - eexists _, (split (Cli.cwd E)). split; [done|]. split_and!.
      + by intros [? _]%app_eq_nil.
      + by rewrite split_app.
      + apply trailingSeparator_plain_cons, plain_public. }
  rewrite normalize_spec by done. rewrite Htr, Hsp, resolve_app.
  simpl. rewrite resolve_step_plain by apply plain_public.
  set (stack := resolve _ _ _).
  exists (isAbsolute x), (lit "public" :: stack). split; [|split; [done|]].
  - unfold finish. rewrite bool_decide_false by done. by rewrite app_nil_r.
  - change (lit "public" :: stack)
      with (resolve_step (negb (isAbsolute x)) stack (lit "public")).
    + apply resolve_step_canon.
      * apply plain_public.
      * apply resolve_canon; [|done].
        pose proof (split_slashfree x) as Hs. rewrite Hsp in Hs.
        rewrite Forall_app in Hs. by destruct Hs.
Qed.

(** ** The shape of a scanned path *)

Lemma extension_facts e :
  e ∈ extensions → e ≠ [] ∧ (CHAR_FORWARD_SLASH ∉ e) ∧ (CHAR_DOT ∉ e).
Proof.
  unfold extensions. intros He.
  repeat (apply elem_of_cons in He as [->|He];
          [split_and!; [done|..];
           cbv [lit String.list_ascii_of_string CHAR_FORWARD_SLASH CHAR_DOT];
           set_solver|]).
  by apply elem_of_nil in He.
Qed.

Lemma webp_facts :
  lit "webp" ≠ [] ∧ (CHAR_FORWARD_SLASH ∉ lit "webp")
  ∧ (CHAR_DOT ∉ lit "webp") ∧ (lit "webp" ∉ extensions).
Proof.
  split_and!; [done|..];
    cbv [extensions lit String.list_ascii_of_string CHAR_FORWARD_SLASH CHAR_DOT];
    set_solver.
Qed.

Lemma visible_plain s : visible s → CHAR_FORWARD_SLASH ∉ s → plain s.
Proof.
  intros [Hne Hdot] Hs. split; [done|].
  split; intros ->; done.
Qed.

Lemma visible_app s t : visible s → visible (s ++ t).
Proof. intros [Hne Hdot]. destruct s; [done|]. by split. Qed.

Lemma scanned_shape f :
  scanned f →
  ∃ ds stem e,
    f = unsplit (ds ++ [stem ++ CHAR_DOT :: e])
    ∧ Forall (λ d, visible d ∧ CHAR_FORWARD_SLASH ∉ d) ds
    ∧ visible stem ∧ (CHAR_FORWARD_SLASH ∉ stem) ∧ e ∈ extensions.
Proof.
  intros [(ds & stem & e & Hf & Hds & Hstem & He) Hne].
  pose proof (split_slashfree f) as Hsf. rewrite Hf in Hsf, Hne.
  rewrite Forall_app, Forall_singleton in Hsf, Hne.
  destruct Hsf as [Hsf1 Hsf2], Hne as [Hne1 _].
  exists ds, stem, e. split_and!; try done.
  - by rewrite <- Hf, unsplit_split.
  - rewrite Forall_forall in Hds, Hsf1, Hne1. apply Forall_forall.
    intros d Hd. split; [split|]; auto.
  - intros Hin. apply Hsf2, elem_of_app. by left.
Qed.

Lemma pathOk_spec p :
  pathOk p = true →
  ∃ name names, split p = [] :: name :: names
                ∧ Forall (λ s, s ≠ []) (name :: names).
Proof.
  unfold pathOk. destruct (split p) as [|[|] [|name names]]; try done.
  intros H. exists name, names. split; [done|].
  apply Forall_forall. intros s Hs.
  rewrite forallb_forall in H. specialize (H s).
  rewrite <- list_elem_of_In in H. specialize (H Hs).
  by apply negb_true_iff, bool_decide_eq_false in H.
Qed.

Lemma scanned_of_scan E σ f : wf σ → f ∈ imageFilesOf E σ → scanned f.
Proof.
  intros Hwf [[v Hv] Him]%imageFilesOf_spec. split; [done|].
  specialize (Hwf _ _ Hv). simpl in Hwf.
  apply pathOk_spec in Hwf as (name & names & Hsp & Hne).
  rewrite split_app in Hsp.
  destruct (split (Cli.publicDir E)) as [|x xs] eqn:Hp.
  { by apply split_from_nonnil in Hp. }
  simpl in Hsp. injection Hsp as _ Hsp. rewrite <- Hsp in Hne.
  rewrite Forall_app in Hne. by destruct Hne.
Qed.

(** ** [dirname], [extname] and [basename] of a scanned path *)

Lemma unsplit_head d ds :
  ∃ r, unsplit (d :: ds) = d ++ r ∧ (ds = [] → r = []).
Proof.
  destruct ds as [|d' ds].
  - exists []. by rewrite app_nil_r.
  - rewrite unsplit_cons by done. eexists. split; [done|done].
Qed.

Lemma unsplit_visible ds :
  ds ≠ [] → Forall (λ d, visible d ∧ (CHAR_FORWARD_SLASH ∉ d)) ds →
  visible (unsplit ds) ∧ unsplit ds ≠ lit "/".
Proof.
  intros Hne Hds. destruct ds as [|d ds]; [done|].
  apply Forall_cons in Hds as [[Hv Hs] _].
  destruct (unsplit_head d ds) as (r & -> & _).
  split; [by apply visible_app|].
  destruct Hv as [Hd _]. destruct d as [|c d]; [done|].
  intros H. injection H as -> _. apply Hs. by left.
Qed.

Lemma boundary_dir ds :
  boundary (if bool_decide (ds = []) then []
            else unsplit ds ++ [CHAR_FORWARD_SLASH]).
Proof. case_bool_decide; [by left|right; by eexists]. Qed.

Lemma unsplit_last ds name :
  unsplit (ds ++ [name])
  = (if bool_decide (ds = []) then [] else unsplit ds ++ [CHAR_FORWARD_SLASH])
    ++ name.
Proof.
  case_bool_decide as Hds.
  - by subst.
  - rewrite unsplit_snoc by done. by rewrite <- app_assoc.
Qed.

Lemma plain_forall ds :
  Forall (λ d, visible d ∧ (CHAR_FORWARD_SLASH ∉ d)) ds → Forall plain ds.
Proof.
  intros H. eapply Forall_impl; [done|]. intros d [? ?]. by apply visible_plain.
Qed.

Lemma name_plain stem t :
  visible stem → CHAR_FORWARD_SLASH ∉ stem → CHAR_FORWARD_SLASH ∉ t →
  plain (stem ++ t).
Proof.
  intros Hv Hs Ht. apply visible_plain; [by apply visible_app|].
  rewrite elem_of_app. tauto.
Qed.

Lemma path_parts ds stem e :
  Forall (λ d, visible d ∧ (CHAR_FORWARD_SLASH ∉ d)) ds →
  visible stem → CHAR_FORWARD_SLASH ∉ stem →
  e ≠ [] → CHAR_FORWARD_SLASH ∉ e → CHAR_DOT ∉ e →
  let f := unsplit (ds ++ [stem ++ CHAR_DOT :: e]) in
  Path.dirname f = (if bool_decide (ds = []) then lit "." else unsplit ds)
  ∧ Path.extname f = CHAR_DOT :: e
  ∧ Path.basename f (CHAR_DOT :: e) = stem.
Proof.
  intros Hds Hv Hs Hne Hes Hed f. unfold f. split_and!.
  - case_bool_decide as Hnil.
    + subst ds. simpl app. rewrite unsplit_singleton.
      apply dirname_plain. rewrite elem_of_app, elem_of_cons.
      intros [?|[?|?]]; done.
    + rewrite unsplit_snoc by done.
      destruct (unsplit_visible ds Hnil Hds) as [[Hd _] Hroot].
      apply dirname_split; try done.
      * by destruct stem.
      * rewrite elem_of_app, elem_of_cons. intros [?|[?|?]]; done.
  - rewrite unsplit_last. apply extname_split; try done.
    + apply boundary_dir.
    + by destruct Hv.
  - rewrite unsplit_last. apply (basename_split _ stem (CHAR_DOT :: e)); try done.
    + apply boundary_dir.
    + by destruct Hv.
    + rewrite elem_of_cons. intros [?|?]; done.
Qed.

Lemma scanned_parts f :
  scanned f →
  ∃ ds stem e,
    f = unsplit (ds ++ [stem ++ CHAR_DOT :: e])
    ∧ Forall (λ d, visible d ∧ (CHAR_FORWARD_SLASH ∉ d)) ds
    ∧ visible stem ∧ (CHAR_FORWARD_SLASH ∉ stem) ∧ e ∈ extensions
    ∧ Path.dirname f = (if bool_decide (ds = []) then lit "." else unsplit ds)
    ∧ Path.extname f = CHAR_DOT :: e
    ∧ Path.basename f (CHAR_DOT :: e) = stem.
Proof.
  intros (ds & stem & e & Hf & Hds & Hv & Hs & He)%scanned_shape.
  destruct (extension_facts e He) as (Hne & Hes & Hed).
  destruct (path_parts ds stem e Hds Hv Hs Hne Hes Hed) as (H1 & H2 & H3).
  exists ds, stem, e. rewrite Hf. by split_and!.
Qed.

(** ** [join] *)

Lemma join2 p b :
  p ≠ [] → b ≠ [] →
  Path.join [p; b] = Path.normalize (p ++ CHAR_FORWARD_SLASH :: b).
Proof. intros Hp Hb. unfold Path.join. simpl. by rewrite !bool_decide_false. Qed.

Lemma join3 p d b :
  p ≠ [] → d ≠ [] → b ≠ [] →
  Path.join [p; d; b]
  = Path.normalize (p ++ CHAR_FORWARD_SLASH :: d ++ CHAR_FORWARD_SLASH :: b).
Proof.
  intros Hp Hd Hb. unfold Path.join. simpl. rewrite !bool_decide_false by done.
  by rewrite <- app_assoc.
Qed.

Lemma join_skip p : p ≠ [] → Path.join [p; []] = Path.normalize p.
Proof. intros Hp. unfold Path.join. simpl. by rewrite bool_decide_false. Qed.

Lemma join3_skip p b :
  p ≠ [] → b ≠ [] →
  Path.join [p; []; b] = Path.normalize (p ++ CHAR_FORWARD_SLASH :: b).
Proof. intros Hp Hb. unfold Path.join. simpl. by rewrite !bool_decide_false. Qed.

Lemma normalize_nonempty x : Path.normalize x ≠ [].
Proof.
  destruct (decide (x = [])) as [->|Hx]; [done|].
  rewrite normalize_spec by done. apply finish_head.
  eapply canon_segments, resolve_canon; [apply split_slashfree|done].
Qed.

Lemma join_nonempty args : Path.join args ≠ [].
Proof. unfold Path.join. destruct (Path.join_args _ _); [apply normalize_nonempty|done]. Qed.

Lemma publicDir_nonempty E : Cli.publicDir E ≠ [].
Proof. apply join_nonempty. Qed.

(** Joining twice or at once is the same. *)
Lemma join_join p d b :
  p ≠ [] → b ≠ [] → Path.join [Path.join [p; d]; b] = Path.join [p; d; b].
Proof.
  intros Hp Hb. destruct (decide (d = [])) as [->|Hd].
  - rewrite join_skip, join3_skip by done.
    rewrite join2 by (done || apply normalize_nonempty).
    by apply normalize_join.
  - rewrite (join2 p d), join3 by done.
    rewrite join2 by (done || apply normalize_nonempty).
    rewrite normalize_join by (by intros [? _]%app_eq_nil).
    by rewrite <- app_assoc.
Qed.

(** A ["."] in the middle is dropped. *)
Lemma join_dot p b :
  p ≠ [] → b ≠ [] → Path.join [p; lit "."; b] = Path.join [p; b].
Proof.
  intros Hp Hb. rewrite join3, join2 by done.
  rewrite !normalize_spec by (by intros [? _]%app_eq_nil).
  rewrite !isAbsolute_app by done.
  rewrite (app_assoc _ _ (CHAR_FORWARD_SLASH :: b)) || idtac.
  replace (p ++ CHAR_FORWARD_SLASH :: lit "." ++ CHAR_FORWARD_SLASH :: b)
    with ((p ++ CHAR_FORWARD_SLASH :: lit ".") ++ CHAR_FORWARD_SLASH :: b)
    by (by rewrite <- app_assoc).
  rewrite !trailingSeparator_app.
  rewrite !split_app, !resolve_app. done.
Qed.

Lemma join_names p abs stack names :
  normal_form p abs stack → Forall plain names → names ≠ [] →
  Path.join [p; unsplit names] = p ++ CHAR_FORWARD_SLASH :: unsplit names.
Proof.
  intros Hnf Hn Hne. destruct (normal_form_facts _ _ _ Hnf) as (Hp & _).
  rewrite join2; [by eapply normal_form_extend|done|].
  apply render_nonempty.
  - apply Forall_rev. eapply Forall_impl; [done|apply plain_segment].
  - intros H. apply (f_equal (@rev _)) in H. by rewrite rev_involutive in H.
Qed.

Lemma unsplit_nonempty names :
  Forall plain names → names ≠ [] → unsplit names ≠ [].
Proof.
  intros Hn Hne. apply render_nonempty.
  - apply Forall_rev. eapply Forall_impl; [done|apply plain_segment].
  - intros H. apply (f_equal (@rev _)) in H. by rewrite rev_involutive in H.
Qed.

Lemma dot_webp : lit ".webp" = CHAR_DOT :: lit "webp".
Proof. done. Qed.

Section scanned_paths.
Context (E : Cli.env).
Context (ds : list jsstring) (stem e : jsstring).
Context (Hds : Forall (λ d, visible d ∧ (CHAR_FORWARD_SLASH ∉ d)) ds).
Context (Hv : visible stem) (Hs : CHAR_FORWARD_SLASH ∉ stem).
Context (He : e ∈ extensions).
Let P := Cli.publicDir E.

Lemma names_plain t :
  CHAR_FORWARD_SLASH ∉ t → Forall plain (ds ++ [stem ++ CHAR_DOT :: t]).
Proof.
  intros Ht. rewrite Forall_app, Forall_singleton. split.
  - by apply plain_forall.
  - apply name_plain; try done. rewrite elem_of_cons. intros [?|?]; done.
Qed.

Lemma inputPath_scanned :
  inputPath E (unsplit (ds ++ [stem ++ CHAR_DOT :: e]))
  = P ++ CHAR_FORWARD_SLASH :: unsplit (ds ++ [stem ++ CHAR_DOT :: e]).
Proof.
  destruct (publicDir_normal E) as (abs & stack & Hnf).
  destruct (extension_facts e He) as (_ & Hes & _).
  eapply join_names; [done|by apply names_plain|by destruct ds].
Qed.

Lemma overwrite_scanned suffix :
  Cli.outputPath E Cli.overwrite suffix (unsplit (ds ++ [stem ++ CHAR_DOT :: e]))
  = P ++ CHAR_FORWARD_SLASH :: unsplit (ds ++ [stem ++ lit ".webp"]).
Proof.
  destruct (publicDir_normal E) as (abs & stack & Hnf).
  destruct (extension_facts e He) as (Hne & Hes & Hed).
  destruct webp_facts as (_ & Hws & _).
  pose proof (names_plain (lit "webp") Hws) as Hnames.
  destruct (path_parts ds stem e Hds Hv Hs Hne Hes Hed) as (Hdir & Hext & Hbase).
  unfold Cli.outputPath. rewrite Hdir, Hext, Hbase. fold P.
  assert (stem ++ lit ".webp" ≠ []) as Hb by (by destruct stem, Hv).
  case_bool_decide as Hnil.
  - subst ds. rewrite join_dot by (done || apply publicDir_nonempty).
    simpl app. rewrite unsplit_singleton.
    apply (join_names P abs stack [stem ++ lit ".webp"]); done.
  - rewrite join3; [|apply publicDir_nonempty| |done].
    + rewrite <- unsplit_snoc by done.
      rewrite <- join2; [by eapply join_names; [done..|by destruct ds]
                        |apply publicDir_nonempty|].
      apply unsplit_nonempty; [done|by destruct ds].
    + apply unsplit_nonempty; [by apply plain_forall|done].
Qed.

End scanned_paths.

Lemma normal_form_not_root p abs stack :
  normal_form p abs stack → p ≠ [] ∧ p ≠ lit "/".
Proof.
  intros Hnf. destruct (normal_form_facts _ _ _ Hnf) as (Hp & _). split; [done|].
  destruct Hnf as (-> & Hne & Hc). pose proof (canon_segments _ _ Hc) as Hs.
  destruct (render_head stack [] Hs Hne) as (c & r & Hc' & Hr).
  rewrite app_nil_r in Hr. rewrite Hr. destruct abs; simpl; [done|].
  intros H. injection H as -> _. done.
Qed.

Lemma join_names_nf p abs stack names :
  normal_form p abs stack → Forall plain names → names ≠ [] →
  Path.join [p; unsplit names] = p ++ CHAR_FORWARD_SLASH :: unsplit names
  ∧ normal_form (p ++ CHAR_FORWARD_SLASH :: unsplit names) abs (rev names ++ stack).
Proof.
  intros Hnf Hn Hne. split; [by eapply join_names|by eapply normal_form_extend].
Qed.

(** The directory of a path below a normal form. *)
Lemma dirname_under p abs stack names name :
  normal_form p abs stack → Forall plain names → plain name →
  Path.dirname (p ++ CHAR_FORWARD_SLASH :: unsplit (names ++ [name]))
  = (if bool_decide (names = []) then p
     else p ++ CHAR_FORWARD_SLASH :: unsplit names).
Proof.
  intros Hnf Hn [[Hne Hs] _]. case_bool_decide as Hnil.
  - subst names. simpl app. rewrite unsplit_singleton.
    destruct (normal_form_not_root _ _ _ Hnf). by apply dirname_split.
  - rewrite unsplit_snoc by done.
    destruct (normal_form_extend p abs stack names Hnf Hn Hnil) as [_ Hnf'].
    destruct (normal_form_not_root _ _ _ Hnf').
    rewrite (app_comm_cons _ _ CHAR_FORWARD_SLASH), app_assoc.
    by apply dirname_split.
Qed.

Section new_folder.
Context (E : Cli.env).
Context (ds : list jsstring) (stem e suffix : jsstring).
Context (Hds : Forall (λ d, visible d ∧ (CHAR_FORWARD_SLASH ∉ d)) ds).
Context (Hv : visible stem) (Hs : CHAR_FORWARD_SLASH ∉ stem).
Context (He : e ∈ extensions).
Context (Hsuffix : CHAR_FORWARD_SLASH ∉ suffix).
Let P := Cli.publicDir E.
Let f := unsplit (ds ++ [stem ++ CHAR_DOT :: e]).

Lemma plain_webp : plain (stem ++ lit ".webp").
Proof.
  destruct webp_facts as (_ & Hws & _).
  apply name_plain; try done. rewrite dot_webp, elem_of_cons. intros [?|?]; done.
Qed.

(** At the root the output directory is named by the suffix. *)
Lemma new_folder_root :
  ds = [] → plain suffix →
  Cli.outputPath E Cli.new_folder suffix f
  = P ++ CHAR_FORWARD_SLASH :: suffix ++ CHAR_FORWARD_SLASH :: stem ++ lit ".webp"
  ∧ Cli.outputDirPath E suffix f = P ++ CHAR_FORWARD_SLASH :: suffix
  ∧ Path.dirname (Cli.outputPath E Cli.new_folder suffix f)
    = Cli.outputDirPath E suffix f.
Proof.
  intros Hnil Hp.
  destruct (publicDir_normal E) as (abs & stack & Hnf).
  destruct (extension_facts e He) as (Hne & Hes & Hed).
  destruct (path_parts ds stem e Hds Hv Hs Hne Hes Hed) as (Hdir & Hext & Hbase).
  fold f in Hdir, Hext, Hbase.
  rewrite (bool_decide_true (ds = [])) in Hdir by done.
  unfold Cli.outputPath, Cli.outputDirPath. rewrite Hdir, Hext, Hbase. fold P.
  cbv zeta. rewrite !(bool_decide_true (lit "." = lit ".")) by done.
  destruct (join_names_nf P abs stack [suffix] Hnf) as [Hj Hnf1]; [by constructor|done|].
  rewrite unsplit_singleton in Hj, Hnf1. rewrite Hj.
  destruct (join_names_nf _ abs _ [stem ++ lit ".webp"] Hnf1) as [Hj2 _];
    [constructor; [apply plain_webp|done]|done|].
  rewrite unsplit_singleton in Hj2. rewrite Hj2.
  split_and!; [by rewrite <- app_assoc|done|].
  destruct (normal_form_not_root _ _ _ Hnf1).
  apply dirname_split; try done; [by destruct stem, Hv|apply plain_webp].
Qed.

(** Below the root it is the directory's own name with the suffix
    appended. *)
Lemma new_folder_nested :
  ds ≠ [] →
  Cli.outputPath E Cli.new_folder suffix f
  = P ++ CHAR_FORWARD_SLASH :: (unsplit ds ++ suffix)
      ++ CHAR_FORWARD_SLASH :: stem ++ lit ".webp"
  ∧ Cli.outputDirPath E suffix f = P ++ CHAR_FORWARD_SLASH :: (unsplit ds ++ suffix)
  ∧ Path.dirname (Cli.outputDirPath E suffix f)
    = Path.dirname (Path.join [P; Path.dirname f])
  ∧ Path.dirname f = unsplit ds
  ∧ Path.join [P; Path.dirname f] = P ++ CHAR_FORWARD_SLASH :: unsplit ds
  ∧ Path.dirname (Cli.outputPath E Cli.new_folder suffix f)
    = Cli.outputDirPath E suffix f.
Proof.
  intros Hnil.
  destruct (publicDir_normal E) as (abs & stack & Hnf).
  destruct (extension_facts e He) as (Hne & Hes & Hed).
  destruct (path_parts ds stem e Hds Hv Hs Hne Hes Hed) as (Hdir & Hext & Hbase).
  fold f in Hdir, Hext, Hbase.
  destruct (unsplit_visible ds Hnil Hds) as [Hvis Hroot].
  rewrite (bool_decide_false (ds = [])) in Hdir by done.
  assert (unsplit ds ≠ lit ".") as Hnotdot
    by (intros Hdot; by rewrite Hdot in Hvis; destruct Hvis).
  unfold Cli.outputPath, Cli.outputDirPath. rewrite Hdir, Hext, Hbase. fold P.
  cbv zeta. rewrite !(bool_decide_false (unsplit ds = lit ".")) by done.
  destruct ds as [|last ds' _] using rev_ind; [done|].
  rewrite Forall_app, Forall_singleton in Hds. destruct Hds as [Hds' [Hlv Hls]].
  assert (unsplit (ds' ++ [last]) ++ suffix = unsplit (ds' ++ [last ++ suffix])) as Hcat.
  { rewrite !unsplit_last. by rewrite <- app_assoc. }
  assert (Forall plain (ds' ++ [last ++ suffix])) as Hpl.
  { rewrite Forall_app, Forall_singleton. split; [by apply plain_forall|].
    by apply name_plain. }
  assert (Forall plain (ds' ++ [last])) as Hpl0.
  { rewrite Forall_app, Forall_singleton. split; [by apply plain_forall|].
    by apply visible_plain. }
  rewrite Hcat.
  destruct (join_names_nf P abs stack _ Hnf Hpl) as [Hj Hnf1]; [by destruct ds'|].
  rewrite Hj.
  destruct (join_names_nf _ abs _ [stem ++ lit ".webp"] Hnf1) as [Hj2 _];
    [constructor; [apply plain_webp|done]|done|].
  rewrite unsplit_singleton in Hj2. rewrite Hj2.
  destruct (join_names_nf P abs stack _ Hnf Hpl0) as [Hj0 _]; [by destruct ds'|].
  split_and!; try done.
  - by rewrite <- app_assoc.
  - rewrite Hj0.
    rewrite !(dirname_under P abs stack ds'); try done.
    + by apply plain_forall.
    + by apply visible_plain.
    + by apply plain_forall.
    + by apply name_plain.
  - destruct (normal_form_not_root _ _ _ Hnf1).
    apply dirname_split; try done; [by destruct stem, Hv|apply plain_webp].
Qed.

End new_folder.

(** ** The steps of the script *)

Lemma select_spec E imageFiles w :
  select E imageFiles w
  = (match selectedFilesOf E imageFiles with
     | Some files => Ok files
     | None => Waiting
     end,
     World (fs w) (trace w ++ selectPrompts E)).
Proof.
  unfold select, selectedFilesOf, selectPrompts, checkbox, prompt, ticked.
  cbv [mbind M_bind mret M_ret emit wait].
  destruct (a_selectionMode (user E)); simpl.
  - done.
  - destruct (_ <? _)%nat; simpl; by rewrite <- app_assoc.
  - destruct (_ <? _)%nat; simpl; by rewrite <- app_assoc.
Qed.

Lemma chooseStrategy_spec E w :
  chooseStrategy E w
  = (Ok (a_strategy (user E), suffixOf E),
     World (fs w) (trace w ++ strategyPrompts E)).
Proof.
  unfold chooseStrategy, suffixOf, strategyPrompts, prompt.
  cbv [mbind M_bind mret M_ret emit].
  destruct (a_strategy (user E)); simpl; [|done]. by rewrite <- app_assoc.
Qed.

Lemma report_spec s c1 c2 w :
  report s c1 c2 w
  = (Ok tt,
     World (fs w)
       (trace w ++ [Print msg_complete; Print (msg_processed c1)]
        ++ (if c2 >? 0 then [Print (msg_failed c2)] else [])
        ++ match s with
           | overwrite => [Print msg_overwrite_note]
           | new_folder => []
           end)).
Proof.
  unfold report, console_log. cbv [mbind M_bind mret M_ret emit].
  destruct (c2 >? 0), s; simpl; by rewrite <- ?app_assoc.
Qed.

(** ** Creating a directory and converting a file *)

Lemma ensureDir_cases E dir w :
  (∃ dirs, ensureDir E dir w
           = (Ok tt, World (Fs.State (Fs.files (fs w)) dirs (Fs.rank (fs w)))
                           (trace w ++ [EnsureDir dir])))
  ∨ (∃ err, ensureDir E dir w
            = (Throw err, World (fs w) (trace w ++ [EnsureDir dir]))).
Proof.
  unfold ensureDir. cbv [mbind M_bind mret M_ret emit get_fs put_fs throw].
  simpl. destruct (mkdirFails _ _ _); [right|left]; by eexists.
Qed.

Lemma optimizeImage_spec E input output w :
  optimizeImage E input output 80 w
  = match encoded E (fs w) input output with
    | Some out =>
        (Ok true,
         World (Fs.State (<[output := out]> (Fs.files (fs w))) (Fs.dirs (fs w))
                         (Fs.rank (fs w)))
               (trace w ++ [OptimizeImage input output 80]))
    | None =>
        (Throw (lit "Failed to optimize " ++ Path.basename input []
                ++ lit ": "
                ++ match Fs.files (fs w) !! input with
                   | None => lit "Input file is missing"
                   | Some bytes =>
                       match webp E 80 bytes with
                       | None => lit "Input file contains unsupported image format"
                       | Some _ => lit "unable to open for write"
                       end
                   end),
         World (fs w) (trace w ++ [OptimizeImage input output 80]))
    end.
Proof.
  unfold optimizeImage, sharp_webp_toFile, try_catch, encoded.
  cbv [mbind M_bind mret M_ret emit get_fs put_fs throw option_bind]. simpl.
  destruct (Fs.files (fs w) !! input) as [bytes|]; simpl; [|done].
  destruct (webp E 80 bytes) as [out|]; simpl; [|done].
  by destruct (denied E output).
Qed.

(** One round of the loop. *)
Lemma batch_cons E s suffix file rest c1 c2 w :
  batch E s suffix (file :: rest) c1 c2 w
  = match (match s with
           | overwrite => mret tt
           | new_folder => ensureDir E (outputDirPath E suffix file)
           end) w with
    | (Ok _, w1) =>
        match optimizeImage E (inputPath E file) (outputPath E s suffix file) 80 w1 with
        | (Ok _, w2) => batch E s suffix rest (c1 + 1) c2 w2
        | (Throw err, w2) =>
            batch E s suffix rest c1 (c2 + 1)
                  (World (fs w2) (trace w2 ++ [Print (msg_error err)]))
        | (Exit c, w2) => (Exit c, w2)
        | (Waiting, w2) => (Waiting, w2)
        end
    | (Throw err, w1) => (Throw err, w1)
    | (Exit c, w1) => (Exit c, w1)
    | (Waiting, w1) => (Waiting, w1)
    end.
Proof.
  simpl. unfold inputPath. cbv [mbind M_bind try_catch mret M_ret].
  destruct s.
  - destruct (ensureDir E _ w) as [[| | |] w1]; try done.
    destruct (optimizeImage _ _ _ _ w1) as [[| | |] w2]; done.
  - destruct (optimizeImage _ _ _ _ w) as [[| | |] w2]; done.
Qed.

(** What one round of the loop does: either the output directory cannot
    be created and the loop is left with the error, or the file is handed
    to the worker and the loop goes on, whatever the worker's outcome. *)
Lemma batch_round E s suffix file rest c1 c2 w :
  (s = new_folder
   ∧ ∃ err, batch E s suffix (file :: rest) c1 c2 w
            = (Throw err,
               World (fs w) (trace w ++ [EnsureDir (outputDirPath E suffix file)])))
  ∨ ∃ w1,
      Fs.files (fs w1) = Fs.files (fs w)
      ∧ trace w1 = trace w ++ match s with
                              | new_folder => [EnsureDir (outputDirPath E suffix file)]
                              | overwrite => []
                              end
      ∧ ((∃ out,
            encoded E (fs w1) (inputPath E file) (outputPath E s suffix file) = Some out
            ∧ batch E s suffix (file :: rest) c1 c2 w
              = batch E s suffix rest (c1 + 1) c2
                  (World (Fs.State (<[outputPath E s suffix file := out]> (Fs.files (fs w1)))
                                   (Fs.dirs (fs w1)) (Fs.rank (fs w1)))
                         (trace w1 ++ [OptimizeImage (inputPath E file)
                                         (outputPath E s suffix file) 80])))
         ∨ (∃ err,
              encoded E (fs w1) (inputPath E file) (outputPath E s suffix file) = None
              ∧ batch E s suffix (file :: rest) c1 c2 w
                = batch E s suffix rest c1 (c2 + 1)
                    (World (fs w1)
                       (trace w1 ++ [OptimizeImage (inputPath E file)
                                       (outputPath E s suffix file) 80;
                                     Print (msg_error err)])))).
Proof.
  rewrite batch_cons.
  assert ((s = new_folder
           ∧ ∃ err, (match s with
                     | overwrite => mret tt
                     | new_folder => ensureDir E (outputDirPath E suffix file)
                     end) w
                    = (Throw err,
                       World (fs w) (trace w ++ [EnsureDir (outputDirPath E suffix file)])))
          ∨ ∃ w1, (match s with
                   | overwrite => mret tt
                   | new_folder => ensureDir E (outputDirPath E suffix file)
                   end) w = (Ok tt, w1)
                  ∧ Fs.files (fs w1) = Fs.files (fs w)
                  ∧ trace w1 = trace w ++ match s with
                       | new_folder => [EnsureDir (outputDirPath E suffix file)]
                       | overwrite => []
                       end) as [[Hs [err Herr]]|(w1 & Hw1 & Hfiles & Htrace)].
  { destruct s.
    - destruct (ensureDir_cases E (outputDirPath E suffix file) w) as [[dirs H]|[err H]].
      + right. eexists. split; [done|]. by split.
      + left. split; [done|]. by exists err.
    - right. exists w. split; [done|]. split; [done|]. by rewrite app_nil_r. }
  - left. split; [done|]. exists err. by rewrite Herr.
  - right. exists w1. split; [done|]. split; [done|].
    rewrite Hw1, optimizeImage_spec.
    destruct (encoded E (fs w1) _ _) as [out|] eqn:Henc.
    + left. by exists out.
    + right. eexists. split; [done|]. simpl. by rewrite <- app_assoc.
Qed.

Lemma encoded_agree E σ σ' input output :
  Fs.files σ !! input = Fs.files σ' !! input →
  encoded E σ input output = encoded E σ' input output.
Proof. unfold encoded. by intros ->. Qed.

(** The loop writes output files only. *)
Lemma batch_frame E s suffix files : ∀ c1 c2 w p,
  (∀ f, f ∈ files → outputPath E s suffix f ≠ p) →
  Fs.files (fs (batch E s suffix files c1 c2 w).2) !! p = Fs.files (fs w) !! p.
Proof.
  induction files as [|file rest IH]; intros c1 c2 w p Hp; [done|].
  destruct (batch_round E s suffix file rest c1 c2 w)
    as [[_ [err ->]]|(w1 & Hfiles & _ & [(out & _ & ->)|(err & _ & ->)])].
  - done.
  - rewrite IH by (intros; apply Hp; by right). simpl.
    rewrite lookup_insert_ne by (apply Hp; by left). by rewrite Hfiles.
  - rewrite IH by (intros; apply Hp; by right). simpl. by rewrite Hfiles.
Qed.

(** The loop ends by returning its counters or by throwing. *)
Lemma batch_result E s suffix files : ∀ c1 c2 w,
  (∃ counts, (batch E s suffix files c1 c2 w).1 = Ok counts)
  ∨ (s = new_folder ∧ ∃ err, (batch E s suffix files c1 c2 w).1 = Throw err).
Proof.
  induction files as [|file rest IH]; intros c1 c2 w; [left; by eexists|].
  destruct (batch_round E s suffix file rest c1 c2 w)
    as [[Hs [err ->]]|(w1 & _ & _ & [(out & _ & ->)|(err & _ & ->)])].
  - right. split; [done|]. by exists err.
  - apply IH.
  - apply IH.
Qed.

(** ** Inputs and outputs never coincide *)

Lemma extname_input E g :
  scanned g →
  ∃ e, e ∈ extensions ∧ Path.extname g = CHAR_DOT :: e
       ∧ Path.extname (inputPath E g) = CHAR_DOT :: e.
Proof.
  intros (ds & stem & e & Hg & Hds & Hv & Hs & He & _ & Hext & _)%scanned_parts.
  exists e. split; [done|]. split; [done|].
  destruct (extension_facts e He) as (Hne & Hes & Hed).
  rewrite Hg, inputPath_scanned by done. rewrite unsplit_last.
  rewrite (app_comm_cons _ _ CHAR_FORWARD_SLASH), app_assoc.
  apply extname_split; try done; [|by destruct Hv].
  right. case_bool_decide.
  - by exists (publicDir E).
  - exists (publicDir E ++ CHAR_FORWARD_SLASH :: unsplit ds).
    by rewrite <- app_assoc.
Qed.

Lemma outputPath_last E s suffix f :
  scanned f →
  ∃ pre stem,
    boundary pre ∧ visible stem ∧ (CHAR_FORWARD_SLASH ∉ stem)
    ∧ Path.basename f (Path.extname f) = stem
    ∧ outputPath E s suffix f = pre ++ stem ++ lit ".webp".
Proof.
  intros (ds & stem & e & Hf & Hds & Hv & Hs & He & _ & Hext & Hbase)%scanned_parts.
  assert (∃ x, x ≠ [] ∧ outputPath E s suffix f
                         = Path.join [x; stem ++ lit ".webp"]) as (x & Hx & ->).
  { unfold outputPath. rewrite Hext, Hbase. destruct s.
    - eexists. split; [|done]. apply join_nonempty.
    - eexists. split; [|symmetry; apply join_join].
      + apply join_nonempty.
      + apply publicDir_nonempty.
      + by destruct stem, Hv. }
  rewrite join2 by (done || by destruct stem, Hv).
  destruct (normalize_last x (stem ++ lit ".webp") Hx) as (pre & Hpre & ->).
  { by apply plain_webp. }
  exists pre, stem. rewrite Hext. by split_and!.
Qed.

Lemma extname_output E s suffix f :
  scanned f → Path.extname (outputPath E s suffix f) = lit ".webp".
Proof.
  intros (pre & stem & Hpre & Hv & Hs & _ & ->)%(outputPath_last E s suffix).
  destruct webp_facts as (Hne & Hws & Hwd & _).
  rewrite dot_webp. apply extname_split; try done. by destruct Hv.
Qed.

Lemma inputs_ne_outputs E s suffix f g :
  scanned f → scanned g → inputPath E g ≠ outputPath E s suffix f.
Proof.
  intros Hf (e & He & _ & Hin)%(extname_input E) Heq.
  rewrite Heq, extname_output in Hin by done.
  rewrite dot_webp in Hin. injection Hin as <-.
  by destruct webp_facts as (_ & _ & _ & ?).
Qed.

(** ** The loop, file by file *)

Lemma optimized_app t1 t2 : optimized (t1 ++ t2) = optimized t1 ++ optimized t2.
Proof. apply omap_app. Qed.

Lemma printed_app t1 t2 : printed (t1 ++ t2) = printed t1 ++ printed t2.
Proof. apply omap_app. Qed.

Lemma prompted_app t1 t2 : prompted (t1 ++ t2) = prompted t1 ++ prompted t2.
Proof. apply omap_app. Qed.

Section batch.
Context (E : env) (s : strategy) (suffix : jsstring) (σ0 : Fs.state).
Context (all : list jsstring).
Context (Hall : ∀ f g, f ∈ all → g ∈ all →
                       inputPath E g ≠ outputPath E s suffix f).

Let conv (f : jsstring) : Prop := converts E σ0 s suffix f = true.
Let io (f : jsstring) := (inputPath E f, outputPath E s suffix f).

Lemma batch_spec files : ∀ c1 c2 w,
  files ⊆ all →
  (∀ g, g ∈ all →
        Fs.files (fs w) !! inputPath E g = Fs.files σ0 !! inputPath E g) →
  (∀ err, (batch E s suffix files c1 c2 w).1 ≠ Throw err) →
  ∃ w' errs,
    batch E s suffix files c1 c2 w
    = (Ok (c1 + Z.of_nat (length (filter conv files)),
           c2 + Z.of_nat (length errs)), w')
    ∧ length errs = length (filter (λ f, ¬ conv f) files)
    ∧ optimized (trace w') = optimized (trace w) ++ (io <$> files)
    ∧ printed (trace w') = printed (trace w) ++ (msg_error <$> errs)
    ∧ (∀ p, is_Some (Fs.files (fs w) !! p) → is_Some (Fs.files (fs w') !! p))
    ∧ (∀ f, f ∈ files → conv f →
            is_Some (Fs.files (fs w') !! outputPath E s suffix f))
    ∧ (∀ g, g ∈ all →
            Fs.files (fs w') !! inputPath E g = Fs.files σ0 !! inputPath E g).
Proof.
  induction files as [|file rest IH]; intros c1 c2 w Hsub Hinv Hno.
  { exists w, []. simpl. rewrite !Z.add_0_r, !app_nil_r. split_and!; try done.
    by intros f ?%elem_of_nil. }
  assert (file ∈ all) as Hfile by (apply Hsub; by left).
  assert (rest ⊆ all) as Hrest by (intros x Hx; apply Hsub; by right).
  destruct (batch_round E s suffix file rest c1 c2 w)
    as [[_ [err Herr]]|(w1 & Hfiles & Htrace & Hround)].
  { exfalso. apply (Hno err). by rewrite Herr. }
  assert (encoded E (fs w1) (inputPath E file) (outputPath E s suffix file)
          = encoded E σ0 (inputPath E file) (outputPath E s suffix file)) as Henc.
  { apply encoded_agree. rewrite Hfiles. by apply Hinv. }
  assert (optimized (trace w1) = optimized (trace w)
          ∧ printed (trace w1) = printed (trace w)) as [Ho1 Hp1].
  { rewrite Htrace, optimized_app, printed_app. destruct s; by rewrite !app_nil_r. }
  destruct Hround as [(out & Hout & Heq)|(err & Hnone & Heq)].
  - assert (conv file) as Hconv.
    { unfold conv, converts. rewrite <- Henc, Hout. by apply bool_decide_eq_true. }
    rewrite Heq in Hno |- *.
    match type of Hno with
    | ∀ err, (batch _ _ _ _ _ _ ?w2).1 ≠ _ =>
        destruct (IH (c1 + 1) c2 w2 Hrest)
          as (w' & errs & -> & Hlen & Hopt & Hpr & Hmono & Hex & Hinv');
          [|done|]
    end.
    { intros g Hg. simpl. rewrite lookup_insert_ne
        by (intros Hx; exact (Hall file g Hfile Hg (eq_sym Hx))).
      rewrite Hfiles. by apply Hinv. }
    exists w', errs. rewrite !filter_cons_True by (done || tauto).
    rewrite filter_cons_False by tauto.
    simpl in Hopt, Hpr. rewrite optimized_app, Ho1 in Hopt.
    rewrite printed_app, Hp1, app_nil_r in Hpr.
    split_and!; try done.
    + simpl length. rewrite Nat2Z.inj_succ.
      by replace (c1 + Z.succ (Z.of_nat (length (filter conv rest))))
        with (c1 + 1 + Z.of_nat (length (filter conv rest))) by lia.
    + rewrite Hopt. simpl. by rewrite <- app_assoc.
    + intros p Hp. apply Hmono. simpl.
      destruct (decide (outputPath E s suffix file = p)) as [->|Hne].
      * by rewrite lookup_insert_eq.
      * rewrite lookup_insert_ne by done. by rewrite Hfiles.
    + intros f [->|Hf]%elem_of_cons Hc.
      * apply Hmono. simpl. by rewrite lookup_insert_eq.
      * by apply Hex.
  - assert (¬ conv file) as Hconv.
    { unfold conv, converts. rewrite <- Henc, Hnone.
      rewrite bool_decide_false; [done|]. by intros [? ?]. }
    rewrite Heq in Hno |- *.
    match type of Hno with
    | ∀ err, (batch _ _ _ _ _ _ ?w2).1 ≠ _ =>
        destruct (IH c1 (c2 + 1) w2 Hrest)
          as (w' & errs & -> & Hlen & Hopt & Hpr & Hmono & Hex & Hinv');
          [|done|]
    end.
    { intros g Hg. simpl. rewrite Hfiles. by apply Hinv. }
    exists w', (err :: errs). rewrite filter_cons_False by done.
    rewrite filter_cons_True by done.
    simpl in Hopt, Hpr. rewrite optimized_app, Ho1 in Hopt.
    rewrite printed_app, Hp1 in Hpr.
    split_and!; try done.
    + simpl length. rewrite Nat2Z.inj_succ.
      by replace (c2 + Z.succ (Z.of_nat (length errs)))
        with (c2 + 1 + Z.of_nat (length errs)) by lia.
    + simpl. by rewrite Hlen.
    + rewrite Hopt. simpl. by rewrite <- app_assoc.
    + rewrite Hpr. simpl. by rewrite <- app_assoc.
    + intros p Hp. apply Hmono. simpl. by rewrite Hfiles.
    + intros f [->|Hf]%elem_of_cons Hc; [done|by apply Hex].
Qed.

End batch.

(** ** The selection *)

Lemma unique_from_spec seen xs x :
  x ∈ unique_from seen xs ↔ x ∈ xs ∧ x ∉ seen.
Proof.
  revert seen. induction xs as [|y xs IH]; intros seen; simpl.
  - rewrite elem_of_nil. naive_solver.
  - case_bool_decide as Hy.
    + rewrite IH, elem_of_cons. naive_solver.
    + rewrite !elem_of_cons, IH, elem_of_cons.
      destruct (decide (x = y)); naive_solver.
Qed.

Lemma unique_spec xs x : x ∈ unique xs ↔ x ∈ xs.
Proof.
  unfold unique. rewrite unique_from_spec. split; [naive_solver|].
  intros ?. split; [done|]. apply not_elem_of_nil.
Qed.

Lemma selectByFolder_spec imageFiles dirs f :
  f ∈ selectByFolder imageFiles dirs ↔ f ∈ imageFiles ∧ Path.dirname f ∈ dirs.
Proof. unfold selectByFolder. rewrite list_elem_of_filter. naive_solver. Qed.

Lemma ticked_spec choices picks c :
  c ∈ ticked choices picks ↔ c ∈ choices ∧ c ∈ picks.
Proof. unfold ticked. rewrite list_elem_of_filter. naive_solver. Qed.

Lemma selectedFilesOf_subset E imageFiles files :
  selectedFilesOf E imageFiles = Some files → files ⊆ imageFiles.
Proof.
  unfold selectedFilesOf. destruct (a_selectionMode (user E)).
  - by intros [= ->].
  - destruct (_ <? _)%nat; [done|]. intros [= <-] f.
    rewrite selectByFolder_spec. naive_solver.
  - destruct (_ <? _)%nat; [done|]. intros [= <-] f.
    rewrite ticked_spec. naive_solver.
Qed.

(** ** The ways [main] can go *)

Lemma glob_sync_spec E w :
  glob_sync scanPattern (publicDir E) w = (Ok (imageFilesOf E (fs w)), w).
Proof. done. Qed.



Lemma main_cases E w :
  let imageFiles := imageFilesOf E (fs w) in
  (Fs.existsSync (publicDir E) (fs w) = false
   ∧ main E w = (Exit 1, World (fs w) (trace w ++ [Print msg_banner;
                                                   Print msg_public_not_found])))
  ∨ (Fs.existsSync (publicDir E) (fs w) = true ∧ imageFiles = []
     ∧ main E w = (Ok tt, World (fs w) (trace w ++ preamble E ++ [Print msg_no_images])))
  ∨ (Fs.existsSync (publicDir E) (fs w) = true ∧ imageFiles ≠ []
     ∧ selectedFilesOf E imageFiles = None
     ∧ main E w = (Waiting,
                   World (fs w)
                     (trace w ++ preamble E
                      ++ [Print (msg_found (length imageFiles))]
                      ++ selectPrompts E)))
  ∨ ∃ files w1,
      Fs.existsSync (publicDir E) (fs w) = true ∧ imageFiles ≠ []
      ∧ selectedFilesOf E imageFiles = Some files
      ∧ fs w1 = fs w
      ∧ trace w1 = trace w ++ preamble E
                   ++ [Print (msg_found (length imageFiles))]
                   ++ selectPrompts E
                   ++ [Print (msg_selected (length files))]
                   ++ strategyPrompts E ++ [Prompt p_confirm]
      ∧ ((a_confirm (user E) = false
          ∧ main E w = (Exit 0, World (fs w1) (trace w1 ++ [Print msg_cancelled])))
         ∨ (a_confirm (user E) = true
            ∧ main E w = execute E (a_strategy (user E)) (suffixOf E) files w1)).
Proof.
  intros imageFiles. unfold main.
  cbv [mbind M_bind mret M_ret console_log emit existsSync glob_sync get_fs
       process_exit prompt]. simpl.
  destruct (Fs.existsSync (publicDir E) (fs w)) eqn:Hex; simpl;
    [|left; split; [done|]; by rewrite <- app_assoc].
  right. fold (imageFilesOf E (fs w)). fold imageFiles.
  case_bool_decide as Himg.
  { left. split; [done|]. split; [by destruct imageFiles|].
    unfold preamble. simpl. by rewrite <- !app_assoc. }
  right. assert (imageFiles ≠ []) as Hne by (by intros Hnil; rewrite Hnil in Himg).
  rewrite select_spec. simpl.
  destruct (selectedFilesOf E imageFiles) as [files|] eqn:Hsel.
  2:{ left. split_and!; try done. unfold preamble. simpl. by rewrite <- !app_assoc. }
  right. rewrite chooseStrategy_spec. simpl.
  exists files,
    (World (fs w)
       (trace w ++ preamble E ++ [Print (msg_found (length imageFiles))]
        ++ selectPrompts E ++ [Print (msg_selected (length files))]
        ++ strategyPrompts E ++ [Prompt p_confirm])).
  split_and!; try done.
  destruct (a_confirm (user E)); simpl.
  - right. split; [done|]. f_equal. f_equal. unfold preamble.
    rewrite <- ?app_assoc. simpl. reflexivity.
  - left. split; [done|]. do 2 f_equal.
    unfold preamble, selectPrompts, strategyPrompts.
    destruct (a_selectionMode (user E)), (a_strategy (user E)); simpl;
      rewrite <- ?app_assoc; reflexivity.
Qed.

(** ** Checking an example *)

Lemma wf_check σ :
  forallb (λ kv, pathOk kv.1) (map_to_list (Fs.files σ)) = true → wf σ.
Proof.
  intros H p v Hp. rewrite forallb_forall in H.
  apply (H (p, v)). apply list_elem_of_In. by apply elem_of_map_to_list.
Qed.

Lemma elem_of_check (x : jsstring) (l : list jsstring) :
  bool_decide (x ∈ l) = true → x ∈ l.
Proof. apply bool_decide_eq_true_1. Qed.

Lemma is_Some_check {A} (o : option A) :
  bool_decide (is_Some o) = true → is_Some o.
Proof. apply bool_decide_eq_true_1. Qed.

Lemma plain_optimized : plain (lit "_optimized").
Proof.
  split; [split; [done|]|done].
  cbv [lit String.list_ascii_of_string CHAR_FORWARD_SLASH]. set_solver.
Qed.

Lemma not_elem_of_check (x : jsstring) (X : gset jsstring) :
  bool_decide (x ∈ X) = false → x ∉ X.
Proof. apply bool_decide_eq_false_1. Qed.

(** ** The execution and the run *)

Lemma execute_spec E s suffix files w :
  execute E s suffix files w
  = match batch E s suffix files 0 0 w with
    | (Ok counts, w') => report s counts.1 counts.2 w'
    | (Throw err, w') => (Throw err, w')
    | (Exit code, w') => (Exit code, w')
    | (Waiting, w') => (Waiting, w')
    end.
Proof. done. Qed.

Lemma execute_result E s suffix files w :
  (execute E s suffix files w).1 = Ok tt
  ∨ (s = new_folder ∧ ∃ err, (execute E s suffix files w).1 = Throw err).
Proof.
  rewrite execute_spec.
  destruct (batch_result E s suffix files 0 0 w) as [[counts H]|[Hs [err H]]];
    destruct (batch _ _ _ _ _ _ _) as [r w']; simpl in H; subst r.
  - left. by rewrite report_spec.
  - right. split; [done|]. by exists err.
Qed.

Lemma execute_frame E s suffix files w p :
  (∀ f, f ∈ files → outputPath E s suffix f ≠ p) →
  Fs.files (fs (execute E s suffix files w).2) !! p = Fs.files (fs w) !! p.
Proof.
  intros Hp. rewrite <- (batch_frame E s suffix files 0 0 w p Hp).
  rewrite execute_spec. destruct (batch _ _ _ _ _ _ _) as [[counts| | |] w']; try done.
  by rewrite report_spec.
Qed.

Lemma run_fs E w : fs (run E w).2 = fs (main E w).2.
Proof. unfold run. by destruct (main E w) as [[| | |] ?]. Qed.

(** The run writes output files only. *)
Lemma run_frame E w p :
  (∀ f, f ∈ imageFilesOf E (fs w) →
        outputPath E (a_strategy (user E)) (suffixOf E) f ≠ p) →
  Fs.files (fs (run E w).2) !! p = Fs.files (fs w) !! p.
Proof.
  intros Hp. rewrite run_fs.
  destruct (main_cases E w)
    as [[_ ->]|[(_ & _ & ->)|[(_ & _ & _ & ->)
        |(files & w1 & _ & _ & Hsel & Hfs & _ & [[_ ->]|[_ ->]])]]]; try done.
  - simpl. by rewrite Hfs.
  - rewrite execute_frame, Hfs; [done|].
    intros f Hf. apply Hp. by eapply selectedFilesOf_subset.
Qed.

(** ** The loop, in parts *)

Lemma batch_app E s suffix l1 l2 : ∀ c1 c2 w,
  batch E s suffix (l1 ++ l2) c1 c2 w
  = match batch E s suffix l1 c1 c2 w with
    | (Ok counts, w1) => batch E s suffix l2 counts.1 counts.2 w1
    | (Throw err, w1) => (Throw err, w1)
    | (Exit c, w1) => (Exit c, w1)
    | (Waiting, w1) => (Waiting, w1)
    end.
Proof.
  induction l1 as [|file rest IH]; intros c1 c2 w; [done|].
  rewrite <- app_comm_cons, !batch_cons.
  destruct s.
  - destruct (ensureDir E _ w) as [[[]| | |] w1]; try done.
    destruct (optimizeImage E _ _ 80 w1) as [[?| | |] w2]; try done; apply IH.
  - simpl. destruct (optimizeImage E _ _ 80 _) as [[?| | |] w2]; try done; apply IH.
Qed.

Lemma ancestors_from_last cur s : cur ++ s ∈ Fs.ancestors_from cur s.
Proof.
  revert cur. induction s as [|c s IH]; intros cur; simpl.
  - rewrite app_nil_r. by left.
  - apply elem_of_app. right.
    replace (cur ++ c :: s) with ((cur ++ [c]) ++ s) by (by rewrite <- app_assoc).
    apply IH.
Qed.

Lemma ancestors_self p : p ∈ Fs.ancestors p.
Proof. apply (ancestors_from_last [] p). Qed.

(** One round of the loop, with what it leaves. *)
Lemma batch_step E s suffix file rest c1 c2 w :
  let d := outputDirPath E suffix file in
  let i := inputPath E file in
  let o := outputPath E s suffix file in
  let w1 := match s with
            | overwrite => w
            | new_folder =>
                World (Fs.State (Fs.files (fs w))
                                (list_to_set (Fs.ancestors d) ∪ Fs.dirs (fs w))
                                (Fs.rank (fs w)))
                      (trace w ++ [EnsureDir d])
            end in
  (s = new_folder
   ∧ ∃ err, ensureDir E d w = (Throw err, World (fs w) (trace w ++ [EnsureDir d]))
            ∧ batch E s suffix (file :: rest) c1 c2 w
              = (Throw err, World (fs w) (trace w ++ [EnsureDir d])))
  ∨ ∃ cause,
      batch E s suffix (file :: rest) c1 c2 w
      = match encoded E (fs w1) i o with
        | Some out =>
            batch E s suffix rest (c1 + 1) c2
              (World (Fs.State (<[o := out]> (Fs.files (fs w1))) (Fs.dirs (fs w1))
                               (Fs.rank (fs w1)))
                     (trace w1 ++ [OptimizeImage i o 80]))
        | None =>
            batch E s suffix rest c1 (c2 + 1)
              (World (fs w1)
                 (trace w1 ++ [OptimizeImage i o 80;
                               Print (msg_error (lit "Failed to optimize "
                                                 ++ Path.basename i []
                                                 ++ lit ": " ++ cause))]))
        end.
Proof.
  intros d i o w1. rewrite batch_cons. fold d i o.
  destruct s.
  - assert (ensureDir E d w = (Ok tt, w1)
            ∨ ∃ err, ensureDir E d w
                     = (Throw err, World (fs w) (trace w ++ [EnsureDir d])))
      as [Hd|[err Hd]].
    { unfold ensureDir. cbv [mbind M_bind mret M_ret emit get_fs put_fs throw].
      simpl. destruct (mkdirFails _ _ _); [right|left]; by eexists. }
    + right. rewrite Hd, optimizeImage_spec.
      eexists. destruct (encoded E (fs w1) i o); [done|].
      simpl. by rewrite <- app_assoc.
    + left. split; [done|]. exists err. by rewrite Hd.
  - right. unfold mret, M_ret. cbv beta iota. rewrite optimizeImage_spec.
    subst w1. eexists. destruct (encoded E (fs w) i o); [done|].
    simpl. by rewrite <- app_assoc.
Qed.


(** What holds of the loop however it ends. *)
Lemma batch_any E s suffix files : ∀ c1 c2 w,
  (∀ p, is_Some (Fs.files (fs w) !! p)
        → is_Some (Fs.files (fs (batch E s suffix files c1 c2 w).2) !! p))
  ∧ Fs.dirs (fs w) ⊆ Fs.dirs (fs (batch E s suffix files c1 c2 w).2)
  ∧ (s = overwrite → Fs.dirs (fs (batch E s suffix files c1 c2 w).2) = Fs.dirs (fs w))
  ∧ ∃ t, trace (batch E s suffix files c1 c2 w).2 = trace w ++ t
         ∧ Forall (loopEvent s) t.
Proof.
  induction files as [|file rest IH]; intros c1 c2 w.
  { split_and!; [done|reflexivity|done|]. exists []. by rewrite app_nil_r. }
    destruct (batch_step E s suffix file rest c1 c2 w)
    as [(Hs & err & _ & ->)|[cause ->]].
  { simpl. split_and!; [done|reflexivity|by rewrite Hs|].
    exists [EnsureDir (outputDirPath E suffix file)]. split; [done|].
    by apply Forall_singleton. }
  set (w1 := match s with overwrite => w | new_folder => _ end).
  assert (Fs.files (fs w1) = Fs.files (fs w)) as Hfiles by (by destruct s).
  assert (Fs.dirs (fs w) ⊆ Fs.dirs (fs w1)) as Hdirs
    by (destruct s; simpl; [apply union_subseteq_r|reflexivity]).
  assert (s = overwrite → w1 = w) as Hover by (by intros ->).
  assert (∃ t1, trace w1 = trace w ++ t1 ∧ Forall (loopEvent s) t1)
    as (t1 & Ht1 & Hl1).
  { destruct s; simpl.
    - eexists. split; [done|]. by apply Forall_singleton.
    - exists []. by rewrite app_nil_r. }
  destruct (encoded E (fs w1) _ _) as [out|];
    match goal with
    | |- context [batch E s suffix rest ?a ?b ?w2] =>
        destruct (IH a b w2) as (Hkeep & Hsub & Heq & t & Ht & Hl)
    end; cbn [fs trace Fs.files Fs.dirs] in Hkeep, Hsub, Heq, Ht.
  - split_and!.
    + intros p Hp. apply Hkeep.
      destruct (decide (outputPath E s suffix file = p)) as [->|Hne].
      * by rewrite lookup_insert_eq.
      * rewrite lookup_insert_ne by done. by rewrite Hfiles.
    + etrans; [apply Hdirs|apply Hsub].
    + intros Hs. by rewrite Heq, Hover.
    + exists (t1 ++ OptimizeImage (inputPath E file) (outputPath E s suffix file) 80 :: t).
      split.
      * rewrite Ht, Ht1, <- !app_assoc. done.
      * apply Forall_app. split; [done|]. by constructor.
  - split_and!.
    + intros p Hp. apply Hkeep. by rewrite Hfiles.
    + etrans; [apply Hdirs|apply Hsub].
    + intros Hs. by rewrite Heq, Hover.
    + eexists (t1 ++ [_; _] ++ t). split.
      * rewrite Ht, Ht1, <- !app_assoc. done.
      * apply Forall_app. split; [done|]. by repeat constructor.
Qed.


Lemma calls_app t1 t2 : calls (t1 ++ t2) = calls t1 ++ calls t2.
Proof. apply omap_app. Qed.


(** What holds of a loop that reaches its end. *)
Lemma batch_ok E s suffix files : ∀ c1 c2 w n m w',
  batch E s suffix files c1 c2 w = (Ok (n, m), w') →
  ∃ t errs,
    trace w' = trace w ++ t
    ∧ calls t = flat_map (callsFor E s suffix) files
    ∧ printed t = msg_error <$> errs
    ∧ Forall (λ err, ∃ f cause,
                f ∈ files
                ∧ err = lit "Failed to optimize "
                        ++ Path.basename (inputPath E f) [] ++ lit ": " ++ cause) errs
    ∧ n = c1 + Z.of_nat (length files) - Z.of_nat (length errs)
    ∧ m = c2 + Z.of_nat (length errs)
    ∧ (length errs ≤ length files)%nat
    ∧ (s = new_folder →
       ∀ f, f ∈ files → outputDirPath E suffix f ∈ Fs.dirs (fs w')).
Proof.
  induction files as [|file rest IH]; intros c1 c2 w n m w' Hb.
  { injection Hb as <- <- <-. exists [], []. rewrite app_nil_r. simpl.
    split_and!; try done; try lia. intros _ f Hf. by apply elem_of_nil in Hf. }
  destruct (batch_step E s suffix file rest c1 c2 w)
    as [(Hs & err & _ & Hthrow)|[cause Hstep]]; [by rewrite Hthrow in Hb|].
  rewrite Hstep in Hb. clear Hstep.
  set (w1 := match s with overwrite => w | new_folder => _ end) in Hb.
  assert (∃ t1, trace w1 = trace w ++ t1
                ∧ t1 ++ [OptimizeImage (inputPath E file) (outputPath E s suffix file) 80]
                  = callsFor E s suffix file
                ∧ calls t1 = t1 ∧ printed t1 = [])
    as (t1 & Ht1 & Hc1 & Hcc & Hp1).
  { unfold callsFor. destruct s; simpl.
    - by eexists.
    - exists []. by rewrite app_nil_r. }
  assert (s = new_folder → outputDirPath E suffix file ∈ Fs.dirs (fs w1)) as Hd1.
  { intros ->. simpl. apply elem_of_union_l, elem_of_list_to_set, ancestors_self. }
  destruct (encoded E (fs w1) _ _) as [out|];
    (match type of Hb with
     | batch _ _ _ _ ?a ?b ?w2 = _ =>
         destruct (batch_any E s suffix rest a b w2) as (_ & Hsub & _)
     end);
    rewrite Hb in Hsub;
    apply IH in Hb as (t & errs & Ht & Hcalls & Hpr & Hmsg & -> & -> & Hlen & Hdirs);
    cbn [fs trace Fs.files Fs.dirs snd] in Ht, Hsub.
  - exists (t1 ++ OptimizeImage (inputPath E file) (outputPath E s suffix file) 80 :: t),
           errs.
    split_and!.
    + by rewrite Ht, Ht1, <- !app_assoc.
    + rewrite (cons_middle _ t1 t), app_assoc, calls_app, Hcalls.
      rewrite calls_app, Hcc. simpl. by rewrite <- Hc1.
    + by rewrite (cons_middle _ t1 t), app_assoc, !printed_app, Hp1, Hpr.
    + eapply Forall_impl; [done|]. intros err (f & c & Hf & ->).
      exists f, c. split; [by right|done].
    + simpl length. lia.
    + lia.
    + simpl length. lia.
    + intros Hs f [->|Hf]%elem_of_cons; [|by apply Hdirs].
      by apply Hsub, Hd1.
  - eexists (t1 ++ [_; _] ++ t), (_ :: errs).
    split_and!.
    + rewrite Ht, Ht1, <- !app_assoc. done.
    + rewrite !calls_app, Hcalls, Hcc. simpl. rewrite <- Hc1.
      by rewrite <- app_assoc.
    + rewrite !printed_app, Hp1, Hpr. done.
    + constructor.
      * eexists file, _. split; [by left|done].
      * eapply Forall_impl; [done|]. intros err (f & c & Hf & ->).
        exists f, c. split; [by right|done].
    + simpl length. lia.
    + simpl length. lia.
    + simpl length. lia.
    + intros Hs f [->|Hf]%elem_of_cons; [|by apply Hdirs].
      by apply Hsub, Hd1.
Qed.

Lemma optimized_calls t : optimized (calls t) = optimized t.
Proof.
  induction t as [|[m|n|d|i o q] t IH]; simpl; try done. by rewrite IH.
Qed.

Lemma optimized_callsFor E s suffix files :
  optimized (flat_map (callsFor E s suffix) files)
  = (λ f, (inputPath E f, outputPath E s suffix f)) <$> files.
Proof.
  induction files as [|f files IH]; [done|].
  simpl. rewrite optimized_app, IH. unfold callsFor. by destruct s.
Qed.

Lemma execute_fs E s suffix files w :
  fs (execute E s suffix files w).2 = fs (batch E s suffix files 0 0 w).2.
Proof.
  rewrite execute_spec.
  destruct (batch E s suffix files 0 0 w) as [[counts| | |] w1]; try done.
  by rewrite report_spec.
Qed.

Lemma execute_ok E s suffix files w w' :
  execute E s suffix files w = (Ok tt, w') →
  ∃ n m w1,
    batch E s suffix files 0 0 w = (Ok (n, m), w1)
    ∧ fs w' = fs w1
    ∧ trace w' = trace w1 ++ [Print msg_complete; Print (msg_processed n)]
                 ++ (if m >? 0 then [Print (msg_failed m)] else [])
                 ++ match s with
                    | overwrite => [Print msg_overwrite_note]
                    | new_folder => []
                    end.
Proof.
  rewrite execute_spec.
  destruct (batch E s suffix files 0 0 w) as [[[n m]| | |] w1]; try done.
  rewrite report_spec. intros [= <-]. by exists n, m, w1.
Qed.

(** ** A directory that cannot be made *)

Lemma ensureDir_fails E dir w :
  mkdirFails E (fs w) dir = true →
  ensureDir E dir w
  = (Throw (mkdirError (fs w) dir), World (fs w) (trace w ++ [EnsureDir dir])).
Proof.
  intros H. unfold ensureDir. cbv [mbind M_bind mret M_ret emit get_fs put_fs throw].
  cbn [fs trace]. by rewrite H.
Qed.

Lemma ensureDir_throws E dir w err w' :
  ensureDir E dir w = (Throw err, w') → mkdirFails E (fs w) dir = true.
Proof.
  unfold ensureDir. cbv [mbind M_bind mret M_ret emit get_fs put_fs throw].
  cbn [fs trace]. by destruct (mkdirFails E (fs w) dir).
Qed.

Lemma mkdirFails_mono E σ σ' dir :
  (∀ p, is_Some (Fs.files σ !! p) → is_Some (Fs.files σ' !! p)) →
  mkdirFails E σ dir = true → mkdirFails E σ' dir = true.
Proof.
  intros Hsub. unfold mkdirFails. rewrite !existsb_exists.
  intros (d & Hd & [Hf|Hden]%orb_true_iff); exists d; (split; [done|]);
    apply orb_true_iff; [left|by right].
  apply bool_decide_eq_true. apply bool_decide_eq_true in Hf. by apply Hsub.
Qed.

(** Once the directory of [f] cannot be made, the loop does not get past
    [f]: the error leaves it at [f] or before. *)
Lemma batch_blocked E suffix f after : ∀ before c1 c2 w,
  mkdirFails E (fs w) (outputDirPath E suffix f) = true →
  ∃ done_ errs err w',
    done_ `prefix_of` before
    ∧ batch E new_folder suffix (before ++ f :: after) c1 c2 w = (Throw err, w')
    ∧ optimized (trace w')
      = optimized (trace w)
        ++ ((λ g, (inputPath E g, outputPath E new_folder suffix g)) <$> done_)
    ∧ printed (trace w') = printed (trace w) ++ (msg_error <$> errs).
Proof.
  induction before as [|g before IH]; intros c1 c2 w Hf.
  { exists [], [], (mkdirError (fs w) (outputDirPath E suffix f)). eexists.
    split; [done|]. cbn [app]. rewrite batch_cons, ensureDir_fails by done.
    split; [done|]. cbn [snd trace].
    rewrite optimized_app, printed_app. by rewrite !app_nil_r. }
  rewrite <- app_comm_cons.
  destruct (batch_step E new_folder suffix g (before ++ f :: after) c1 c2 w)
    as [(_ & err & _ & ->)|[cause ->]].
  { exists [], [], err. eexists. split; [apply prefix_nil|]. split; [done|].
    cbn [snd trace]. rewrite optimized_app, printed_app. by rewrite !app_nil_r. }
  cbv zeta.
  set (w1 := World _ (trace w ++ [EnsureDir _])).
  assert (mkdirFails E (fs w1) (outputDirPath E suffix f) = true) as Hf1
    by (revert Hf; by apply mkdirFails_mono).
  destruct (encoded E (fs w1) _ _) as [out|].
  - match goal with
    | |- context [batch E new_folder suffix _ ?a ?b ?w2] =>
        destruct (IH a b w2) as (done_ & errs & err & w' & Hpre & -> & Hopt & Hpr)
    end.
    { revert Hf1. apply mkdirFails_mono. intros p Hp. cbn [fs Fs.files].
      destruct (decide (outputPath E new_folder suffix g = p)) as [->|Hne].
      - by rewrite lookup_insert_eq.
      - by rewrite lookup_insert_ne. }
    exists (g :: done_), errs, err, w'. split; [by apply prefix_cons|].
    split; [done|]. cbn [fs trace] in Hopt, Hpr. rewrite Hopt, Hpr.
    unfold w1. cbn [trace]. rewrite !optimized_app, !printed_app. simpl.
    by rewrite !app_nil_r, <- !app_assoc.
  - match goal with
    | |- context [batch E new_folder suffix _ ?a ?b ?w2] =>
        destruct (IH a b w2) as (done_ & errs & err & w' & Hpre & -> & Hopt & Hpr)
    end; [done|].
    eexists (g :: done_), (_ :: errs), err, w'. split; [by apply prefix_cons|].
    split; [done|]. cbn [fs trace] in Hopt, Hpr. rewrite Hopt, Hpr.
    unfold w1. cbn [trace]. rewrite !optimized_app, !printed_app. simpl.
    by rewrite !app_nil_r, <- !app_assoc.
Qed.

(** ** Directories that can all be made *)

Lemma batch_clear E suffix σ0 outs files : ∀ c1 c2 w,
  (∀ p, is_Some (Fs.files (fs w) !! p) → is_Some (Fs.files σ0 !! p) ∨ p ∈ outs) →
  (∀ g, g ∈ files → outputPath E new_folder suffix g ∈ outs) →
  (∀ g, g ∈ files → free E σ0 outs (outputDirPath E suffix g) = true) →
  ∀ err, (batch E new_folder suffix files c1 c2 w).1 ≠ Throw err.
Proof.
  induction files as [|g files IH]; intros c1 c2 w Hinv Hout Hfree err; [done|].
  assert (∀ h, h ∈ files → outputPath E new_folder suffix h ∈ outs) as Hout'
    by (intros h Hh; apply Hout; by right).
  assert (∀ h, h ∈ files → free E σ0 outs (outputDirPath E suffix h) = true)
    as Hfree' by (intros h Hh; apply Hfree; by right).
  destruct (batch_step E new_folder suffix g files c1 c2 w)
    as [(_ & err' & Hd & _)|[cause ->]].
  { exfalso. apply ensureDir_throws in Hd. unfold mkdirFails in Hd.
    apply existsb_exists in Hd as (d & Hd & Hbad).
    pose proof (Hfree g ltac:(by left)) as Hg. unfold free in Hg.
    rewrite forallb_forall in Hg. specialize (Hg d Hd).
    apply andb_true_iff in Hg as [[Hnf Hnd]%andb_true_iff Hno].
    apply negb_true_iff in Hnf, Hnd, Hno.
    apply bool_decide_eq_false in Hnf, Hno.
    apply orb_true_iff in Hbad as [Hfile|Hden]; [|congruence].
    apply bool_decide_eq_true in Hfile. by destruct (Hinv d Hfile). }
  cbv zeta. set (w1 := World _ (trace w ++ [EnsureDir _])).
  destruct (encoded E (fs w1) _ _) as [out|]; apply IH; try done.
  intros p. cbn [fs Fs.files].
  destruct (decide (outputPath E new_folder suffix g = p)) as [<-|Hne].
  - intros _. right. apply Hout. by left.
  - rewrite lookup_insert_ne by done. apply Hinv.
Qed.

Lemma creatable_no_throw E s suffix files c1 c2 w :
  creatable E (fs w) s suffix files = true →
  ∀ err, (batch E s suffix files c1 c2 w).1 ≠ Throw err.
Proof.
  intros Hc err Herr. destruct s.
  - revert Herr. apply (batch_clear E suffix (fs w)
                          (outputPath E new_folder suffix <$> files)).
    + intros p Hp. by left.
    + intros g Hg. apply list_elem_of_fmap. by exists g.
    + intros g Hg. unfold creatable in Hc. rewrite forallb_forall in Hc.
      by apply Hc, list_elem_of_In.
  - destruct (batch_result E overwrite suffix files c1 c2 w)
      as [[counts H]|[? _]]; [|done]. by rewrite H in Herr.
Qed.

(** ** The tally of the loop *)

Lemma failing_cons E σ s suffix f files :
  failing E σ s suffix (f :: files)
  = (if converts E σ s suffix f then [] else [f]) ++ failing E σ s suffix files.
Proof.
  unfold failing. rewrite filter_cons.
  destruct (converts E σ s suffix f); by case_decide.
Qed.

Lemma failing_length E σ s suffix files :
  (length (failing E σ s suffix files) ≤ length files)%nat.
Proof. apply length_filter. Qed.

(** In a loop over files whose inputs no output replaces, the files that
    fail are those that cannot be converted as they are at the start, and
    each failure prints its error. *)
Lemma batch_tally E s suffix σ0 all :
  (∀ f g, f ∈ all → g ∈ all → inputPath E g ≠ outputPath E s suffix f) →
  ∀ files c1 c2 w n m w',
    files ⊆ all →
    (∀ g, g ∈ all →
          Fs.files (fs w) !! inputPath E g = Fs.files σ0 !! inputPath E g) →
    batch E s suffix files c1 c2 w = (Ok (n, m), w') →
    ∃ errs,
      printed (trace w') = printed (trace w) ++ (msg_error <$> errs)
      ∧ Forall2 (failureOf E) (failing E σ0 s suffix files) errs
      ∧ n = c1 + Z.of_nat (length files)
            - Z.of_nat (length (failing E σ0 s suffix files))
      ∧ m = c2 + Z.of_nat (length (failing E σ0 s suffix files)).
Proof.
  intros Hall. induction files as [|f files IH]; intros c1 c2 w n m w' Hsub Hinv Hb.
  { injection Hb as <- <- <-. exists []. cbn. rewrite app_nil_r.
    split_and!; [done|constructor|lia|lia]. }
  assert (f ∈ all) as Hf by (apply Hsub; by left).
  assert (files ⊆ all) as Hrest by (intros x Hx; apply Hsub; by right).
  destruct (batch_step E s suffix f files c1 c2 w)
    as [(_ & err & _ & Hthrow)|[cause Hstep]]; [by rewrite Hthrow in Hb|].
  rewrite Hstep in Hb. clear Hstep. cbv zeta in Hb.
  set (w1 := match s with overwrite => w | new_folder => _ end) in Hb.
  assert (Fs.files (fs w1) = Fs.files (fs w)) as Hfiles by (by destruct s).
  assert (printed (trace w1) = printed (trace w)) as Hp1.
  { destruct s; [|done]. unfold w1. cbn [trace].
    by rewrite printed_app, app_nil_r. }
  assert (encoded E (fs w1) (inputPath E f) (outputPath E s suffix f)
          = encoded E σ0 (inputPath E f) (outputPath E s suffix f)) as Henc.
  { apply encoded_agree. rewrite Hfiles. by apply Hinv. }
  rewrite failing_cons.
  destruct (encoded E (fs w1) _ _) as [out|] eqn:Hout.
  - assert (converts E σ0 s suffix f = true) as ->
      by (unfold converts; rewrite <- Henc; by apply bool_decide_eq_true).
    apply IH in Hb as (errs & Hpr & Hf2 & -> & ->); [|done|].
    + exists errs. cbn [fs trace] in Hpr. rewrite Hpr, printed_app, Hp1.
      cbn [app length]. rewrite app_nil_r.
      split_and!; [done|done|lia|lia].
    + intros g Hg. cbn [fs Fs.files]. rewrite lookup_insert_ne
        by (intros Hx; exact (Hall f g Hf Hg (eq_sym Hx))).
      rewrite Hfiles. by apply Hinv.
  - assert (converts E σ0 s suffix f = false) as ->.
    { unfold converts. rewrite <- Henc. apply bool_decide_eq_false. by intros [? ?]. }
    apply IH in Hb as (errs & Hpr & Hf2 & -> & ->); [|done|].
    + eexists (_ :: errs). cbn [fs trace] in Hpr.
      rewrite Hpr, printed_app, Hp1. cbn [app length].
      split_and!.
      * simpl. by rewrite <- app_assoc.
      * constructor; [|done]. by eexists.
      * lia.
      * lia.
    + intros g Hg. cbn [fs]. rewrite Hfiles. by apply Hinv.
Qed.

(** One file that cannot be converted, in a loop that no error leaves. *)
Lemma one_failure (E : env) (s : strategy) (suffix : jsstring)
    (before after : list jsstring) (f : jsstring) (w : world) :
  wf (fs w) →
  before ++ f :: after ⊆ imageFilesOf E (fs w) →
  (∀ err, (execute E s suffix (before ++ f :: after) w).1 ≠ Throw err) →
  converts E (fs w) s suffix f = false →
  Forall (λ g, converts E (fs w) s suffix g = true) (before ++ after) →
  ∃ w' err,
    execute E s suffix (before ++ f :: after) w = (Ok tt, w')
    ∧ optimized (trace w')
      = optimized (trace w)
        ++ ((λ g, (inputPath E g, outputPath E s suffix g))
            <$> (before ++ f :: after))
    ∧ printed (trace w')
      = printed (trace w)
        ++ [msg_error err; msg_complete;
            msg_processed (Z.of_nat (length (before ++ f :: after)) - 1);
            msg_failed 1]
        ++ match s with
           | overwrite => [msg_overwrite_note]
           | new_folder => []
           end
    ∧ Forall (λ g, is_Some (Fs.files (fs w') !! outputPath E s suffix g))
             (before ++ after).
Proof.
  intros Hwf Hsub Hno Hbad Hgood.
  set (files := before ++ f :: after) in *.
  assert (∀ g, g ∈ files → scanned g) as Hscanned
    by (intros g Hg; eapply scanned_of_scan; [done|by apply Hsub]).
  rewrite execute_spec in Hno |- *.
  assert (∀ g h, g ∈ files → h ∈ files →
                 inputPath E h ≠ outputPath E s suffix g) as Hdisjoint
    by (intros g h Hg Hh; apply inputs_ne_outputs; by apply Hscanned).
  assert (∀ err, (batch E s suffix files 0 0 w).1 ≠ Throw err) as Hno'.
  { intros err Herr. apply (Hno err).
    destruct (batch E s suffix files 0 0 w) as [r w'']. simpl in Herr. by subst r. }
  destruct (batch_spec E s suffix (fs w) files Hdisjoint files 0 0 w)
    as (w' & errs & Hb & Hlen & Hopt & Hpr & _ & Hex & _); try done.
  rewrite Hb. rewrite report_spec. simpl.
  assert (filter (λ g, converts E (fs w) s suffix g = true) files = before ++ after
          ∧ filter (λ g, ¬ converts E (fs w) s suffix g = true) files = [f])
    as [Hconv Hfail].
  { rewrite Forall_app in Hgood. destruct Hgood as [Hg1 Hg2].
    unfold files. rewrite !filter_app, !filter_cons.
    rewrite !decide_False by (by rewrite Hbad).
    rewrite !decide_True by (by rewrite Hbad).
    assert (∀ l, Forall (λ g, converts E (fs w) s suffix g = true) l →
                 filter (λ g, converts E (fs w) s suffix g = true) l = l
                 ∧ filter (λ g, ¬ converts E (fs w) s suffix g = true) l = [])
      as Hall.
    { induction 1 as [|x l Hx _ [IH1 IH2]]; [done|].
      rewrite !filter_cons, decide_True, decide_False by tauto.
      by rewrite IH1, IH2. }
    destruct (Hall _ Hg1) as [-> ->], (Hall _ Hg2) as [-> ->]. done. }
  rewrite Hfail in Hlen. destruct errs as [|err [|? ?]]; try done.
  eexists _, err. split; [reflexivity|]. simpl.
  rewrite optimized_app, printed_app, Hopt, Hpr, Hconv.
  replace (0 + Z.of_nat (length (before ++ after)))
    with (Z.of_nat (length files) - 1)
    by (unfold files; rewrite !length_app; simpl length; lia).
  split_and!.
  - destruct s; simpl; by rewrite app_nil_r.
  - simpl. rewrite <- app_assoc. by destruct s.
  - apply Forall_forall. intros g Hg. apply Hex.
    + unfold files. rewrite elem_of_app, elem_of_cons.
      apply elem_of_app in Hg. tauto.
    + by rewrite Forall_forall in Hgood; apply Hgood.
Qed.

(** * The properties of the specification *)

(** C1, which the code does not keep: a vector image is scanned, selected
    and handed to the conversion worker like any other file, and it is
    counted as processed.  Here [public/] holds [icon.svg] alone; the run
    calls the worker on it, writes [_optimized/icon.webp] and reports one
    file processed. *)
Theorem svg_is_converted :
  imageFilesOf (Example.E new_folder "_optimized") (fs Example.icon)
  = [lit "icon.svg"]
  ∧ (run (Example.E new_folder "_optimized") Example.icon).1 = Some 0
  ∧ optimized (trace (run (Example.E new_folder "_optimized") Example.icon).2)
    = [(lit "/app/public/icon.svg", lit "/app/public/_optimized/icon.webp")]
  ∧ printed (trace (run (Example.E new_folder "_optimized") Example.icon).2)
    = [msg_banner; msg_found_public (lit "/app/public"); msg_found 1;
       msg_selected 1; msg_complete; msg_processed 1].
Proof. by vm_compute. Qed.

(** C3, which the code does not keep: [fs.ensureDir] is awaited outside
    the [try] of the loop, so its failure leaves [main] and ends the run.
    Take a confirmed run under the new-folder strategy in which the output
    directory of a selected file [f] cannot be made.  The run ends with
    status 1; the worker was called on files selected before [f] only, not
    on [f] and not on any file after it; the error is printed as fatal;
    no failure is counted for it and no summary is printed. *)
Theorem ensureDir_failure_ends_the_run (E : env) (w : world)
    (before after : list jsstring) (f : jsstring) :
  Fs.existsSync (publicDir E) (fs w) = true →
  selectedFilesOf E (imageFilesOf E (fs w)) = Some (before ++ f :: after) →
  a_strategy (user E) = new_folder →
  a_confirm (user E) = true →
  mkdirFails E (fs w) (outputDirPath E (suffixOf E) f) = true →
  (run E w).1 = Some 1
  ∧ ∃ done_ errs err,
      done_ `prefix_of` before
      ∧ optimized (trace (run E w).2)
        = optimized (trace w)
          ++ ((λ g, (inputPath E g, outputPath E new_folder (suffixOf E) g))
              <$> done_)
      ∧ printed (trace (run E w).2)
        = printed (trace w)
          ++ [msg_banner; msg_found_public (publicDir E);
              msg_found (length (imageFilesOf E (fs w)));
              msg_selected (length (before ++ f :: after))]
          ++ (msg_error <$> errs) ++ [msg_fatal err].
Proof.
  intros Hex Hsel Hs Hc Hf. unfold run.
  destruct (main_cases E w)
    as [[Hex' _]|[(_ & Himg & _)|[(_ & _ & Hsel' & _)
        |(files & w1 & _ & _ & Hsel' & Hfs & Htr & [[Hc' _]|[_ Hm]])]]];
    try congruence.
  { exfalso. rewrite Himg in Hsel. unfold selectedFilesOf in Hsel.
    destruct (a_selectionMode (user E)); cbn in Hsel; [|done..].
    injection Hsel as Hnil. by destruct before. }
  rewrite Hsel in Hsel'. injection Hsel' as <-. rewrite Hm, Hs, execute_spec.
  rewrite <- Hfs in Hf.
  destruct (batch_blocked E (suffixOf E) f after before 0 0 w1 Hf)
    as (done_ & errs & err & w' & Hpre & -> & Hopt & Hpr).
  cbn [fst snd trace]. split; [done|].
  exists done_, errs, err. split; [done|].
  assert (optimized (selectPrompts E) = [] ∧ printed (selectPrompts E) = []
          ∧ optimized (strategyPrompts E) = []
          ∧ printed (strategyPrompts E) = []) as (Ho1 & Hp1 & Ho2 & Hp2).
  { unfold selectPrompts, strategyPrompts.
    by destruct (a_selectionMode (user E)), (a_strategy (user E)). }
  rewrite optimized_app, printed_app, Hopt, Hpr, Htr.
  rewrite !optimized_app, !printed_app, Ho1, Ho2, Hp1, Hp2. simpl.
  by rewrite !app_nil_r, <- !app_assoc.
Qed.

(** A regular file [public/_optimized] stands where the output directory
    of [logo.png] would go, and [logo.png] is met first: nothing is
    converted, [images/hero.jpg] neither. *)
Lemma ensureDir_failure_ends_the_run_witness :
  (run (Example.E new_folder "_optimized") Example.blocked).1 = Some 1
  ∧ ∃ errs err,
      optimized (trace (run (Example.E new_folder "_optimized") Example.blocked).2)
      = []
      ∧ printed (trace (run (Example.E new_folder "_optimized") Example.blocked).2)
        = [msg_banner; msg_found_public (lit "/app/public"); msg_found 2;
           msg_selected 2]
          ++ (msg_error <$> errs) ++ [msg_fatal err].
Proof.
  destruct (ensureDir_failure_ends_the_run (Example.E new_folder "_optimized")
              Example.blocked [] [lit "images/hero.jpg"] (lit "logo.png"))
    as (Hst & done_ & errs & err & Hpre & Hopt & Hpr).
  - vm_compute. reflexivity.
  - vm_compute. reflexivity.
  - reflexivity.
  - reflexivity.
  - vm_compute. reflexivity.
  - split; [exact Hst|]. exists errs, err.
    apply prefix_nil_inv in Hpre. subst done_. split.
    + rewrite Hopt. reflexivity.
    + rewrite Hpr. vm_compute. reflexivity.
Defined.

(** C6: selecting by folder keeps exactly the scanned files whose
    [dirname] is among the chosen folders, in scan order; a file at the
    root has the folder ["."], which is chosen like any other; and what
    the checkbox returns for the ticks [picks] selects the files whose
    folder is ticked. *)
Theorem by_folder_is_membership_filter (imageFiles dirs picks : list jsstring)
    (f : jsstring) :
  (f ∈ selectByFolder imageFiles dirs
   ↔ f ∈ imageFiles ∧ Path.dirname f ∈ dirs)
  ∧ sublist (selectByFolder imageFiles dirs) imageFiles
  ∧ (CHAR_FORWARD_SLASH ∉ f →
     (f ∈ selectByFolder imageFiles dirs ↔ f ∈ imageFiles ∧ lit "." ∈ dirs))
  ∧ (f ∈ selectByFolder imageFiles (ticked (folderChoices imageFiles) picks)
     ↔ f ∈ imageFiles ∧ Path.dirname f ∈ picks).
Proof.
  split_and!.
  - apply selectByFolder_spec.
  - apply sublist_filter.
  - intros Hf. rewrite selectByFolder_spec. by rewrite dirname_plain.
  - rewrite selectByFolder_spec, ticked_spec. unfold folderChoices.
    rewrite unique_spec, list_elem_of_fmap. naive_solver.
Qed.

(** C9: with the empty suffix the new-folder strategy resolves every file
    to the path the overwrite strategy gives it. *)
Theorem new_folder_empty_suffix_is_overwrite (E : env) (suffix f : jsstring) :
  outputPath E new_folder [] f = outputPath E overwrite suffix f.
Proof.
  unfold outputPath, outputDirPath.
  set (b := Path.basename f (Path.extname f) ++ lit ".webp").
  assert (b ≠ []) as Hb by (unfold b; by intros [_ ?]%app_eq_nil).
  pose proof (publicDir_nonempty E) as HP.
  case_bool_decide as Hdir.
  - rewrite Hdir, join_join, join_dot by done.
    by rewrite join3_skip, join2.
  - by rewrite app_nil_r, join_join.
Qed.

(** C10: the output path forgets the extension.  [a.jpg] and [a.png] are
    both scanned, differ, and resolve to one output path under either
    strategy and any suffix.  In a loop over the two, in either order,
    each is converted, the conversion that comes second replaces what the
    first wrote, and two files are reported processed with no error. *)
Theorem outputs_collide :
  lit "a.jpg" ≠ lit "a.png"
  ∧ (∀ E s suffix,
       outputPath E s suffix (lit "a.jpg") = outputPath E s suffix (lit "a.png"))
  ∧ lit "a.jpg" ∈ imageFilesOf (Example.E overwrite "") (fs Example.twins)
  ∧ lit "a.png" ∈ imageFilesOf (Example.E overwrite "") (fs Example.twins)
  ∧ (∀ s,
       (execute (Example.E s "_optimized") s (lit "_optimized")
          [lit "a.jpg"; lit "a.png"] Example.twins).1 = Ok tt
       ∧ (execute (Example.E s "_optimized") s (lit "_optimized")
            [lit "a.png"; lit "a.jpg"] Example.twins).1 = Ok tt)
  ∧ (∀ s, optimized (trace (execute (Example.E s "_optimized") s (lit "_optimized")
                              [lit "a.jpg"; lit "a.png"] Example.twins).2)
          = [(lit "/app/public/a.jpg",
              outputPath (Example.E s "_optimized") s (lit "_optimized") (lit "a.jpg"));
             (lit "/app/public/a.png",
              outputPath (Example.E s "_optimized") s (lit "_optimized") (lit "a.jpg"))]
          ∧ optimized (trace (execute (Example.E s "_optimized") s
                                (lit "_optimized")
                                [lit "a.png"; lit "a.jpg"] Example.twins).2)
            = [(lit "/app/public/a.png",
                outputPath (Example.E s "_optimized") s (lit "_optimized")
                  (lit "a.jpg"));
               (lit "/app/public/a.jpg",
                outputPath (Example.E s "_optimized") s (lit "_optimized")
                  (lit "a.jpg"))])
  ∧ (∀ s, Fs.files (fs (execute (Example.E s "_optimized") s (lit "_optimized")
                          [lit "a.jpg"; lit "a.png"] Example.twins).2)
            !! outputPath (Example.E s "_optimized") s (lit "_optimized") (lit "a.jpg")
          = Example.codec 80 (Example.bytes "PNG")
          ∧ Fs.files (fs (execute (Example.E s "_optimized") s (lit "_optimized")
                            [lit "a.png"; lit "a.jpg"] Example.twins).2)
              !! outputPath (Example.E s "_optimized") s (lit "_optimized")
                   (lit "a.jpg")
            = Example.codec 80 (Example.bytes "JPEG"))
  ∧ (∀ s files,
       files = [lit "a.jpg"; lit "a.png"] ∨ files = [lit "a.png"; lit "a.jpg"] →
       printed (trace (execute (Example.E s "_optimized") s (lit "_optimized")
                         files Example.twins).2)
       = [msg_complete; msg_processed 2]
         ++ match s with
            | overwrite => [msg_overwrite_note]
            | new_folder => []
            end).
Proof.
  split_and!.
  - done.
  - intros E s suffix. by destruct s.
  - apply elem_of_check. vm_compute. reflexivity.
  - apply elem_of_check. vm_compute. reflexivity.
  - intros []; split; vm_compute; reflexivity.
  - intros []; split; vm_compute; reflexivity.
  - intros []; split; vm_compute; reflexivity.
  - intros [] files [->| ->]; vm_compute; reflexivity.
Qed.

Lemma imagePath_extname f :
  imagePath f → ∃ e, e ∈ extensions ∧ Path.extname f = CHAR_DOT :: e.
Proof.
  intros (ds & stem & e & Hf & _ & [Hne Hdot] & He).
  destruct (extension_facts e He) as (Hen & Hes & Hed).
  exists e. split; [done|].
  pose proof (split_slashfree f) as Hsf. rewrite Hf in Hsf.
  rewrite Forall_app, Forall_singleton in Hsf. destruct Hsf as [_ Hsf].
  rewrite <- (unsplit_split f), Hf, unsplit_last.
  apply extname_split; try done.
  - apply boundary_dir.
  - intros Hin. apply Hsf, elem_of_app. by left.
Qed.

(** C7 as stated fails: the scan compares extensions as they are written.
    [public/PHOTO.JPG] has the extension [.jpg] up to case, and it is not
    returned. *)
Lemma scan_is_case_sensitive :
  ¬ (∀ (E : env) (σ : Fs.state) (f : jsstring),
       f ∈ imageFilesOf E σ
       ↔ is_Some (Fs.files σ !! (publicDir E ++ CHAR_FORWARD_SLASH :: f))
         ∧ toLowerCase (Path.extname f) ∈ recognized).
Proof.
  intros H.
  destruct (H (Example.E new_folder "_optimized") (fs Example.shouting)
              (lit "PHOTO.JPG")) as [_ Hback].
  assert (lit "PHOTO.JPG"
          ∈ imageFilesOf (Example.E new_folder "_optimized") (fs Example.shouting))
    as Hin.
  { apply Hback. split; [apply is_Some_check|apply elem_of_check]; by vm_compute. }
  vm_compute in Hin. by apply elem_of_nil in Hin.
Qed.

(** C7, amended: the scan returns exactly the files below [public/] that
    the pattern accepts: the name is a stem that is not empty and does not
    start with a dot, then a dot, then one of [jpg], [jpeg], [png], [gif],
    [svg] as written; the directories on the way, any number of them, do
    not start with a dot.  Every file returned has one of the five
    extensions. *)
Theorem scan_returns_image_paths (E : env) (w : world) (f : jsstring) :
  glob_sync scanPattern (publicDir E) w = (Ok (imageFilesOf E (fs w)), w)
  ∧ (f ∈ imageFilesOf E (fs w)
     ↔ is_Some (Fs.files (fs w) !! (publicDir E ++ CHAR_FORWARD_SLASH :: f))
       ∧ imagePath f)
  ∧ (f ∈ imageFilesOf E (fs w) → Path.extname f ∈ recognized).
Proof.
  split_and!.
  - done.
  - apply imageFilesOf_spec.
  - intros [_ (e & He & ->)%imagePath_extname]%imageFilesOf_spec.
    unfold recognized. apply list_elem_of_fmap. by exists e.
Qed.

(** C2 as stated fails: the suffix is text the user types, and one with a
    separator in it puts the output below the input's own directory.  With
    the suffix [/x], [images/hero.jpg] goes to [images/x/hero.webp]. *)
Lemma new_folder_can_nest :
  ¬ (∀ (E : env) (σ : Fs.state) (suffix f : jsstring),
       wf σ → f ∈ imageFilesOf E σ →
       Path.dirname f ≠ lit "." →
       Path.dirname (Path.dirname (outputPath E new_folder suffix f))
       = Path.dirname (Path.join [publicDir E; Path.dirname f])
       ∧ Path.dirname (outputPath E new_folder suffix f)
         ≠ Path.join [publicDir E; Path.dirname f]).
Proof.
  intros H.
  destruct (H (Example.E new_folder "/x") (fs Example.readme) (lit "/x")
              (lit "images/hero.jpg")) as [Hsibling _].
  - apply wf_check. by vm_compute.
  - apply elem_of_check. by vm_compute.
  - by vm_compute.
  - by vm_compute in Hsibling.
Qed.

(** C2, amended: for a suffix that is a plain name (not empty, no
    separator, neither [.] nor [..]) a scanned file at the root goes to
    [<root>/<suffix>/<base>.webp], and a scanned file in [dir] goes to
    [<root>/<dir+suffix>/<base>.webp], in a directory that has the parent
    of [dir] and is not [dir]. *)
Theorem new_folder_output_path (E : env) (σ : Fs.state) (suffix f : jsstring) :
  wf σ → f ∈ imageFilesOf E σ → plain suffix →
  (Path.dirname f = lit "." →
   outputPath E new_folder suffix f
   = publicDir E ++ CHAR_FORWARD_SLASH :: suffix
     ++ CHAR_FORWARD_SLASH :: Path.basename f (Path.extname f) ++ lit ".webp")
  ∧ (Path.dirname f ≠ lit "." →
     outputPath E new_folder suffix f
     = publicDir E ++ CHAR_FORWARD_SLASH :: (Path.dirname f ++ suffix)
       ++ CHAR_FORWARD_SLASH :: Path.basename f (Path.extname f) ++ lit ".webp"
     ∧ Path.dirname (Path.dirname (outputPath E new_folder suffix f))
       = Path.dirname (Path.join [publicDir E; Path.dirname f])
     ∧ Path.dirname (outputPath E new_folder suffix f)
       ≠ Path.join [publicDir E; Path.dirname f]).
Proof.
  intros Hwf Hf Hsuffix.
  destruct (scanned_parts f (scanned_of_scan E σ f Hwf Hf))
    as (ds & stem & e & -> & Hds & Hv & Hs & He & Hdir & Hext & Hbase).
  pose proof Hsuffix as [[Hne Hsl] _].
  rewrite Hext, Hbase, Hdir. split.
  - case_bool_decide as Hnil; [intros _|].
    + by destruct (new_folder_root E ds stem e suffix Hds Hv Hs He Hnil Hsuffix)
        as (-> & _).
    + intros Hdot. destruct (unsplit_visible ds Hnil Hds) as [[_ Hvis] _].
      by rewrite Hdot in Hvis.
  - case_bool_decide as Hnil; [done|intros _].
    destruct (new_folder_nested E ds stem e suffix Hds Hv Hs He Hsl Hnil)
      as (Hout & Hdirpath & Hsib & Hd & Hjoin & Hparent).
    rewrite Hd in Hsib, Hjoin. rewrite Hparent, Hsib, Hjoin. split_and!; try done.
    rewrite Hdirpath. intros Heq. apply app_inv_head in Heq.
    injection Heq as Heq. rewrite <- (app_nil_r (unsplit ds)) in Heq at 2.
    apply app_inv_head in Heq. done.
Qed.

(** The two files of the README, with the default suffix. *)
Lemma new_folder_output_path_witness :
  wf (fs Example.readme)
  ∧ plain (lit "_optimized")
  ∧ outputPath (Example.E new_folder "_optimized") new_folder (lit "_optimized")
      (lit "images/hero.jpg")
    = lit "/app/public/images_optimized/hero.webp"
  ∧ outputPath (Example.E new_folder "_optimized") new_folder (lit "_optimized")
      (lit "logo.png")
    = lit "/app/public/_optimized/logo.webp".
Proof.
  assert (wf (fs Example.readme)) as Hwf by (apply wf_check; by vm_compute).
  split; [done|]. split; [apply plain_optimized|]. split.
  - destruct (new_folder_output_path (Example.E new_folder "_optimized")
                (fs Example.readme) (lit "_optimized") (lit "images/hero.jpg") Hwf)
      as [_ Hnested].
    + apply elem_of_check. by vm_compute.
    + apply plain_optimized.
    + destruct Hnested as (-> & _); [by vm_compute|]. by vm_compute.
  - destruct (new_folder_output_path (Example.E new_folder "_optimized")
                (fs Example.readme) (lit "_optimized") (lit "logo.png") Hwf)
      as [Hroot _].
    + apply elem_of_check. by vm_compute.
    + apply plain_optimized.
    + rewrite Hroot by (by vm_compute). by vm_compute.
Defined.

(** C4: under the overwrite strategy a scanned file [dir/base.ext] is
    written to [base.webp] in the directory of the input, [<root>/<dir>],
    however deep, and the run leaves the bytes of every scanned file as
    they were. *)
Theorem overwrite_keeps_directory_and_source (E : env) (w : world)
    (suffix f : jsstring) :
  wf (fs w) → f ∈ imageFilesOf E (fs w) → a_strategy (user E) = overwrite →
  outputPath E overwrite suffix f
  = Path.dirname (inputPath E f)
    ++ CHAR_FORWARD_SLASH :: Path.basename f (Path.extname f) ++ lit ".webp"
  ∧ Path.dirname (outputPath E overwrite suffix f) = Path.dirname (inputPath E f)
  ∧ Path.dirname (inputPath E f)
    = (if bool_decide (Path.dirname f = lit ".") then publicDir E
       else publicDir E ++ CHAR_FORWARD_SLASH :: Path.dirname f)
  ∧ Fs.files (fs (run E w).2) !! inputPath E f
    = Fs.files (fs w) !! inputPath E f.
Proof.
  intros Hwf Hf Hs.
  pose proof (scanned_of_scan E _ f Hwf Hf) as Hscanned.
  split_and!; cycle 3.
  { apply run_frame. intros g Hg Heq.
    by apply (inputs_ne_outputs E (a_strategy (user E)) (suffixOf E) g f);
      [eapply scanned_of_scan|..]. }
  all: destruct (scanned_parts f Hscanned)
    as (ds & stem & e & -> & Hds & Hv & Hsl & He & Hdir & Hext & Hbase);
    destruct (publicDir_normal E) as (abs & stack & Hnf);
    destruct (extension_facts e He) as (Hne & Hes & Hed);
    pose proof (overwrite_scanned E ds stem e Hds Hv Hsl He suffix) as Hout;
    pose proof (inputPath_scanned E ds stem e Hds Hv Hsl He) as Hin;
    pose proof (dirname_under _ abs stack ds (stem ++ lit ".webp") Hnf
                  (plain_forall ds Hds) (plain_webp stem Hv Hsl)) as Hdout;
    assert (plain (stem ++ CHAR_DOT :: e)) as Hname
      by (apply name_plain; try done; rewrite elem_of_cons; by intros [?|?]);
    pose proof (dirname_under _ abs stack ds (stem ++ CHAR_DOT :: e) Hnf
                  (plain_forall ds Hds) Hname) as Hdin;
    rewrite ?Hext, ?Hbase, ?Hdir, ?Hout, ?Hin, ?Hdout, ?Hdin.
  - rewrite unsplit_last. case_bool_decide; simpl; by rewrite <- ?app_assoc.
  - done.
  - case_bool_decide as Hnil.
    + by rewrite bool_decide_true.
    + rewrite bool_decide_false; [done|].
      intros Hdot. destruct (unsplit_visible ds Hnil Hds) as [[_ Hvis] _].
      by rewrite Hdot in Hvis.
Qed.

Lemma overwrite_keeps_directory_and_source_witness :
  wf (fs Example.readme)
  ∧ lit "images/hero.jpg" ∈ imageFilesOf (Example.E overwrite "") (fs Example.readme)
  ∧ outputPath (Example.E overwrite "") overwrite (lit "") (lit "images/hero.jpg")
    = lit "/app/public/images/hero.webp"
  ∧ Fs.files (fs (run (Example.E overwrite "") Example.readme).2)
      !! inputPath (Example.E overwrite "") (lit "images/hero.jpg")
    = Some (Example.bytes "JPEG").
Proof.
  assert (wf (fs Example.readme)) as Hwf by (apply wf_check; by vm_compute).
  assert (lit "images/hero.jpg"
          ∈ imageFilesOf (Example.E overwrite "") (fs Example.readme)) as Hin
    by (apply elem_of_check; by vm_compute).
  destruct (overwrite_keeps_directory_and_source (Example.E overwrite "")
              Example.readme (lit "") (lit "images/hero.jpg") Hwf Hin eq_refl)
    as (Hout & _ & _ & Hkept).
  split; [done|]. split; [done|]. split.
  - rewrite Hout. by vm_compute.
  - rewrite Hkept. by vm_compute.
Defined.

(** C5: the loop goes on after a failed conversion.  Take any list of
    scanned files whose output directories can all be made, of which
    exactly one cannot be converted (its bytes are missing or cannot be
    encoded, or its output may not be written).  Then the loop reaches its
    end; the worker is called on every file, in order; one error is
    printed; the summary reports [total - 1] files processed and 1 failed;
    and the output of every other file is on the disk. *)
Theorem batch_is_fault_isolating (E : env) (s : strategy) (suffix : jsstring)
    (before after : list jsstring) (f : jsstring) (w : world) :
  wf (fs w) →
  before ++ f :: after ⊆ imageFilesOf E (fs w) →
  creatable E (fs w) s suffix (before ++ f :: after) = true →
  converts E (fs w) s suffix f = false →
  Forall (λ g, converts E (fs w) s suffix g = true) (before ++ after) →
  ∃ w' err,
    execute E s suffix (before ++ f :: after) w = (Ok tt, w')
    ∧ failureOf E f err
    ∧ optimized (trace w')
      = optimized (trace w)
        ++ ((λ g, (inputPath E g, outputPath E s suffix g))
            <$> (before ++ f :: after))
    ∧ printed (trace w')
      = printed (trace w)
        ++ [msg_error err; msg_complete;
            msg_processed (Z.of_nat (length (before ++ f :: after)) - 1);
            msg_failed 1]
        ++ match s with
           | overwrite => [msg_overwrite_note]
           | new_folder => []
           end
    ∧ Forall (λ g, is_Some (Fs.files (fs w') !! outputPath E s suffix g))
             (before ++ after).
Proof.
  intros Hwf Hsub Hc Hbad Hgood.
  assert (∀ err, (execute E s suffix (before ++ f :: after) w).1 ≠ Throw err)
    as Hno.
  { intros err Herr. apply (creatable_no_throw E s suffix _ 0 0 w Hc err).
    rewrite execute_spec in Herr.
    destruct (batch E s suffix (before ++ f :: after) 0 0 w) as [[| | |] ?];
      [exfalso; by rewrite report_spec in Herr
      |cbn [fst] in *; by injection Herr as ->|done|done]. }
  destruct (one_failure E s suffix before after f w Hwf Hsub Hno Hbad Hgood)
    as (w' & err & Hex & Hopt & Hpr & Hout).
  exists w', err. split_and!; try done.
  (* the error is that of [f] *)
  apply execute_ok in Hex as (n & m & w1 & Hb & _ & Ht).
  assert (∀ g h, g ∈ before ++ f :: after → h ∈ before ++ f :: after →
                 inputPath E h ≠ outputPath E s suffix g) as Hdisjoint.
  { intros g h Hg Hh.
    apply inputs_ne_outputs; eapply scanned_of_scan; try done; by apply Hsub. }
  destruct (batch_tally E s suffix (fs w) _ Hdisjoint _ 0 0 w n m w1
              ltac:(done) ltac:(done) Hb) as (errs & Hpr' & Hf2 & _).
  assert (failing E (fs w) s suffix (before ++ f :: after) = [f]) as Hfail.
  { unfold failing. rewrite filter_app, filter_cons, Hbad.
    rewrite decide_True by done.
    assert (∀ l, Forall (λ g, converts E (fs w) s suffix g = true) l →
                 filter (λ g, converts E (fs w) s suffix g = false) l = []) as Hnone.
    { induction 1 as [|x l Hx _ IH]; [done|].
      rewrite filter_cons, decide_False by (by rewrite Hx). done. }
    apply Forall_app in Hgood as [Hg1 Hg2].
    by rewrite (Hnone _ Hg1), (Hnone _ Hg2). }
  rewrite Hfail in Hf2.
  apply Forall2_cons_inv_l in Hf2 as (err' & errs' & Herr & Hnil & ->).
  apply Forall2_nil_inv_l in Hnil as ->.
  rewrite Ht, printed_app, Hpr' in Hpr.
  rewrite <- app_assoc in Hpr. apply app_inv_head in Hpr.
  injection Hpr as <-. done.
Qed.

(** Three images, the second one empty, under the new-folder strategy. *)
Lemma batch_is_fault_isolating_witness :
  ∃ w' err,
    execute (Example.E new_folder "_optimized") new_folder (lit "_optimized")
      [lit "a.png"; lit "b.png"; lit "images/c.gif"] Example.corrupt
    = (Ok tt, w')
    ∧ failureOf (Example.E new_folder "_optimized") (lit "b.png") err
    ∧ printed (trace w')
      = [msg_error err; msg_complete; msg_processed 2; msg_failed 1]
    ∧ optimized (trace w')
      = [(lit "/app/public/a.png", lit "/app/public/_optimized/a.webp");
         (lit "/app/public/b.png", lit "/app/public/_optimized/b.webp");
         (lit "/app/public/images/c.gif",
          lit "/app/public/images_optimized/c.webp")].
Proof.
  destruct (batch_is_fault_isolating (Example.E new_folder "_optimized")
              new_folder (lit "_optimized")
              [lit "a.png"] [lit "images/c.gif"] (lit "b.png") Example.corrupt)
    as (w' & err & Hrun & Herr & Hopt & Hpr & _).
  - apply wf_check. vm_compute. reflexivity.
  - intros g Hg.
    repeat (apply elem_of_cons in Hg as [->|Hg];
            [apply elem_of_check; vm_compute; reflexivity|]).
    by apply elem_of_nil in Hg.
  - vm_compute. reflexivity.
  - vm_compute. reflexivity.
  - repeat constructor; vm_compute; reflexivity.
  - exists w', err. split; [exact Hrun|]. split; [exact Herr|]. split.
    + rewrite Hpr. reflexivity.
    + rewrite Hopt. vm_compute. reflexivity.
Defined.

(** C8 as stated fails: the script asks whether anything has the path of
    [public/], not whether a directory has it.  Where a regular file is
    named [public], the directory is missing, and the run finds "the
    folder", scans nothing and ends with status 0. *)
Lemma public_may_be_a_file :
  ¬ (∀ (E : env) (w : world),
       (run E w).1 = Some 1
       ↔ (publicDir E ∉ Fs.dirs (fs w)) ∨ ∃ err, (main E w).1 = Throw err).
Proof.
  intros H.
  destruct (H (Example.E overwrite "") Example.nofolder) as [_ Hback].
  assert ((run (Example.E overwrite "") Example.nofolder).1 = Some 1) as Hone.
  { apply Hback. left. apply not_elem_of_check. vm_compute. reflexivity. }
  vm_compute in Hone. discriminate Hone.
Qed.

(** C8, amended: the run ends with status 1 exactly when nothing has the
    path of [public/] ([fs.existsSync] is false) or an error leaves
    [main]; otherwise, if it ends at all, with status 0.  Where nothing
    has the path no prompt is shown.  With no image found (as where a
    regular file is named [public]) the status is 0, no prompt is shown
    and nothing is converted.  With a "no" at the confirmation the status
    is 0 and nothing is converted or written.  (The run does not end
    where a checkbox refuses the empty answer, the only answer it is
    given.) *)
Theorem exit_status (E : env) (w : world) :
  ((run E w).1 = Some 1
   ↔ Fs.existsSync (publicDir E) (fs w) = false
     ∨ ∃ err, (main E w).1 = Throw err)
  ∧ ((run E w).1 = Some 0 ∨ (run E w).1 = Some 1
     ∨ ((run E w).1 = None ∧ (main E w).1 = Waiting))
  ∧ (Fs.existsSync (publicDir E) (fs w) = false →
     prompted (trace (run E w).2) = prompted (trace w))
  ∧ (Fs.existsSync (publicDir E) (fs w) = true →
     imageFilesOf E (fs w) = [] →
     (run E w).1 = Some 0
     ∧ prompted (trace (run E w).2) = prompted (trace w)
     ∧ optimized (trace (run E w).2) = optimized (trace w)
     ∧ fs (run E w).2 = fs w)
  ∧ (Fs.existsSync (publicDir E) (fs w) = true →
     is_Some (selectedFilesOf E (imageFilesOf E (fs w))) →
     a_confirm (user E) = false →
     (run E w).1 = Some 0
     ∧ optimized (trace (run E w).2) = optimized (trace w)
     ∧ fs (run E w).2 = fs w).
Proof.
  assert (∀ t, prompted (t ++ [Print msg_banner; Print msg_public_not_found])
               = prompted t) as Hquiet1
    by (intros; by rewrite prompted_app, app_nil_r).
  assert (∀ t m, prompted (t ++ preamble E ++ [Print m]) = prompted t
                 ∧ optimized (t ++ preamble E ++ [Print m]) = optimized t)
    as Hquiet2
    by (intros; by rewrite prompted_app, optimized_app, !app_nil_r).
  assert (∀ t n m k,
            optimized (t ++ preamble E ++ [Print n] ++ selectPrompts E
                       ++ [Print m] ++ strategyPrompts E ++ [Prompt p_confirm]
                       ++ [Print k]) = optimized t) as Hquiet3.
  { intros. rewrite optimized_app. unfold selectPrompts, strategyPrompts.
    destruct (a_selectionMode (user E)), (a_strategy (user E));
      simpl; by rewrite app_nil_r. }
  unfold run.
  destruct (main_cases E w)
    as [[Hex Hm]|[(Hex & Himg & Hm)|[(Hex & Himg & Hsel & Hm)
        |(files & w1 & Hex & Himg & Hsel & Hfs & Htr & [[Hc Hm]|[Hc Hm]])]]];
    rewrite Hm, Hex.
  - (* nothing has the path of [public/] *)
    simpl. split_and!; try done; tauto.
  - (* no image *)
    simpl. destruct (Hquiet2 (trace w) msg_no_images) as [Hp Ho].
    split_and!; try done; try tauto.
    split; [done|]. intros [?|[? ?]]; done.
  - (* the checkbox refuses the answer *)
    simpl. rewrite Hsel. split_and!; try done; try tauto;
      try (by intros _ [? ?]).
    split; [done|]. intros [?|[? ?]]; done.
  - (* the user says no *)
    simpl. rewrite Hsel, Hc, Hfs, Htr.
    split_and!; try done; try tauto.
    + split; [done|]. intros [?|[? ?]]; done.
    + intros _ _ _. split_and!; try done.
      rewrite <- !app_assoc. apply Hquiet3.
  - (* the execution *)
    rewrite Hsel, Hc.
    destruct (execute_result E (a_strategy (user E)) (suffixOf E) files w1)
      as [Hr|[_ [err Hr]]];
      destruct (execute E (a_strategy (user E)) (suffixOf E) files w1)
        as [r w2]; simpl in Hr; subst r; simpl.
    + split_and!; try done; try tauto.
      split; [intros [=]|]. intros [?|[? ?]]; done.
    + split_and!; try done; try tauto.
      split; [intros _; right; by exists err|done].
Qed.

(** * Further properties of the script *)



(** Under the new-folder strategy every file's output directory is made
    just before the file is converted, and under the overwrite strategy
    the loop makes no directory: the calls of a loop that reaches its end
    are those of its files, one file after the other; the codec is always
    asked for quality 80; and every directory asked for is there at the
    end. *)
Theorem calls_in_order (E : env) (s : strategy) (suffix : jsstring)
    (files : list jsstring) (w w' : world) :
  execute E s suffix files w = (Ok tt, w') →
  calls (trace w') = calls (trace w) ++ flat_map (callsFor E s suffix) files
  ∧ (s = new_folder →
     ∀ f, f ∈ files → outputDirPath E suffix f ∈ Fs.dirs (fs w'))
  ∧ (s = overwrite → Fs.dirs (fs w') = Fs.dirs (fs w)).
Proof.
  intros (n & m & w1 & Hb & Hfs & Ht)%execute_ok.
  pose proof (batch_any E s suffix files 0 0 w) as (_ & _ & Hover & _).
  rewrite Hb in Hover.
  apply batch_ok in Hb as (t & errs & Ht1 & Hcalls & _ & _ & _ & _ & _ & Hdirs).
  rewrite Hfs, Ht, Ht1. split_and!; try done.
  rewrite !calls_app, Hcalls.
  destruct (_ >? 0), s; simpl; by rewrite app_nil_r.
Qed.

Lemma calls_in_order_witness :
  calls (trace (execute (Example.E new_folder "_optimized") new_folder
                  (lit "_optimized") [lit "images/hero.jpg"; lit "logo.png"]
                  Example.readme).2)
  = [EnsureDir (lit "/app/public/images_optimized");
     OptimizeImage (lit "/app/public/images/hero.jpg")
                   (lit "/app/public/images_optimized/hero.webp") 80;
     EnsureDir (lit "/app/public/_optimized");
     OptimizeImage (lit "/app/public/logo.png")
                   (lit "/app/public/_optimized/logo.webp") 80].
Proof.
  destruct (calls_in_order (Example.E new_folder "_optimized") new_folder
              (lit "_optimized") [lit "images/hero.jpg"; lit "logo.png"]
              Example.readme
              (execute (Example.E new_folder "_optimized") new_folder
                 (lit "_optimized") [lit "images/hero.jpg"; lit "logo.png"]
                 Example.readme).2)
    as (Hcalls & _).
  - vm_compute. reflexivity.
  - rewrite Hcalls. by vm_compute.
Defined.

Lemma run_fs_cases E w :
  fs (run E w).2 = fs w
  ∨ ∃ files w1,
      selectedFilesOf E (imageFilesOf E (fs w)) = Some files
      ∧ fs w1 = fs w
      ∧ fs (run E w).2
        = fs (batch E (a_strategy (user E)) (suffixOf E) files 0 0 w1).2.
Proof.
  rewrite run_fs.
  destruct (main_cases E w)
    as [[_ ->]|[(_ & _ & ->)|[(_ & _ & _ & ->)
        |(files & w1 & _ & _ & Hsel & Hfs & _ & [[_ ->]|[_ ->]])]]];
    try (by left).
  right. exists files, w1. by rewrite execute_fs.
Qed.

(** A run removes nothing and leaves the images it scanned as they were,
    under either strategy and whatever the suffix: every path that held a
    file holds one afterwards, every directory is still there, and the
    bytes of every scanned image are the same. *)
Theorem run_keeps_every_file (E : env) (w : world) :
  (∀ p, is_Some (Fs.files (fs w) !! p)
        → is_Some (Fs.files (fs (run E w).2) !! p))
  ∧ Fs.dirs (fs w) ⊆ Fs.dirs (fs (run E w).2)
  ∧ (wf (fs w) →
     ∀ f, f ∈ imageFilesOf E (fs w) →
          Fs.files (fs (run E w).2) !! inputPath E f
          = Fs.files (fs w) !! inputPath E f).
Proof.
  split_and!.
  - destruct (run_fs_cases E w) as [->|(files & w1 & _ & Hfs & ->)]; [done|].
    rewrite <- Hfs.
    by destruct (batch_any E (a_strategy (user E)) (suffixOf E) files 0 0 w1)
      as (? & _).
  - destruct (run_fs_cases E w) as [->|(files & w1 & _ & Hfs & ->)]; [done|].
    rewrite <- Hfs.
    by destruct (batch_any E (a_strategy (user E)) (suffixOf E) files 0 0 w1)
      as (_ & ? & _).
  - intros Hwf f Hf. apply run_frame. intros g Hg Heq.
    apply (inputs_ne_outputs E (a_strategy (user E)) (suffixOf E) g f);
      [by eapply scanned_of_scan..|done].
Qed.


Lemma ensured_app t1 t2 : ensured (t1 ++ t2) = ensured t1 ++ ensured t2.
Proof. apply omap_app. Qed.

Lemma loopEvent_quiet s t :
  Forall (loopEvent s) t → prompted t = [] ∧ (s = overwrite → ensured t = []).
Proof.
  induction 1 as [|[m|n|d|i o q] t He _ [IH1 IH2]]; simpl; try done.
  split; [done|]. intros ->. done.
Qed.

Lemma execute_quiet E s suffix files w :
  prompted (trace (execute E s suffix files w).2) = prompted (trace w)
  ∧ (s = overwrite →
     ensured (trace (execute E s suffix files w).2) = ensured (trace w)
     ∧ Fs.dirs (fs (execute E s suffix files w).2) = Fs.dirs (fs w)).
Proof.
  rewrite execute_fs, execute_spec.
  destruct (batch_any E s suffix files 0 0 w) as (_ & _ & Hdirs & t & Ht & Hl).
  apply loopEvent_quiet in Hl as [Hp He].
  destruct (batch E s suffix files 0 0 w) as [[[n m]| | |] w1];
    cbn [snd fst] in *;
    try (rewrite Ht, prompted_app, Hp, app_nil_r; split; [done|];
         intros Hs; by rewrite ensured_app, He, app_nil_r, Hdirs).
  rewrite report_spec. cbn [snd trace]. rewrite Ht.
  split.
  - rewrite !prompted_app, Hp. destruct (m >? 0), s; simpl; by rewrite !app_nil_r.
  - intros ->. rewrite !ensured_app, He by done.
    destruct (m >? 0); simpl; by rewrite !app_nil_r, Hdirs.
Qed.

Lemma prompted_prints t ms : prompted (t ++ (Print <$> ms)) = prompted t.
Proof.
  rewrite prompted_app. induction ms as [|m ms IH]; simpl; [by rewrite app_nil_r|].
  exact IH.
Qed.

Lemma ensured_quiet t : calls t = [] → ensured t = [].
Proof.
  induction t as [|[m|n|d|i o q] t IH]; simpl; try done.
Qed.

Lemma calls_preamble E : calls (preamble E) = [].
Proof. done. Qed.

Lemma calls_selectPrompts E : calls (selectPrompts E) = [].
Proof. unfold selectPrompts. by destruct (a_selectionMode (user E)). Qed.

Lemma calls_strategyPrompts E : calls (strategyPrompts E) = [].
Proof. unfold strategyPrompts. by destruct (a_strategy (user E)). Qed.

(** Under the overwrite strategy a run asks for no directory and makes
    none, and it cannot fail once something has the path of [public/]:
    the status is 1 exactly where [fs.existsSync] finds nothing there. *)
Theorem overwrite_makes_no_directory (E : env) (w : world) :
  a_strategy (user E) = overwrite →
  ((run E w).1 = Some 1 ↔ Fs.existsSync (publicDir E) (fs w) = false)
  ∧ ensured (trace (run E w).2) = ensured (trace w)
  ∧ Fs.dirs (fs (run E w).2) = Fs.dirs (fs w).
Proof.
  intros Hs. unfold run.
  assert (∀ t, calls t = [] → ensured (trace w ++ t) = ensured (trace w)) as Hq.
  { intros t Ht. by rewrite ensured_app, (ensured_quiet t), app_nil_r. }
  destruct (main_cases E w)
    as [[Hex Hm]|[(Hex & Himg & Hm)|[(Hex & Himg & Hsel & Hm)
        |(files & w1 & Hex & Himg & Hsel & Hfs & Htr & [[Hc Hm]|[Hc Hm]])]]];
    rewrite Hm, Hex; cbn [fst snd fs trace].
  - split_and!; [done|by apply Hq|done].
  - split_and!; [done|by apply Hq|done].
  - split_and!; [done| |done]. apply Hq.
    by rewrite !calls_app, calls_selectPrompts.
  - rewrite Hfs, Htr. split_and!; [done| |done].
    rewrite <- !app_assoc. apply Hq.
    by rewrite !calls_app, calls_selectPrompts, calls_strategyPrompts.
  - destruct (execute_quiet E (a_strategy (user E)) (suffixOf E) files w1)
      as [_ Hquiet].
    destruct (Hquiet Hs) as [He Hd].
    destruct (execute_result E (a_strategy (user E)) (suffixOf E) files w1)
      as [Hr|[Hnf _]]; [|by rewrite Hs in Hnf].
    destruct (execute E (a_strategy (user E)) (suffixOf E) files w1) as [r w2].
    cbn [fst snd] in *. subst r. cbn [fst snd]. rewrite He, Hd, Hfs, Htr.
    split_and!; [done| |done]. apply Hq.
    by rewrite !calls_app, calls_selectPrompts, calls_strategyPrompts.
Qed.

Lemma overwrite_makes_no_directory_witness :
  Fs.dirs (fs (run (Example.E overwrite "") Example.readme).2)
  = Fs.dirs (fs Example.readme)
  ∧ ensured (trace (run (Example.E overwrite "") Example.readme).2) = [].
Proof.
  destruct (overwrite_makes_no_directory (Example.E overwrite "") Example.readme
              eq_refl) as (_ & He & Hd).
  split; [exact Hd|]. rewrite He. reflexivity.
Defined.

(** The prompts of a run that gets past the selection: the selection
    mode, the folders or the files where the mode asks for them, the
    strategy, the suffix under the new-folder strategy only, and the
    confirmation; nothing is asked after the confirmation. *)
Theorem prompts_in_order (E : env) (w : world) :
  Fs.existsSync (publicDir E) (fs w) = true →
  imageFilesOf E (fs w) ≠ [] →
  is_Some (selectedFilesOf E (imageFilesOf E (fs w))) →
  prompted (trace (run E w).2)
  = prompted (trace w)
    ++ [p_selectionMode]
    ++ match a_selectionMode (user E) with
       | sel_all => []
       | sel_folder => [p_selectedDirs]
       | sel_file => [p_files]
       end
    ++ [p_strategy]
    ++ match a_strategy (user E) with
       | new_folder => [p_customSuffix]
       | overwrite => []
       end
    ++ [p_confirm].
Proof.
  intros Hex Himg [sel Hsel].
  assert (∀ t, prompted (trace w ++ preamble E
                         ++ [Print (msg_found (length (imageFilesOf E (fs w))))]
                         ++ selectPrompts E ++ [Print (msg_selected (length sel))]
                         ++ strategyPrompts E ++ [Prompt p_confirm] ++ t)
               = prompted (trace w)
                 ++ [p_selectionMode]
                 ++ match a_selectionMode (user E) with
                    | sel_all => []
                    | sel_folder => [p_selectedDirs]
                    | sel_file => [p_files]
                    end
                 ++ [p_strategy]
                 ++ match a_strategy (user E) with
                    | new_folder => [p_customSuffix]
                    | overwrite => []
                    end
                 ++ [p_confirm] ++ prompted t) as Hp.
  { intros t. rewrite !prompted_app. unfold selectPrompts, strategyPrompts.
    destruct (a_selectionMode (user E)), (a_strategy (user E)); done. }
  unfold run.
  destruct (main_cases E w)
    as [[Hex' _]|[(_ & Himg' & _)|[(_ & _ & Hsel' & _)
        |(files & w1 & _ & _ & Hsel' & Hfs & Htr & [[Hc Hm]|[Hc Hm]])]]];
    try congruence.
  - rewrite Hm. cbn [snd trace]. rewrite Htr, Hsel in *. injection Hsel' as <-.
    rewrite <- !app_assoc, Hp. simpl. by rewrite ?app_nil_r.
  - rewrite Hm. rewrite Hsel in Hsel'. injection Hsel' as <-.
    destruct (execute_quiet E (a_strategy (user E)) (suffixOf E) sel w1)
      as [Hq _].
    assert (prompted (trace (execute E (a_strategy (user E)) (suffixOf E) sel w1).2)
            = prompted (trace w ++ preamble E
                        ++ [Print (msg_found (length (imageFilesOf E (fs w))))]
                        ++ selectPrompts E ++ [Print (msg_selected (length sel))]
                        ++ strategyPrompts E ++ [Prompt p_confirm] ++ [])) as Hq'.
    { by rewrite Hq, Htr, app_nil_r. }
    rewrite Hp in Hq'. simpl in Hq'. rewrite ?app_nil_r in Hq'.
    destruct (execute E (a_strategy (user E)) (suffixOf E) sel w1)
      as [[[]| | |] w2]; cbn [snd trace] in *; try done.
    rewrite prompted_app. simpl. by rewrite ?app_nil_r.
Qed.

Lemma prompts_in_order_witness :
  prompted (trace (run (Example.E new_folder "_optimized") Example.readme).2)
  = [p_selectionMode; p_strategy; p_customSuffix; p_confirm].
Proof.
  rewrite (prompts_in_order (Example.E new_folder "_optimized") Example.readme).
  - reflexivity.
  - by vm_compute.
  - by vm_compute.
  - apply is_Some_check. by vm_compute.
Defined.

(** ** The selection *)

Lemma unique_from_NoDup seen xs : NoDup (unique_from seen xs).
Proof.
  revert seen. induction xs as [|x xs IH]; intros seen; simpl; [constructor|].
  case_bool_decide; [done|]. constructor; [|done].
  rewrite unique_from_spec. intros [_ Hx]. apply Hx. by left.
Qed.

Lemma unique_from_head seen x xs :
  x ∉ seen → unique_from seen (x :: xs) = x :: unique_from (x :: seen) xs.
Proof. intros Hx. simpl. by rewrite bool_decide_false. Qed.

(** A value added at the end is kept exactly when it is new. *)
Lemma unique_from_snoc seen xs x :
  unique_from seen (xs ++ [x])
  = unique_from seen xs
    ++ (if bool_decide (x ∈ seen ∨ x ∈ xs) then [] else [x]).
Proof.
  revert seen. induction xs as [|y xs IH]; intros seen.
  - simpl. case_bool_decide as H1; case_bool_decide as H2; try done.
    + exfalso. apply H2. by left.
    + destruct H2 as [?|?%elem_of_nil]; done.
  - simpl. case_bool_decide as Hy.
    + rewrite IH. f_equal.
      do 2 case_bool_decide; try done; exfalso;
        rewrite ?elem_of_cons in *; naive_solver.
    + rewrite IH. simpl. do 2 f_equal.
      do 2 case_bool_decide; try done; exfalso;
        rewrite ?elem_of_cons in *; naive_solver.
Qed.

(** The folders offered are the folders of the scanned files, each one
    once, in the order in which the scan first meets them: the list for
    no file is empty, and a file added at the end of the scan adds its
    folder at the end of the list exactly when the folder is not yet in
    it.  With an image scanned there is a folder to offer. *)
Theorem folderChoices_distinct (imageFiles : list jsstring) (f d : jsstring) :
  NoDup (folderChoices imageFiles)
  ∧ (d ∈ folderChoices imageFiles ↔ ∃ g, g ∈ imageFiles ∧ Path.dirname g = d)
  ∧ folderChoices [] = []
  ∧ folderChoices (imageFiles ++ [f])
    = folderChoices imageFiles
      ++ (if bool_decide (Path.dirname f ∈ folderChoices imageFiles) then []
          else [Path.dirname f])
  ∧ (imageFiles ≠ [] → folderChoices imageFiles ≠ []).
Proof.
  unfold folderChoices, unique. split_and!.
  - apply unique_from_NoDup.
  - rewrite (unique_spec (Path.dirname <$> imageFiles) d), list_elem_of_fmap.
    naive_solver.
  - done.
  - rewrite fmap_app. cbn [fmap list_fmap]. rewrite unique_from_snoc.
    f_equal. pose proof (unique_spec (Path.dirname <$> imageFiles) (Path.dirname f))
      as Hu. unfold unique in Hu.
    do 2 case_bool_decide; try done; exfalso.
    + destruct H as [?%elem_of_nil|?]; [done|]. tauto.
    + apply H. right. tauto.
  - destruct imageFiles as [|g gs]; [done|]. intros _.
    rewrite fmap_cons, unique_from_head; [done|]. apply not_elem_of_nil.
Qed.

Lemma filter_all {A} (P : A → Prop) `{∀ x, Decision (P x)} (l : list A) :
  Forall P l → filter P l = l.
Proof.
  induction 1 as [|x l Hx _ IH]; [done|].
  by rewrite filter_cons_True, IH.
Qed.

(** Ticking every folder selects every file: by folder with all folders
    chosen is the same as all images. *)
Theorem all_folders_select_everything (imageFiles picks : list jsstring) :
  selectByFolder imageFiles (folderChoices imageFiles) = imageFiles
  ∧ (folderChoices imageFiles ⊆ picks →
     selectByFolder imageFiles (ticked (folderChoices imageFiles) picks)
     = imageFiles).
Proof.
  assert (∀ f, f ∈ imageFiles → Path.dirname f ∈ folderChoices imageFiles) as Hin.
  { intros f Hf. unfold folderChoices. rewrite unique_spec, list_elem_of_fmap.
    by exists f. }
  split.
  - apply filter_all, Forall_forall. intros f Hf. by apply Hin.
  - intros Hsub. apply filter_all, Forall_forall. intros f Hf.
    apply ticked_spec. split; [by apply Hin|by apply Hsub, Hin].
Qed.

(** Whatever the mode, what the selection step returns is a part of the
    scan, in scan order, and it is never empty: a checkbox does not accept
    an empty answer, and a folder that is offered holds an image. *)
Theorem selection_is_never_empty (E : env) (imageFiles files : list jsstring)
    (w w' : world) :
  imageFiles ≠ [] →
  select E imageFiles w = (Ok files, w') →
  files ≠ [] ∧ sublist files imageFiles ∧ fs w' = fs w.
Proof.
  intros Hne. rewrite select_spec.
  destruct (selectedFilesOf E imageFiles) as [sel|] eqn:Hsel; [|done].
  intros [= -> <-]. split_and!; [| |done].
  - unfold selectedFilesOf in Hsel.
    destruct (a_selectionMode (user E)).
    + by injection Hsel as <-.
    + destruct (Nat.ltb_spec (length (ticked (folderChoices imageFiles)
                                             (a_selectedDirs (user E)))) 1)
        as [|Hlen]; [done|]. injection Hsel as <-.
      destruct (ticked _ _) as [|d ds] eqn:Hd; [simpl in Hlen; lia|].
      assert (d ∈ ticked (folderChoices imageFiles) (a_selectedDirs (user E)))
        as [Hch _]%ticked_spec by (rewrite Hd; by left).
      unfold folderChoices in Hch.
      apply unique_spec, list_elem_of_fmap in Hch as (f & -> & Hf).
      intros Hnil.
      assert (f ∈ selectByFolder imageFiles (Path.dirname f :: ds)) as Hin
        by (apply selectByFolder_spec; split; [done|by left]).
      rewrite Hnil in Hin. by apply elem_of_nil in Hin.
    + destruct (Nat.ltb_spec (length (ticked imageFiles (a_files (user E)))) 1)
        as [|Hlen]; [done|]. injection Hsel as <-.
      intros Hnil. rewrite Hnil in Hlen. simpl in Hlen. lia.
  - unfold selectedFilesOf in Hsel.
    destruct (a_selectionMode (user E)).
    + by injection Hsel as <-.
    + destruct (_ <? _)%nat; [done|]. injection Hsel as <-. apply sublist_filter.
    + destruct (_ <? _)%nat; [done|]. injection Hsel as <-. apply sublist_filter.
Qed.

Lemma selection_is_never_empty_witness :
  select (Env (lit "/app")
              (Answers sel_folder [lit "images"] [] overwrite (lit "") true)
              Example.codec (λ _, false))
         [lit "images/hero.jpg"; lit "logo.png"] Example.readme
  = (Ok [lit "images/hero.jpg"],
     World (fs Example.readme) [Prompt p_selectionMode; Prompt p_selectedDirs])
  ∧ [lit "images/hero.jpg"] ≠ []
  ∧ sublist [lit "images/hero.jpg"] [lit "images/hero.jpg"; lit "logo.png"].
Proof.
  assert (select (Env (lit "/app")
                      (Answers sel_folder [lit "images"] [] overwrite (lit "") true)
                      Example.codec (λ _, false))
                 [lit "images/hero.jpg"; lit "logo.png"] Example.readme
          = (Ok [lit "images/hero.jpg"],
             World (fs Example.readme)
                   [Prompt p_selectionMode; Prompt p_selectedDirs])) as Hsel
    by (vm_compute; reflexivity).
  split; [exact Hsel|].
  assert ([lit "images/hero.jpg"; lit "logo.png"] ≠ []) as Hscan by (intros [=]).
  destruct (selection_is_never_empty _ _ _ _ _ Hscan Hsel) as (Hne & Hsub & _).
  by split.
Defined.

(** ** The scan *)

Lemma NoDup_omap_inj {A B} (g : A → option B) (l : list A) :
  (∀ x y z, g x = Some z → g y = Some z → x = y) →
  NoDup l → NoDup (omap g l).
Proof.
  intros Hinj. induction 1 as [|x l Hx _ IH]; simpl; [constructor|].
  destruct (g x) as [z|] eqn:Hz; [|done]. constructor; [|done].
  intros (y & Hy & Hgy)%list_elem_of_omap.
  by rewrite (Hinj x y z Hz Hgy) in Hx.
Qed.

Lemma filesBelow_NoDup dir σ : NoDup (Fs.filesBelow dir σ).
Proof.
  unfold Fs.filesBelow.
  apply NoDup_omap_inj;
    [|rewrite merge_sort_Permutation; apply NoDup_fst_map_to_list].
  intros x y z Hx%stripPrefix_spec Hy%stripPrefix_spec. by subst.
Qed.

(** The scan lists no file twice, and neither does any selection made
    from it: in one run no image is handed to the worker a second time. *)
Theorem scan_has_no_duplicates (E : env) (w w' : world) (files : list jsstring) :
  NoDup (imageFilesOf E (fs w))
  ∧ (select E (imageFilesOf E (fs w)) w = (Ok files, w') → NoDup files).
Proof.
  assert (NoDup (imageFilesOf E (fs w))) as Hnd
    by apply NoDup_filter, filesBelow_NoDup.
  split; [done|]. rewrite select_spec.
  destruct (selectedFilesOf E _) as [sel|] eqn:Hsel; [|done].
  intros [= -> _]. eapply sublist_NoDup; [exact Hnd|].
  unfold selectedFilesOf in Hsel. destruct (a_selectionMode (user E)).
  - by injection Hsel as <-.
  - destruct (_ <? _)%nat; [done|]. injection Hsel as <-. apply sublist_filter.
  - destruct (_ <? _)%nat; [done|]. injection Hsel as <-. apply sublist_filter.
Qed.

(** ** [basename] without a suffix *)

Lemma basename_loop_name path lo k end_ ms :
  (∀ j, (lo ≤ j < lo + k)%nat → path !! j ≠ Some CHAR_FORWARD_SLASH) →
  k ≠ 0%nat →
  Path.basename_loop path (lo + k) end_ ms
  = Path.basename_loop path lo
      (if end_ =? -1 then Z.of_nat (lo + k) else end_)
      (if end_ =? -1 then false else ms).
Proof.
  revert end_ ms. induction k as [|k IH]; intros end_ ms Hj Hk; [done|].
  replace (lo + S k)%nat with (S (lo + k)) by lia. simpl Path.basename_loop.
  rewrite codeIs_false by (apply Hj; lia).
  destruct (decide (k = 0%nat)) as [->|Hk'].
  { rewrite Nat.add_0_r.
    destruct (Z.eqb_spec end_ (-1)); [|done].
    by replace (Z.of_nat lo + 1) with (Z.of_nat (S lo)) by lia. }
  destruct (Z.eqb_spec end_ (-1)) as [->|He].
  - rewrite IH by (done || intros; apply Hj; lia).
    destruct (Z.eqb_spec (Z.of_nat (lo + k) + 1) (-1)); [lia|].
    by replace (Z.of_nat (lo + k) + 1) with (Z.of_nat (S (lo + k))) by lia.
  - rewrite IH by (done || intros; apply Hj; lia).
    by destruct (Z.eqb_spec end_ (-1)).
Qed.

Lemma basename_name pre name :
  boundary pre → name ≠ [] → CHAR_FORWARD_SLASH ∉ name →
  Path.basename (pre ++ name) [] = name.
Proof.
  intros Hpre Hname Hs. unfold Path.basename.
  change ((0 <? len []) && (len [] <=? len (pre ++ name))) with false.
  cbv iota. rewrite length_app.
  rewrite basename_loop_name; cycle 1.
  { intros j Hj. rewrite lookup_app_r by lia. by apply lookup_notin. }
  { by destruct name. }
  change (-1 =? -1) with true. cbv iota.
  assert (Path.basename_loop (pre ++ name) (length pre)
            (Z.of_nat (length pre + length name)) false
          = (Z.of_nat (length pre), Z.of_nat (length pre + length name))) as ->.
  { destruct Hpre as [->|[pre' ->]]; [done|].
    rewrite length_app. simpl length.
    replace (length pre' + 1)%nat with (S (length pre')) by lia.
    simpl Path.basename_loop. rewrite <- app_assoc. simpl app.
    rewrite codeIs_middle, bool_decide_true by done. simpl.
    do 2 f_equal. lia. }
  destruct (Z.eqb_spec (Z.of_nat (length pre + length name)) (-1)); [lia|].
  rewrite Nat2Z.inj_add. rewrite <- (app_nil_r name) at 1.
  apply slice_middle.
Qed.

(** ** The parts of a scanned path *)

(** What lines 161-164 take a scanned file apart into. *)
Lemma scanned_pieces E f :
  scanned f →
  ∃ pre name,
    boundary pre ∧ name ≠ [] ∧ (CHAR_FORWARD_SLASH ∉ name)
    ∧ f = pre ++ name
    ∧ pre = (if bool_decide (Path.dirname f = lit ".") then []
             else Path.dirname f ++ [CHAR_FORWARD_SLASH])
    ∧ name = Path.basename f (Path.extname f) ++ Path.extname f
    ∧ Path.basename f (Path.extname f) ≠ []
    ∧ Path.extname f ∈ recognized
    ∧ inputPath E f = publicDir E ++ CHAR_FORWARD_SLASH :: f.
Proof.
  intros (ds & stem & e & Hf & Hds & Hv & Hs & He & Hdir & Hext & Hbase)%scanned_parts.
  destruct (extension_facts e He) as (Hne & Hes & Hed).
  exists (if bool_decide (ds = []) then [] else unsplit ds ++ [CHAR_FORWARD_SLASH]),
         (stem ++ CHAR_DOT :: e).
  rewrite Hext, Hbase, Hdir. split_and!.
  - apply boundary_dir.
  - by destruct stem.
  - rewrite not_elem_of_app, not_elem_of_cons. done.
  - by rewrite Hf, unsplit_last.
  - case_bool_decide as Hnil; [by rewrite bool_decide_true|].
    rewrite bool_decide_false; [done|]. intros Hdot.
    destruct (unsplit_visible ds Hnil Hds) as [[_ Hvis] _].
    by rewrite Hdot in Hvis.
  - done.
  - by destruct Hv.
  - unfold recognized. apply list_elem_of_fmap. by exists e.
  - rewrite Hf. by apply inputPath_scanned.
Qed.

(** The three parts that lines 162-164 take of a scanned file put it
    together again: the folder (nothing for the root, whose folder is
    ["."]), the base name and the extension; the base name is not empty
    and the extension is one of the five of the pattern. *)
Theorem path_parts_recompose (E : env) (σ : Fs.state) (f : jsstring) :
  wf σ → f ∈ imageFilesOf E σ →
  f = (if bool_decide (Path.dirname f = lit ".") then []
       else Path.dirname f ++ [CHAR_FORWARD_SLASH])
      ++ Path.basename f (Path.extname f) ++ Path.extname f
  ∧ Path.basename f (Path.extname f) ≠ []
  ∧ (CHAR_FORWARD_SLASH ∉ Path.basename f (Path.extname f))
  ∧ Path.extname f ∈ recognized.
Proof.
  intros Hwf Hf.
  destruct (scanned_pieces E f (scanned_of_scan E σ f Hwf Hf))
    as (pre & name & _ & _ & Hs & Heq & -> & -> & Hb & He & _).
  split_and!; try done. by apply not_elem_of_app in Hs as [? _].
Qed.

Lemma path_parts_recompose_witness :
  lit "images/hero.jpg"
  = (if bool_decide (Path.dirname (lit "images/hero.jpg") = lit ".") then []
     else Path.dirname (lit "images/hero.jpg") ++ [CHAR_FORWARD_SLASH])
    ++ Path.basename (lit "images/hero.jpg") (Path.extname (lit "images/hero.jpg"))
    ++ Path.extname (lit "images/hero.jpg").
Proof.
  apply (path_parts_recompose (Example.E overwrite "") (fs Example.readme)
           (lit "images/hero.jpg")).
  - apply wf_check. by vm_compute.
  - apply elem_of_check. by vm_compute.
Defined.

(** The input path of line 161 names the file that was scanned: it is
    the path below [public/] under which the file is on the disk. *)
Theorem worker_input_is_the_scanned_file (E : env) (σ : Fs.state) (f : jsstring) :
  wf σ → f ∈ imageFilesOf E σ →
  inputPath E f = publicDir E ++ CHAR_FORWARD_SLASH :: f
  ∧ is_Some (Fs.files σ !! inputPath E f).
Proof.
  intros Hwf Hf.
  destruct (scanned_pieces E f (scanned_of_scan E σ f Hwf Hf))
    as (_ & _ & _ & _ & _ & _ & _ & _ & _ & _ & Hin).
  split; [done|]. rewrite Hin. by apply imageFilesOf_spec in Hf as [? _].
Qed.

Lemma worker_input_is_the_scanned_file_witness :
  inputPath (Example.E overwrite "") (lit "images/hero.jpg")
  = lit "/app/public" ++ CHAR_FORWARD_SLASH :: lit "images/hero.jpg"
  ∧ is_Some (Fs.files (fs Example.readme)
               !! inputPath (Example.E overwrite "") (lit "images/hero.jpg")).
Proof.
  destruct (worker_input_is_the_scanned_file (Example.E overwrite "")
              (fs Example.readme) (lit "images/hero.jpg")) as (Hin & Hsome).
  - apply wf_check. by vm_compute.
  - apply elem_of_check. by vm_compute.
  - split; [|exact Hsome]. rewrite Hin. by vm_compute.
Defined.

(** A conversion that fails changes nothing on the disk, and its error
    names the file without its folders: for a scanned file the message is
    [Failed to optimize <base><ext>: <cause>]. *)
Theorem failure_names_the_file (E : env) (σ : Fs.state) (f output : jsstring)
    (w : world) :
  wf σ → f ∈ imageFilesOf E σ →
  (optimizeImage E (inputPath E f) output 80 w).1 ≠ Ok true →
  fs (optimizeImage E (inputPath E f) output 80 w).2 = fs w
  ∧ ∃ cause,
      (optimizeImage E (inputPath E f) output 80 w).1
      = Throw (lit "Failed to optimize "
               ++ (Path.basename f (Path.extname f) ++ Path.extname f)
               ++ lit ": " ++ cause).
Proof.
  intros Hwf Hf.
  destruct (scanned_pieces E f (scanned_of_scan E σ f Hwf Hf))
    as (pre & name & Hpre & Hne & Hs & Heq & _ & Hname & _ & _ & Hin).
  rewrite optimizeImage_spec.
  destruct (encoded E (fs w) _ _); [done|]. intros _. split; [done|].
  eexists. cbn [fst]. do 2 f_equal. rewrite <- Hname, Hin.
  rewrite Heq at 1.
  replace (publicDir E ++ CHAR_FORWARD_SLASH :: pre ++ name)
    with ((publicDir E ++ CHAR_FORWARD_SLASH :: pre) ++ name)
    by (by rewrite <- app_assoc).
  rewrite basename_name; try done.
  right. destruct Hpre as [->|[pre' ->]].
  - by exists (publicDir E).
  - exists (publicDir E ++ CHAR_FORWARD_SLASH :: pre'). by rewrite <- app_assoc.
Qed.

Lemma failure_names_the_file_witness :
  ∃ cause,
    (optimizeImage (Example.E overwrite "")
       (inputPath (Example.E overwrite "") (lit "b.png"))
       (lit "/app/public/b.webp") 80 Example.corrupt).1
    = Throw (lit "Failed to optimize b.png: " ++ cause).
Proof.
  destruct (failure_names_the_file (Example.E overwrite "") (fs Example.corrupt)
              (lit "b.png") (lit "/app/public/b.webp") Example.corrupt)
    as (_ & cause & Hthrow).
  - apply wf_check. by vm_compute.
  - apply elem_of_check. by vm_compute.
  - by vm_compute.
  - exists cause. rewrite Hthrow. by vm_compute.
Defined.

(** ** Outputs are no images *)

Lemma image_is_no_output E s suffix g f :
  scanned g → imagePath f →
  outputPath E s suffix g ≠ publicDir E ++ CHAR_FORWARD_SLASH :: f.
Proof.
  intros Hg (ds & stem & e & Hf & _ & [Hne Hdot] & He) Heq.
  destruct (extension_facts e He) as (Hen & Hes & Hed).
  pose proof (split_slashfree f) as Hsf. rewrite Hf in Hsf.
  rewrite Forall_app, Forall_singleton in Hsf. destruct Hsf as [_ Hsf].
  apply not_elem_of_app in Hsf as [Hstem _].
  apply (f_equal Path.extname) in Heq. rewrite extname_output in Heq by done.
  rewrite <- (unsplit_split f), Hf, unsplit_last in Heq.
  rewrite (app_comm_cons _ _ CHAR_FORWARD_SLASH), app_assoc in Heq.
  rewrite extname_split in Heq; try done.
  - rewrite dot_webp in Heq. injection Heq as <-.
    by destruct webp_facts as (_ & _ & _ & ?).
  - right. case_bool_decide.
    + by exists (publicDir E).
    + exists (publicDir E ++ CHAR_FORWARD_SLASH :: unsplit ds).
      by rewrite <- app_assoc.
Qed.

(** What a run writes is never an image of the next scan: after a run,
    whatever its outcome, a scan of [public/] returns the files it
    returned before, no more and no fewer. *)
Theorem rescan_is_stable (E : env) (w : world) (f : jsstring) :
  wf (fs w) →
  f ∈ imageFilesOf E (fs (run E w).2) ↔ f ∈ imageFilesOf E (fs w).
Proof.
  intros Hwf. rewrite !imageFilesOf_spec.
  assert (imagePath f →
          Fs.files (fs (run E w).2) !! (publicDir E ++ CHAR_FORWARD_SLASH :: f)
          = Fs.files (fs w) !! (publicDir E ++ CHAR_FORWARD_SLASH :: f)) as Heq.
  { intros Hf. apply run_frame. intros g Hg.
    apply image_is_no_output; [by eapply scanned_of_scan|done]. }
  split; intros [Hsome Hf]; (split; [|done]).
  - by rewrite <- Heq.
  - by rewrite Heq.
Qed.

Lemma rescan_is_stable_witness :
  lit "logo.png"
  ∈ imageFilesOf (Example.E overwrite "")
      (fs (run (Example.E overwrite "") Example.readme).2).
Proof.
  apply (rescan_is_stable (Example.E overwrite "") Example.readme (lit "logo.png")).
  - apply wf_check. by vm_compute.
  - apply elem_of_check. by vm_compute.
Defined.

(** The two joins of lines 204 and 206 are one join of three parts, as
    on line 194: the new-folder output is
    [path.join(publicDir, outputDirName, base + '.webp')], for every
    suffix and every file. *)
Theorem new_folder_is_one_join (E : env) (suffix f : jsstring) :
  outputPath E new_folder suffix f
  = Path.join [publicDir E;
               (if bool_decide (Path.dirname f = lit ".") then suffix
                else Path.dirname f ++ suffix);
               Path.basename f (Path.extname f) ++ lit ".webp"].
Proof.
  unfold outputPath, outputDirPath. apply join_join.
  - apply publicDir_nonempty.
  - by intros [_ ?]%app_eq_nil.
Qed.

(** ** What the outputs hold *)



(** ** A directory that cannot be made *)

(** Under the new-folder strategy the first output directory that cannot
    be made ends the loop there: the error leaves [execute], the files
    before it have been handed to the worker and stay converted, the file
    itself and the files after it are not, and no summary is printed. *)
Theorem directory_failure_stops_the_loop (E : env) (suffix : jsstring)
    (before after : list jsstring) (f : jsstring) (w w1 : world) (n m : Z)
    (err : jsstring) :
  batch E new_folder suffix before 0 0 w = (Ok (n, m), w1) →
  (ensureDir E (outputDirPath E suffix f) w1).1 = Throw err →
  execute E new_folder suffix (before ++ f :: after) w
  = (Throw err,
     World (fs w1) (trace w1 ++ [EnsureDir (outputDirPath E suffix f)]))
  ∧ optimized (trace (execute E new_folder suffix (before ++ f :: after) w).2)
    = optimized (trace w)
      ++ ((λ g, (inputPath E g, outputPath E new_folder suffix g)) <$> before)
  ∧ printed (trace (execute E new_folder suffix (before ++ f :: after) w).2)
    = printed (trace w1).
Proof.
  intros Hb Hd.
  assert (execute E new_folder suffix (before ++ f :: after) w
          = (Throw err,
             World (fs w1) (trace w1 ++ [EnsureDir (outputDirPath E suffix f)])))
    as Hex.
  { rewrite execute_spec, batch_app, Hb. cbn [fst snd]. rewrite batch_cons.
    destruct (ensureDir_cases E (outputDirPath E suffix f) w1)
      as [[dirs Hd']|[err' Hd']]; rewrite Hd' in Hd |- *; [done|].
    by injection Hd as ->. }
  rewrite Hex. cbn [snd trace]. split; [done|].
  apply batch_ok in Hb as (t & errs & Ht & Hcalls & _).
  rewrite optimized_app, printed_app, app_nil_r. cbn [optimized omap].
  rewrite app_nil_r. split; [|done].
  by rewrite Ht, optimized_app, <- (optimized_calls t), Hcalls, optimized_callsFor.
Qed.

Lemma directory_failure_stops_the_loop_witness :
  (execute (Example.E new_folder "_optimized") new_folder (lit "_optimized")
     [lit "images/hero.jpg"; lit "logo.png"] Example.blocked).1
  = Throw (lit "EEXIST: file already exists, mkdir '/app/public/_optimized'")
  ∧ optimized (trace (execute (Example.E new_folder "_optimized") new_folder
                        (lit "_optimized")
                        [lit "images/hero.jpg"; lit "logo.png"] Example.blocked).2)
    = [(lit "/app/public/images/hero.jpg",
        lit "/app/public/images_optimized/hero.webp")].
Proof.
  destruct (directory_failure_stops_the_loop (Example.E new_folder "_optimized")
              (lit "_optimized") [lit "images/hero.jpg"] [] (lit "logo.png")
              Example.blocked
              (batch (Example.E new_folder "_optimized") new_folder
                 (lit "_optimized") [lit "images/hero.jpg"] 0 0 Example.blocked).2
              1 0 (lit "EEXIST: file already exists, mkdir '/app/public/_optimized'"))
    as (Hex & Hopt & _).
  - vm_compute. reflexivity.
  - vm_compute. reflexivity.
  - split.
    + change ([lit "images/hero.jpg"; lit "logo.png"])
        with ([lit "images/hero.jpg"] ++ lit "logo.png" :: []).
      by rewrite Hex.
    + change ([lit "images/hero.jpg"; lit "logo.png"])
        with ([lit "images/hero.jpg"] ++ lit "logo.png" :: []).
      rewrite Hopt. vm_compute. reflexivity.
Defined.

(** ** When two outputs meet *)

Lemma outputPath_scanned E s suffix ds stem e :
  Forall (λ d, visible d ∧ (CHAR_FORWARD_SLASH ∉ d)) ds →
  visible stem → CHAR_FORWARD_SLASH ∉ stem → e ∈ extensions →
  (s = new_folder → plain suffix) →
  outputPath E s suffix (unsplit (ds ++ [stem ++ CHAR_DOT :: e]))
  = publicDir E ++ CHAR_FORWARD_SLASH ::
    match s with
    | overwrite => if bool_decide (ds = []) then []
                   else unsplit ds ++ [CHAR_FORWARD_SLASH]
    | new_folder => (if bool_decide (ds = []) then suffix else unsplit ds ++ suffix)
                    ++ [CHAR_FORWARD_SLASH]
    end ++ stem ++ lit ".webp".
Proof.
  intros Hds Hv Hs He Hsuffix. destruct s.
  - destruct (Hsuffix eq_refl) as [[Hne Hsl] _]. case_bool_decide as Hnil.
    + destruct (new_folder_root E ds stem e suffix Hds Hv Hs He Hnil
                  (Hsuffix eq_refl)) as (-> & _).
      by rewrite <- app_assoc.
    + destruct (new_folder_nested E ds stem e suffix Hds Hv Hs He Hsl Hnil)
        as (-> & _).
      by rewrite <- !app_assoc.
  - rewrite overwrite_scanned by done. by rewrite unsplit_last.
Qed.

(** Two scanned files have the same output path exactly when they are in
    the same folder and have the same base name, under the overwrite
    strategy and under the new-folder strategy with a plain suffix: the
    extension is all that the output path forgets. *)
Theorem outputs_meet_only_on_the_same_name (E : env) (σ : Fs.state)
    (s : strategy) (suffix f g : jsstring) :
  wf σ → f ∈ imageFilesOf E σ → g ∈ imageFilesOf E σ →
  (s = new_folder → plain suffix) →
  outputPath E s suffix f = outputPath E s suffix g
  ↔ Path.dirname f = Path.dirname g
    ∧ Path.basename f (Path.extname f) = Path.basename g (Path.extname g).
Proof.
  intros Hwf Hf Hg Hsuffix. split.
  2:{ intros [Hd Hb]. unfold outputPath, outputDirPath. by rewrite Hd, Hb. }
  destruct (scanned_parts f (scanned_of_scan E σ f Hwf Hf))
    as (ds & stem & e & -> & Hds & Hv & Hs & He & -> & -> & ->).
  destruct (scanned_parts g (scanned_of_scan E σ g Hwf Hg))
    as (ds' & stem' & e' & -> & Hds' & Hv' & Hs' & He' & -> & -> & ->).
  rewrite !outputPath_scanned by done. intros Heq.
  apply app_inv_head in Heq. injection Heq as Heq.
  assert (∀ l, Forall (λ d, visible d ∧ (CHAR_FORWARD_SLASH ∉ d)) l →
               l ≠ [] → unsplit l ≠ []) as Hne.
  { intros l Hl Hnil. apply unsplit_nonempty; [by apply plain_forall|done]. }
  assert (∀ K K' : jsstring,
            boundary K → boundary K' →
            K ++ stem ++ lit ".webp" = K' ++ stem' ++ lit ".webp" →
            K = K' ∧ stem = stem') as Hsplit.
  { intros K K' HK HK' HKK.
    assert (stem ++ lit ".webp" = stem' ++ lit ".webp") as Hn.
    { rewrite <- (basename_name K (stem ++ lit ".webp")), HKK; cycle 1.
      - done.
      - by destruct stem, Hv.
      - by destruct (plain_webp stem Hv Hs) as [[_ ?] _].
      - apply basename_name; [done|by destruct stem', Hv'|].
        by destruct (plain_webp stem' Hv' Hs') as [[_ ?] _]. }
    rewrite Hn in HKK. apply app_inv_tail in HKK, Hn. done. }
  destruct s.
  - apply Hsplit in Heq as [HK ->]; [|right; by eexists..]. split; [|done].
    apply app_inv_tail in HK.
    repeat case_bool_decide; try done.
    + exfalso. apply (Hne ds'); [done..|].
      apply (f_equal length) in HK. rewrite length_app in HK.
      destruct (unsplit ds'); [done|simpl in HK; lia].
    + exfalso. apply (Hne ds); [done..|].
      apply (f_equal length) in HK. rewrite length_app in HK.
      destruct (unsplit ds); [done|simpl in HK; lia].
    + by apply app_inv_tail in HK.
  - apply Hsplit in Heq as [HK ->]; [|apply boundary_dir..]. split; [|done].
    repeat case_bool_decide; try done.
    + exfalso. by destruct (unsplit ds').
    + exfalso. by destruct (unsplit ds).
    + by apply app_inv_tail in HK.
Qed.

Lemma outputs_meet_only_on_the_same_name_witness :
  outputPath (Example.E new_folder "_optimized") new_folder (lit "_optimized")
    (lit "a.jpg")
  = outputPath (Example.E new_folder "_optimized") new_folder (lit "_optimized")
      (lit "a.png").
Proof.
  apply (outputs_meet_only_on_the_same_name (Example.E new_folder "_optimized")
           (fs Example.twins) new_folder (lit "_optimized")
           (lit "a.jpg") (lit "a.png")).
  - apply wf_check. by vm_compute.
  - apply elem_of_check. by vm_compute.
  - apply elem_of_check. by vm_compute.
  - intros _. apply plain_optimized.
  - split; vm_compute; reflexivity.
Defined.

(** ** Where the images are looked for *)

(** Line 27: started in a directory [/a/b/...] whose names are plain, the
    script looks for the images in [/a/b/.../public]. *)
Theorem publicDir_is_below_cwd (E : env) (names : list jsstring) :
  Forall plain names → names ≠ [] →
  cwd E = CHAR_FORWARD_SLASH :: unsplit names →
  publicDir E = cwd E ++ lit "/public".
Proof.
  intros Hn Hne Hcwd. unfold publicDir.
  rewrite join2 by (by rewrite ?Hcwd). rewrite Hcwd.
  change (lit "/public") with (CHAR_FORWARD_SLASH :: lit "public").
  assert (Forall plain (names ++ [lit "public"])) as Hall.
  { apply Forall_app. split; [done|]. apply Forall_singleton, plain_public. }
  change ((CHAR_FORWARD_SLASH :: unsplit names) ++ CHAR_FORWARD_SLASH :: lit "public")
    with ([] ++ CHAR_FORWARD_SLASH :: (unsplit names ++ CHAR_FORWARD_SLASH :: lit "public")).
  rewrite <- unsplit_snoc by done.
  rewrite normalize_spec by done.
  rewrite split_app, split_nil, split_unsplit; cycle 1.
  { eapply Forall_impl; [done|apply plain_segment]. }
  { by destruct names. }
  replace (isAbsolute ([] ++ CHAR_FORWARD_SLASH :: unsplit (names ++ [lit "public"])))
    with true by done.
  rewrite unsplit_snoc by done.
  rewrite (app_comm_cons (unsplit names)), app_assoc.
  rewrite trailingSeparator_plain_cons by apply plain_public.
  cbn [negb app]. rewrite resolve_skip_empty, resolve_plain, app_nil_r by done.
  unfold finish. rewrite bool_decide_false; cycle 1.
  { intros H. apply (f_equal (@rev _)) in H. rewrite rev_involutive in H.
    by destruct names. }
  rewrite app_nil_r. fold (unsplit (names ++ [lit "public"])).
  by rewrite unsplit_snoc.
Qed.

Lemma publicDir_is_below_cwd_witness :
  publicDir (Example.E overwrite "") = lit "/app/public".
Proof.
  rewrite (publicDir_is_below_cwd (Example.E overwrite "") [lit "app"]).
  - reflexivity.
  - apply Forall_singleton. split; [split; [done|]|done].
    cbv [lit String.list_ascii_of_string CHAR_FORWARD_SLASH].
    intros H. by repeat (apply elem_of_cons in H as [H|H]; [done|]);
      apply elem_of_nil in H.
  - done.
  - reflexivity.
Defined.

(** ** A run from the first line to the summary *)



